(** * A shallow embedding of [skip_list.py] and its verification.

    The Python module keeps a skip list as a graph of mutable [SkipNode]
    objects: every node owns a dictionary [next] from level indices to the next
    node at that level (or [None]).  Nodes are shared between levels, and
    [insert] and [delete] rewire the dictionaries in place.  The embedding
    therefore works over an explicit store of nodes addressed by object
    identity; the three public operations are written as the source writes
    them, one recursive function per loop. *)

From stdpp Require Import base option list gmap strings sorting.
From Stdlib Require Import ZArith Lia.
From stdpp Require Import pretty.

Local Open Scope Z_scope.

(** ** Data model *)

(** The payloads the tests and the demo store ([V = Any]): [None] (in the
    head sentinel), strings and integers. *)
Inductive pyobj :=
| PyNone
| PyStr (s : string)
| PyInt (z : Z).

(** Object identity of a [SkipNode]. *)
Definition addr := nat.

(** [Pair]: the key of the head sentinel is Python's [None], which is
    [None] here; real keys are integers, as in the tests. *)
Record Pair := mkPair { key : option Z; value : pyobj }.

(** [SkipNode]: [next] may hold the value [None] under a level (the source
    stores [x.next.get(i)] into [new_node.next[i]]), hence [option addr]. *)
Record SkipNode := mkNode { pair : Pair; next : gmap Z (option addr) }.

(** [SkipList]: the dataclass fields. *)
Record SkipList := mkList { head : addr; level : Z; size : Z }.

(** The store of node objects, and a list together with the store it lives in. *)
Record state := mkState { mem : gmap addr SkipNode; self : SkipList }.

(** What running a method yields.  [KeyError] and [TypeError] are the Python
    exceptions ([TypeError] is what ordering an integer against [None]
    raises); [Dangling] flags a reference to an address outside the store,
    which no Python run can produce; [OutOfFuel] marks a loop cut short by the
    step bound. *)
Inductive result (A : Type) :=
| Ok (a : A)
| KeyError (k : Z)
| TypeError
| Dangling
| OutOfFuel.
Arguments Ok {A} a.
Arguments KeyError {A} k.
Arguments TypeError {A}.
Arguments Dangling {A}.
Arguments OutOfFuel {A}.

#[global] Instance result_ret : MRet result := λ A a, Ok a.

#[global] Instance result_bind : MBind result := λ A B f r,
  match r with
  | Ok a => f a
  | KeyError k => KeyError k
  | TypeError => TypeError
  | Dangling => Dangling
  | OutOfFuel => OutOfFuel
  end.

(** ** Reading and writing node objects *)

(** [n.next.get(i)]: [None] both for a missing level and for a stored [None]. *)
Definition next_get (n : SkipNode) (i : Z) : option addr :=
  default None (next n !! i).

(** [self.next[i] = v] on the object at [a]. *)
Definition set_next (hp : gmap addr SkipNode) (a : addr) (i : Z)
    (v : option addr) : gmap addr SkipNode :=
  alter (λ n, mkNode (pair n) (<[i := v]> (next n))) a hp.

(** Dereference an object. *)
Definition deref (hp : gmap addr SkipNode) (a : addr) : result SkipNode :=
  match hp !! a with
  | Some n => Ok n
  | None => Dangling
  end.

(** The key of a node as an orderable value: comparing against the [None]
    key of a sentinel raises [TypeError]. *)
Definition node_key (n : SkipNode) : result Z :=
  match key (pair n) with
  | Some k => Ok k
  | None => TypeError
  end.

(** [SkipNode.level]: [max(self.next.keys())]; [None] stands for the
    [ValueError] of [max] on a node without levels. *)
Definition SkipNode_level (n : SkipNode) : option Z :=
  match elements (dom (next n)) with
  | [] => None
  | i :: l => Some (foldr Z.max i l)
  end.

(** [range(top, -1, -1)]: the levels [top, top - 1, ..., 0]; empty for a
    negative [top]. *)
Fixpoint down_from (n : nat) : list Z :=
  match n with
  | O => []
  | S m => Z.of_nat m :: down_from m
  end.

Definition range_down (top : Z) : list Z := down_from (Z.to_nat (top + 1)).

(** ** [SkipList.__len__] *)

Definition len (st : state) : Z := size (self st).

(** ** [SkipList.__getitem__] *)

(** The [while True] loop at level [i].  [inl v] is the [return] from inside
    the loop, [inr x] the [break] with the traversal pointer [x]. *)
Fixpoint getitem_while (fuel : nat) (hp : gmap addr SkipNode) (k : Z) (i : Z)
    (x : addr) : result (pyobj + addr) :=
  match fuel with
  | O => OutOfFuel
  | S fuel =>
      nx ← deref hp x;
      match next_get nx i with
      | None => Ok (inr x)
      | Some b =>
          nb ← deref hp b;
          kb ← node_key nb;
          if k <? kb then Ok (inr x)
          else if kb =? k then Ok (inl (value (pair nb)))
          else getitem_while fuel hp k i b
      end
  end.

(** The [for i in range(self.level, -1, -1)] loop, then [raise KeyError(k)]. *)
Fixpoint getitem_for (fuel : nat) (hp : gmap addr SkipNode) (k : Z)
    (levels : list Z) (x : addr) : result pyobj :=
  match levels with
  | [] => KeyError k
  | i :: levels =>
      r ← getitem_while fuel hp k i x;
      match r with
      | inl v => Ok v
      | inr x => getitem_for fuel hp k levels x
      end
  end.

Definition getitem (k : Z) (st : state) (fuel : nat) : result pyobj :=
  getitem_for fuel (mem st) k (range_down (level (self st))) (head (self st)).

(** ** [SkipList.get_level] *)

(** [random.choice([True, False])] is read off a stream of coin flips; the
    level is the number of flips before the first [False].  [None] when the
    finite prefix of the stream holds no [False]. *)
Fixpoint get_level (flips : list bool) : option Z :=
  match flips with
  | [] => None
  | false :: _ => Some 0
  | true :: flips => Z.succ <$> get_level flips
  end.

(** ** [SkipList.insert] *)

(** [while x.next.get(i) is not None and x.next[i].pair.key < key]. *)
Fixpoint insert_while (fuel : nat) (hp : gmap addr SkipNode) (k : Z) (i : Z)
    (x : addr) : result addr :=
  match fuel with
  | O => OutOfFuel
  | S fuel =>
      nx ← deref hp x;
      match next_get nx i with
      | None => Ok x
      | Some b =>
          nb ← deref hp b;
          kb ← node_key nb;
          if kb <? k then insert_while fuel hp k i b else Ok x
      end
  end.

(** The [for i in range(new_level, -1, -1)] loop: find the predecessor at
    level [i], then splice [new_node] in behind it. *)
Fixpoint insert_for (fuel : nat) (hp : gmap addr SkipNode) (k : Z)
    (new_node : addr) (levels : list Z) (x : addr)
    : result (gmap addr SkipNode) :=
  match levels with
  | [] => Ok hp
  | i :: levels =>
      x ← insert_while fuel hp k i x;
      nx ← deref hp x;
      let hp := set_next hp new_node i (next_get nx i) in
      let hp := set_next hp x i (Some new_node) in
      insert_for fuel hp k new_node levels x
  end.

(** Allocation of a new object: an address the store does not use. *)
Definition alloc (hp : gmap addr SkipNode) : addr := fresh (dom hp).

(** [insert]; [new_level] is what [self.get_level()] returned. *)
Definition insert (new_level : Z) (k : Z) (v : pyobj) (st : state)
    (fuel : nat) : result state :=
  let lvl := if new_level >? level (self st) then new_level
             else level (self st) in
  let new_node := alloc (mem st) in
  let hp := <[new_node := mkNode (mkPair (Some k) v) ∅]> (mem st) in
  hp ← insert_for fuel hp k new_node (range_down new_level) (head (self st));
  Ok (mkState hp (mkList (head (self st)) lvl (size (self st) + 1))).

(** ** [SkipList.delete] *)

(** The [while True] loop at level [i]; threads the store, the traversal
    pointer and the [deleted] flag. *)
Fixpoint delete_while (fuel : nat) (hp : gmap addr SkipNode) (k : Z) (i : Z)
    (x : addr) (deleted : bool) : result (gmap addr SkipNode * addr * bool) :=
  match fuel with
  | O => OutOfFuel
  | S fuel =>
      nx ← deref hp x;
      match next_get nx i with
      | None => Ok (hp, x, deleted)
      | Some b =>
          nb ← deref hp b;
          kb ← node_key nb;
          if k <? kb then Ok (hp, x, deleted)
          else if kb =? k then
            delete_while fuel (set_next hp x i (next_get nb i)) k i x true
          else delete_while fuel hp k i b deleted
      end
  end.

Fixpoint delete_for (fuel : nat) (hp : gmap addr SkipNode) (k : Z)
    (levels : list Z) (x : addr) (deleted : bool)
    : result (gmap addr SkipNode * bool) :=
  match levels with
  | [] => Ok (hp, deleted)
  | i :: levels =>
      '(hp, x, deleted) ← delete_while fuel hp k i x deleted;
      delete_for fuel hp k levels x deleted
  end.

Definition delete (k : Z) (st : state) (fuel : nat) : result state :=
  '(hp, deleted) ← delete_for fuel (mem st) k (range_down (level (self st)))
                     (head (self st)) false;
  Ok (mkState hp (mkList (head (self st)) (level (self st))
                    (if deleted : bool then size (self st) - 1
                     else size (self st)))).

(** ** Sample lists *)

(** A list without nodes: a head sentinel with no levels yet. *)
Definition empty_list : state :=
  mkState {[ 0%nat := mkNode (mkPair None PyNone) ∅ ]} (mkList 0%nat 0 0).

(** [make_example_list] of the tests (the second definition, which is the one
    in force). Addresses: head is 0, then the nodes in key order. *)
Definition example_list : state :=
  let nd k v nx := mkNode (mkPair (Some k) (PyStr v)) (list_to_map nx) in
  mkState
    (list_to_map
       [ (0%nat, mkNode (mkPair None PyNone)
                   (list_to_map [(0, Some 1%nat); (1, Some 2%nat); (2, Some 7%nat)]));
         (1%nat, nd 1 "1!" [(0, Some 2%nat)]);
         (2%nat, nd 5 "5!" [(0, Some 3%nat); (1, Some 5%nat); (2, Some 7%nat)]);
         (3%nat, nd 7 "7!" [(0, Some 4%nat)]);
         (4%nat, nd 12 "12!" [(0, Some 5%nat)]);
         (5%nat, nd 15 "15!" [(0, Some 6%nat); (1, Some 7%nat)]);
         (6%nat, nd 19 "19!" [(0, Some 7%nat)]);
         (7%nat, nd 24 "24!" []) ])
    (mkList 0%nat 2 7).

(** * Specification vocabulary *)

(** ** Forward links and chains *)

(** The forward link of the object at [a] at level [i]: [None] when there is
    no such object, [Some None] at the end of a level. *)
Definition link (hp : gmap addr SkipNode) (i : Z) (a : addr)
    : option (option addr) :=
  (λ n, next_get n i) <$> hp !! a.

Definition akey (hp : gmap addr SkipNode) (a : addr) : option Z :=
  hp !! a ≫= λ n, key (pair n).

Definition aval (hp : gmap addr SkipNode) (a : addr) : option pyobj :=
  (λ n, value (pair n)) <$> hp !! a.

(** The key of a node when it has one; only used on nodes that do. *)
Definition key_at (hp : gmap addr SkipNode) (a : addr) : Z :=
  default 0 (akey hp a).

(** [seg hp i a l b]: following level [i] from [a] visits exactly [l] and
    stands on [b] afterwards. *)
Fixpoint seg (hp : gmap addr SkipNode) (i : Z) (a : addr) (l : list addr)
    (b : addr) : Prop :=
  match l with
  | [] => a = b
  | c :: l => link hp i a = Some (Some c) ∧ seg hp i c l b
  end.

(** [path hp i a l]: the nodes after [a] at level [i] are exactly [l], the
    last of them (or [a]) having no successor. *)
Fixpoint path (hp : gmap addr SkipNode) (i : Z) (a : addr) (l : list addr)
    : Prop :=
  match l with
  | [] => link hp i a = Some None
  | c :: l => link hp i a = Some (Some c) ∧ path hp i c l
  end.

(** The nodes of level [i] of a list, the head sentinel left out. *)
Definition level_nodes (st : state) (i : Z) (l : list addr) : Prop :=
  path (mem st) i (head (self st)) l.

(** The keys met at level [i], in traversal order. *)
Definition level_keys (st : state) (i : Z) (ks : list Z) : Prop :=
  ∃ l, level_nodes st i l ∧ mapM (akey (mem st)) l = Some ks.

(** Some node of level 0 carries key [k]. *)
Definition has_key (st : state) (k : Z) : Prop :=
  ∃ l a, level_nodes st 0 l ∧ a ∈ l ∧ akey (mem st) a = Some k.

(** Some node of level 0 carries key [k] and value [v]. *)
Definition has_entry (st : state) (k : Z) (v : pyobj) : Prop :=
  ∃ l a, level_nodes st 0 l ∧ a ∈ l ∧ akey (mem st) a = Some k
         ∧ aval (mem st) a = Some v.

(** ** Running with enough fuel *)

(** [f ⇓ r]: from some step bound on, [f] yields [r]. *)
Definition evals {A} (f : nat → result A) (r : result A) : Prop :=
  ∃ n, ∀ fuel, (n ≤ fuel)%nat → f fuel = r.

Infix "⇓" := evals (at level 70).

(** ** Sequences of operations *)

Inductive op :=
| Insert (new_level : Z) (k : Z) (v : pyobj)
| Delete (k : Z).

Definition apply_op (o : op) (st : state) (fuel : nat) : result state :=
  match o with
  | Insert h k v => insert h k v st fuel
  | Delete k => delete k st fuel
  end.

Fixpoint run (ops : list op) (st : state) (fuel : nat) : result state :=
  match ops with
  | [] => Ok st
  | o :: ops => st ← apply_op o st fuel; run ops st fuel
  end.

(** ** Well-formed lists *)

(** [ch i] names the nodes of level [i].  Every level from 0 up is a finite
    chain from the head, empty above [level]; each level is a sublist of the
    one below; the nodes carry keys, in non-decreasing order. *)
Record wf_ch (st : state) (ch : Z → list addr) : Prop := {
  wf_path : ∀ i, 0 ≤ i → path (mem st) i (head (self st)) (ch i);
  wf_top : ∀ i, level (self st) < i → ch i = [];
  wf_sub : ∀ i, 0 ≤ i → ch (i + 1) `sublist_of` ch i;
  wf_keys : ∀ a, a ∈ ch 0 → is_Some (akey (mem st) a);
  wf_sorted :
    StronglySorted (λ a b, key_at (mem st) a ≤ key_at (mem st) b) (ch 0)
}.

Definition wf (st : state) : Prop := ∃ ch, wf_ch st ch.

(** The ordering invariant of the specification: strictly increasing keys at
    every level. *)
Definition ordered (st : state) : Prop :=
  ∀ i ks, 0 ≤ i → level_keys st i ks → StronglySorted Z.lt ks.

(** The subset property: each level above 0 is a sublist of the level below,
    and every level is a sublist of level 0. *)
Definition subset_property (st : state) : Prop :=
  (∀ i l l', 0 < i → level_nodes st i l → level_nodes st (i - 1) l' →
     l `sublist_of` l')
  ∧ (∀ i l l0, 0 ≤ i → level_nodes st i l → level_nodes st 0 l0 →
       l `sublist_of` l0).

(** [size] counts the nodes of level 0. *)
Definition size_accurate (st : state) : Prop :=
  ∀ l, level_nodes st 0 l → size (self st) = Z.of_nat (length l).

(** The level bound: no node of the list has a [SkipNode.level] above
    [level]. *)
Definition height_bounded (st : state) : Prop :=
  ∀ l a n hgt, level_nodes st 0 l → a ∈ l → mem st !! a = Some n →
    SkipNode_level n = Some hgt → hgt ≤ level (self st).

(** The levels of [example_list]. *)
Definition example_chains (i : Z) : list addr :=
  if decide (i = 0) then [1; 2; 3; 4; 5; 6; 7]%nat
  else if decide (i = 1) then [2; 5; 7]%nat
  else if decide (i = 2) then [7%nat]
  else [].

(** Key 5 inserted twice, first at level 1, then at level 0, and the list
    this leaves: the second node (address 2) stands before the first
    (address 1) at level 0, and only the first is on level 1. *)
Definition dup_ops : list op :=
  [Insert 1 5 (PyStr "a"); Insert 0 5 (PyStr "b")].

Definition dup_list : state :=
  mkState
    (list_to_map
       [ (0%nat, mkNode (mkPair None PyNone)
                   (list_to_map [(0, Some 2%nat); (1, Some 1%nat)]));
         (1%nat, mkNode (mkPair (Some 5) (PyStr "a"))
                   (list_to_map [(0, None); (1, None)]));
         (2%nat, mkNode (mkPair (Some 5) (PyStr "b"))
                   (list_to_map [(0, Some 1%nat)])) ])
    (mkList 0%nat 1 2).

(** Key 5 at level 2 and key 7 at level 0, then key 5 deleted: the node of
    key 7 (address 2) is what is left; the unlinked node of key 5 (address 1)
    is garbage. *)
Definition tall_ops : list op :=
  [Insert 2 5 (PyStr "a"); Insert 0 7 (PyStr "b"); Delete 5].

Definition tall_list : state :=
  mkState
    (list_to_map
       [ (0%nat, mkNode (mkPair None PyNone)
                   (list_to_map [(0, Some 2%nat); (1, None); (2, None)]));
         (1%nat, mkNode (mkPair (Some 5) (PyStr "a"))
                   (list_to_map [(0, Some 2%nat); (1, None); (2, None)]));
         (2%nat, mkNode (mkPair (Some 7) (PyStr "b"))
                   (list_to_map [(0, None)])) ])
    (mkList 0%nat 2 1).

(** The number of distinct keys among [ks]. *)
Definition distinct (ks : list Z) : Z := Z.of_nat (length (remove_dups ks)).

(** The largest [SkipNode.level] among the nodes [l], 0 when there is none. *)
Definition max_height (hp : gmap addr SkipNode) (l : list addr) : Z :=
  foldr Z.max 0 (omap (λ a, hp !! a ≫= SkipNode_level) l).

(** The level bound as the specification words it: [level] is the largest
    height among the nodes of the list. *)
Definition level_is_max (st : state) : Prop :=
  ∀ l, level_nodes st 0 l → level (self st) = max_height (mem st) l.

(** [reachable st0 st]: some sequence of [insert] and [delete] calls takes
    [st0] to [st]. *)
Definition reachable (st0 st : state) : Prop :=
  ∃ ops, run ops st0 ⇓ Ok st.

(** ** The finite map a list stands for *)

(** [contents st M]: the entries of level 0 are the entries of [M]. *)
Definition contents (st : state) (M : gmap Z pyobj) : Prop :=
  ∀ k v, has_entry st k v ↔ M !! k = Some v.

Definition model_op (M : gmap Z pyobj) (o : op) : gmap Z pyobj :=
  match o with
  | Insert _ k v => <[k := v]> M
  | Delete k => base.delete k M
  end.

(** Every [insert] of the sequence draws a level from 0 up and has a key
    that is not in the map when it is called. *)
Fixpoint fresh_inserts (M : gmap Z pyobj) (ops : list op) : Prop :=
  match ops with
  | [] => True
  | o :: ops =>
      match o with
      | Insert h k _ => 0 ≤ h ∧ M !! k = None
      | Delete _ => True
      end ∧ fresh_inserts (model_op M o) ops
  end.

Definition op_key (o : op) : Z :=
  match o with
  | Insert _ k _ => k
  | Delete k => k
  end.

(** ** The set of keys a list stands for *)

(** What an operation does to the set of keys: an [insert] whose drawn level
    is negative links nothing. *)
Definition keys_op (K : gset Z) (o : op) : gset Z :=
  match o with
  | Insert h k _ => if decide (0 ≤ h) then {[k]} ∪ K else K
  | Delete k => K ∖ {[k]}
  end.

(** All the outcomes of [n] coin flips. *)
Fixpoint all_flips (n : nat) : list (list bool) :=
  match n with
  | O => [[]]
  | S n => (cons true <$> all_flips n) ++ (cons false <$> all_flips n)
  end.

(** ** [SkipList.__str__] *)

(** What [__str__] yields: the text, the [KeyError] of [self.head.next[i]]
    or the [IndexError] of the assignment to [row]; [StrDangling] and
    [StrOutOfFuel] are as in [result]. *)
Inductive str_result (A : Type) :=
| Str (a : A)
| StrKeyError (i : Z)
| StrIndexError
| StrDangling
| StrOutOfFuel.
Arguments Str {A} a.
Arguments StrKeyError {A} i.
Arguments StrIndexError {A}.
Arguments StrDangling {A}.
Arguments StrOutOfFuel {A}.

#[global] Instance str_result_ret : MRet str_result := λ A a, Str a.

#[global] Instance str_result_bind : MBind str_result := λ A B f r,
  match r with
  | Str a => f a
  | StrKeyError i => StrKeyError i
  | StrIndexError => StrIndexError
  | StrDangling => StrDangling
  | StrOutOfFuel => StrOutOfFuel
  end.

(** [str(key)]. *)
Definition str_key (ky : option Z) : string :=
  match ky with
  | Some z => pretty z
  | None => "None"
  end.

(** The [while x is not None] loop of one row.  [location] maps a key to its
    column; the column counter [j] starts at 0 and only grows, so it is a
    natural number; [row] holds a key or [None] per column. *)
Fixpoint str_while (fuel : nat) (hp : gmap addr SkipNode) (i : Z)
    (x : option addr) (j : nat) (location : gmap (option Z) nat)
    (row : list (option Z)) (max_len : nat)
    : str_result (gmap (option Z) nat * list (option Z) * nat) :=
  match fuel with
  | O => StrOutOfFuel
  | S fuel =>
      match x with
      | None => Str (location, row, max_len)
      | Some a =>
          match hp !! a with
          | None => StrDangling
          | Some n =>
              let ky := key (pair n) in
              let j := default j (location !! ky) in
              let location := <[ky := j]> location in
              if decide (j < length row)%nat then
                let row := <[j := ky]> row in
                let l := String.length (str_key ky) in
                let max_len := if decide (max_len < l)%nat then l
                               else max_len in
                str_while fuel hp i (next_get n i) (S j) location row max_len
              else StrIndexError
          end
      end
  end.

(** The [for i in range(self.level + 1)] loop that fills [rows]. *)
Fixpoint str_for (fuel : nat) (hp : gmap addr SkipNode) (hd : addr) (sz : Z)
    (levels : list Z) (location : gmap (option Z) nat)
    (rows : list (list (option Z))) (max_len : nat)
    : str_result (list (list (option Z)) * nat) :=
  match levels with
  | [] => Str (rows, max_len)
  | i :: levels =>
      let row := replicate (Z.to_nat sz) None in
      match hp !! hd with
      | None => StrDangling
      | Some nh =>
          match next nh !! i with
          | None => StrKeyError i
          | Some x =>
              '(location, row, max_len) ←
                str_while fuel hp i x 0 location row max_len;
              str_for fuel hp hd sz levels location (rows ++ [row]) max_len
          end
      end
  end.

(** [range(n)]. *)
Definition range_up (n : Z) : list Z := Z.of_nat <$> seq 0 (Z.to_nat n).

(** The grid of [__str__] and the longest key text. *)
Definition str_grid (st : state) (fuel : nat)
    : str_result (list (list (option Z)) * nat) :=
  str_for fuel (mem st) (head (self st)) (size (self st))
    (range_up (level (self st) + 1)) ∅ [] 0.

(** [" " * n]. *)
Fixpoint spaces (n : nat) : string :=
  match n with
  | O => ""
  | S n => " " +:+ spaces n
  end.

(** [f"{s:>{w}}"]. *)
Definition rjust (w : nat) (s : string) : string :=
  spaces (w - String.length s) +:+ s.

(** [_format_key]. *)
Definition format_key (max_len : nat) (r : option Z) : string :=
  match r with
  | Some z => "-> " +:+ rjust max_len (pretty z)
  | None => "   " +:+ spaces max_len
  end.

(** [sep.join(l)]. *)
Fixpoint join (sep : string) (l : list string) : string :=
  match l with
  | [] => ""
  | s :: l' =>
      match l' with
      | [] => s
      | _ :: _ => s +:+ sep +:+ join sep l'
      end
  end.

(** One line of the grid: [f"{i}: {rs}"]. *)
Definition format_line (max_len : nat) (i : nat) (row : list (option Z))
    : string :=
  pretty i +:+ ": " +:+ join " " (format_key max_len <$> row).

Definition newline : string := String (Ascii.ascii_of_nat 10) EmptyString.

Definition SkipList_str (st : state) (fuel : nat) : str_result string :=
  '(rows, max_len) ← str_grid st fuel;
  Str (join newline (reverse (imap (format_line max_len) rows))).

(** The head sentinel has an entry (a node or [None]) for every level from 0
    to [level]. *)
Definition head_spans (st : state) : Prop :=
  ∃ nh, mem st !! head (self st) = Some nh
        ∧ ∀ i, 0 ≤ i ≤ level (self st) → is_Some (next nh !! i).

(** What one row's loop does, read on the keys it meets. *)
Fixpoint place (ks : list (option Z)) (j : nat)
    (location : gmap (option Z) nat) (row : list (option Z)) (max_len : nat)
    : option (gmap (option Z) nat * list (option Z) * nat) :=
  match ks with
  | [] => Some (location, row, max_len)
  | ky :: ks =>
      let j := default j (location !! ky) in
      if decide (j < length row)%nat then
        place ks (S j) (<[ky := j]> location) (<[j := ky]> row)
          (if decide (max_len < String.length (str_key ky))%nat
           then String.length (str_key ky) else max_len)
      else None
  end.

(** What the loop over the levels does, read on the keys of each level. *)
Fixpoint place_rows (kss : list (list (option Z))) (sz : Z)
    (location : gmap (option Z) nat) (rows : list (list (option Z)))
    (max_len : nat) : option (list (list (option Z)) * nat) :=
  match kss with
  | [] => Some (rows, max_len)
  | ks :: kss =>
      match place ks 0 location (replicate (Z.to_nat sz) None) max_len with
      | Some (location, row, max_len) =>
          place_rows kss sz location (rows ++ [row]) max_len
      | None => None
      end
  end.

(** [slots_kept hp hp']: every object of [hp] is in [hp'] with at least the
    levels its [next] had. *)
Definition slots_kept (hp hp' : gmap addr SkipNode) : Prop :=
  ∀ a n, hp !! a = Some n →
    ∃ n', hp' !! a = Some n'
          ∧ ∀ i, is_Some (next n !! i) → is_Some (next n' !! i).

(** ** Vocabulary of the proofs *)

(** [touched_only levels hp hp']: the two stores hold the same objects with
    the same pairs, and their [next] dictionaries agree outside [levels]. *)
Definition touched_only (levels : Z → Prop) (hp hp' : gmap addr SkipNode)
    : Prop :=
  ∀ a, match hp !! a, hp' !! a with
       | Some n, Some n' =>
           pair n' = pair n ∧ ∀ j, ¬ levels j → next n' !! j = next n !! j
       | None, None => True
       | _, _ => False
       end.

(** Parts of a chain by key, [kf] giving the key of a node. *)
Definition below (kf : addr → Z) (k : Z) (l : list addr) : list addr :=
  filter (λ a, kf a < k) l.
Definition from (kf : addr → Z) (k : Z) (l : list addr) : list addr :=
  filter (λ a, k ≤ kf a) l.
Definition equal (kf : addr → Z) (k : Z) (l : list addr) : list addr :=
  filter (λ a, kf a = k) l.
Definition above (kf : addr → Z) (k : Z) (l : list addr) : list addr :=
  filter (λ a, k < kf a) l.
Definition without (kf : addr → Z) (k : Z) (l : list addr) : list addr :=
  filter (λ a, kf a ≠ k) l.

(** Where [insert] puts the node [n] with key [k]: before the first node
    whose key is not smaller. *)
Definition splice (kf : addr → Z) (k : Z) (n : addr) (l : list addr)
    : list addr :=
  below kf k l ++ n :: from kf k l.

Definition sorted_by (kf : addr → Z) (l : list addr) : Prop :=
  StronglySorted (λ a b, kf a ≤ kf b) l.

(** What the loops rely on for the levels below [m]. *)
Record chains_ok (hp : gmap addr SkipNode) (hd : addr) (kf : addr → Z)
    (ch : Z → list addr) (m : Z) : Prop := {
  co_path : ∀ j, 0 ≤ j < m → path hp j hd (ch j);
  co_incl : ∀ j j' a, 0 ≤ j ≤ j' → j' < m → a ∈ ch j' → a ∈ ch j;
  co_keyed : ∀ j a, 0 ≤ j < m → a ∈ ch j → akey hp a = Some (kf a);
  co_sorted : ∀ j, 0 ≤ j < m → sorted_by kf (ch j)
}.

(** * Basic facts *)

(** The scenario of the specification, run on the list of the tests. *)
Example ex_find_7 : getitem 7 example_list 10 = Ok (PyStr "7!").
Proof. by vm_compute. Qed.

Example ex_find_missing : getitem 100 example_list 10 = KeyError 100.
Proof. by vm_compute. Qed.

Example ex_delete_15 :
  (st ← delete 15 example_list 10; Ok (len st, getitem 15 st 10))
  = Ok (6, KeyError 15).
Proof. by vm_compute. Qed.

Example ex_insert_14 :
  (st ← delete 15 example_list 10;
   st ← insert 6 14 (PyInt 14) st 10;
   Ok (len st, getitem 14 st 10))
  = Ok (7, Ok (PyInt 14)).
Proof. by vm_compute. Qed.

Example ex_delete_missing :
  delete 100 example_list 10 = Ok example_list.
Proof. by vm_compute. Qed.

Example ex_get_level : get_level [true; true; false; true] = Some 2.
Proof. reflexivity. Qed.

(** ** Reading after writing *)

Lemma link_deref hp i a o :
  link hp i a = Some o → ∃ n, hp !! a = Some n ∧ next_get n i = o.
Proof.
  unfold link. destruct (hp !! a) as [n|]; [|done].
  intros [= <-]. by exists n.
Qed.

Lemma set_next_lookup hp a i v b :
  set_next hp a i v !! b =
    if decide (a = b) then (λ n, mkNode (pair n) (<[i := v]> (next n))) <$> hp !! b
    else hp !! b.
Proof.
  unfold set_next. destruct (decide (a = b)) as [->|Hne].
  - by rewrite lookup_alter_eq.
  - by rewrite lookup_alter_ne.
Qed.

Lemma link_set_next_eq hp a i v :
  is_Some (hp !! a) → link (set_next hp a i v) i a = Some v.
Proof.
  intros [n Hn]. unfold link. rewrite set_next_lookup, decide_True by done.
  rewrite Hn. simpl. unfold next_get. simpl. by rewrite lookup_insert_eq.
Qed.

Lemma link_set_next_ne hp a i v b j :
  a ≠ b ∨ i ≠ j → link (set_next hp a i v) j b = link hp j b.
Proof.
  intros Hne. unfold link. rewrite set_next_lookup.
  destruct (decide (a = b)) as [->|]; [|done].
  destruct Hne as [|Hne]; [done|].
  destruct (hp !! b) as [n|]; [|done]. simpl. unfold next_get. simpl.
  by rewrite lookup_insert_ne.
Qed.

Lemma akey_set_next hp a i v b : akey (set_next hp a i v) b = akey hp b.
Proof.
  unfold akey. rewrite set_next_lookup. case_decide; [|done].
  by destruct (hp !! b).
Qed.

(** ** Stores that differ on some levels only *)

Lemma touched_only_refl levels hp : touched_only levels hp hp.
Proof. intros a. by destruct (hp !! a). Qed.

Lemma touched_only_trans (L1 L2 L3 : Z → Prop) hp1 hp2 hp3 :
  (∀ j, L1 j → L3 j) → (∀ j, L2 j → L3 j) →
  touched_only L1 hp1 hp2 → touched_only L2 hp2 hp3 →
  touched_only L3 hp1 hp3.
Proof.
  intros H1 H2 H12 H23 a. specialize (H12 a). specialize (H23 a).
  destruct (hp1 !! a), (hp2 !! a), (hp3 !! a); try done.
  destruct H12 as [Hp Hn], H23 as [Hp' Hn']. split; [congruence|].
  intros j Hj. rewrite Hn', Hn; naive_solver.
Qed.

Lemma touched_only_set_next (L : Z → Prop) hp a i v :
  L i → touched_only L hp (set_next hp a i v).
Proof.
  intros Hi b. rewrite set_next_lookup. case_decide; destruct (hp !! b); try done.
  simpl. split; [done|]. intros j Hj. rewrite lookup_insert_ne; [done|].
  by intros ->.
Qed.

Lemma touched_only_link (L : Z → Prop) hp hp' j a :
  touched_only L hp hp' → ¬ L j → link hp' j a = link hp j a.
Proof.
  intros H Hj. specialize (H a). unfold link, next_get.
  destruct (hp !! a), (hp' !! a); try done. simpl.
  destruct H as [_ H]. by rewrite H.
Qed.

Lemma touched_only_akey (L : Z → Prop) hp hp' a :
  touched_only L hp hp' → akey hp' a = akey hp a.
Proof.
  intros H. specialize (H a). unfold akey.
  destruct (hp !! a), (hp' !! a); try done. simpl. destruct H as [H _].
  by rewrite H.
Qed.

Lemma touched_only_aval (L : Z → Prop) hp hp' a :
  touched_only L hp hp' → aval hp' a = aval hp a.
Proof.
  intros H. specialize (H a). unfold aval.
  destruct (hp !! a), (hp' !! a); try done. simpl. destruct H as [H _].
  by rewrite H.
Qed.

Lemma touched_only_key_at (L : Z → Prop) hp hp' a :
  touched_only L hp hp' → key_at hp' a = key_at hp a.
Proof. intros H. unfold key_at. by rewrite (touched_only_akey L hp hp'). Qed.

(** ** Chains *)

Lemma seg_app hp i a l1 l2 b :
  seg hp i a (l1 ++ l2) b ↔ ∃ c, seg hp i a l1 c ∧ seg hp i c l2 b.
Proof.
  revert a. induction l1 as [|x l1 IH]; intros a; simpl.
  - split; [by exists a|]. by intros (c & -> & ?).
  - rewrite IH. naive_solver.
Qed.

Lemma path_app hp i a l1 l2 :
  path hp i a (l1 ++ l2) ↔ ∃ c, seg hp i a l1 c ∧ path hp i c l2.
Proof.
  revert a. induction l1 as [|x l1 IH]; intros a; simpl.
  - split; [by exists a|]. by intros (c & -> & ?).
  - rewrite IH. naive_solver.
Qed.

Lemma seg_end_in hp i a l b : seg hp i a l b → b ∈ a :: l.
Proof.
  revert a. induction l as [|x l IH]; intros a; simpl.
  - intros ->. set_solver.
  - intros [_ H%IH]. set_solver.
Qed.

(** A node met on the way splits the walk in two. *)
Lemma seg_split hp i a l m x :
  seg hp i a l m → x ∈ a :: l →
  ∃ P S, l = P ++ S ∧ seg hp i a P x ∧ seg hp i x S m.
Proof.
  revert a. induction l as [|c l IH]; intros a; simpl.
  - intros -> Hx. exists [], []. set_solver.
  - intros [Ha Hs] Hx. destruct (decide (x = a)) as [->|Hne].
    + exists [], (c :: l). by simpl.
    + assert (x ∈ c :: l) as Hx' by set_solver.
      destruct (IH c Hs Hx') as (P & S & -> & HP & HS).
      exists (c :: P), S. by simpl.
Qed.

Lemma path_det hp i a l l' : path hp i a l → path hp i a l' → l = l'.
Proof.
  revert a l'. induction l as [|x l IH]; intros a [|x' l']; simpl; try congruence.
  - intros ? [? _]. congruence.
  - intros [? _] ?. congruence.
  - intros [Ha Hl] [Ha' Hl']. assert (x = x') as <- by congruence.
    f_equal. eauto.
Qed.

Lemma path_suffix hp i a l1 b l2 :
  path hp i a (l1 ++ b :: l2) → path hp i b l2.
Proof.
  revert a. induction l1 as [|x l1 IH]; intros a; simpl.
  - by intros [_ ?].
  - intros [_ ?]. eauto.
Qed.

(** A chain that ends never comes back to where it started. *)
Lemma path_not_in hp i a l : path hp i a l → a ∉ l.
Proof.
  intros Hp (l1 & l2 & ->)%list_elem_of_split.
  pose proof (path_suffix _ _ _ _ _ _ Hp) as Hp'.
  pose proof (path_det _ _ _ _ _ Hp Hp') as Heq.
  apply (f_equal length) in Heq. rewrite length_app in Heq. simpl in Heq. lia.
Qed.

Lemma path_NoDup hp i a l : path hp i a l → NoDup (a :: l).
Proof.
  revert a. induction l as [|x l IH]; intros a Hp.
  - apply NoDup_singleton.
  - apply NoDup_cons. split; [by eapply path_not_in|].
    destruct Hp as [_ Hp]. eauto.
Qed.

Lemma seg_path_NoDup hp i a l1 c l2 :
  seg hp i a l1 c → path hp i c l2 → NoDup (a :: l1 ++ l2).
Proof.
  intros Hs Hp. apply (path_NoDup hp i). apply path_app. eauto.
Qed.

(** Walks survive changes to links they do not read. *)
Lemma seg_frame hp hp' i a l b :
  (∀ c, c ∈ a :: l → c ≠ b → link hp' i c = link hp i c) →
  NoDup (a :: l) → seg hp i a l b → seg hp' i a l b.
Proof.
  revert a. induction l as [|x l IH]; intros a Hl Hnd; simpl; [done|].
  intros [Ha Hs]. pose proof (seg_end_in _ _ _ _ _ Hs) as Hb.
  apply NoDup_cons in Hnd as [Hna Hnd]. split.
  - rewrite Hl; [done|set_solver|]. intros ->. done.
  - apply IH; [|done|done]. intros c Hc Hcb. apply Hl; [set_solver|done].
Qed.

Lemma path_head_ext hp hp' i a a' l :
  link hp' i a' = link hp i a →
  (∀ c, c ∈ l → link hp' i c = link hp i c) →
  path hp i a l → path hp' i a' l.
Proof.
  revert a a'. induction l as [|x l IH]; intros a a' Ha Hl; simpl.
  - congruence.
  - intros [Hx Hp]. split; [congruence|].
    apply (IH x); [apply Hl; set_solver| |done].
    intros c Hc. apply Hl. set_solver.
Qed.

Lemma path_frame hp hp' i a l :
  (∀ c, c ∈ a :: l → link hp' i c = link hp i c) →
  path hp i a l → path hp' i a l.
Proof.
  intros Hl. apply path_head_ext; [apply Hl; set_solver|].
  intros c Hc. apply Hl. set_solver.
Qed.

Lemma path_touched (L : Z → Prop) hp hp' i a l :
  touched_only L hp hp' → ¬ L i → path hp i a l → path hp' i a l.
Proof.
  intros Ht Hi. apply path_frame. intros c _.
  by apply (touched_only_link L).
Qed.

(** ** Sorted lists of nodes, cut by key *)

Lemma filter_all (P : addr → Prop) `{!∀ a, Decision (P a)} (l : list addr) :
  (∀ a, a ∈ l → P a) → filter P l = l.
Proof.
  induction l as [|a l IH]; intros Hall; [done|].
  rewrite filter_cons_True by (apply Hall; set_solver).
  f_equal. apply IH. intros b Hb. apply Hall. set_solver.
Qed.

Lemma filter_none (P : addr → Prop) `{!∀ a, Decision (P a)} (l : list addr) :
  (∀ a, a ∈ l → ¬ P a) → filter P l = [].
Proof.
  induction l as [|a l IH]; intros Hall; [done|].
  rewrite filter_cons_False by (apply Hall; set_solver).
  apply IH. intros b Hb. apply Hall. set_solver.
Qed.

Lemma sublist_filter_mono (P : addr → Prop) `{!∀ a, Decision (P a)}
    (l1 l2 : list addr) :
  l1 `sublist_of` l2 → filter P l1 `sublist_of` filter P l2.
Proof.
  induction 1 as [|x l1 l2 _ IH|x l1 l2 _ IH]; [done| |].
  - rewrite !filter_cons. destruct (decide (P x)); [by constructor|done].
  - rewrite filter_cons. destruct (decide (P x)); [by constructor|done].
Qed.

Section by_key.
Context (kf : addr → Z) (k : Z).

Lemma sorted_by_sublist l1 l2 :
  l1 `sublist_of` l2 → sorted_by kf l2 → sorted_by kf l1.
Proof.
  unfold sorted_by. induction 1 as [|x l1 l2 Hs IH|x l1 l2 Hs IH]; [done| |].
  - rewrite !StronglySorted_cons, !Forall_forall. intros [Hx Hl]. split; [|auto].
    intros y Hy. apply Hx. by eapply elem_of_sublist.
  - rewrite StronglySorted_cons. intros [_ Hl]. auto.
Qed.

Lemma sorted_by_below_from l :
  sorted_by kf l → l = below kf k l ++ from kf k l.
Proof.
  unfold sorted_by, below, from. induction l as [|a l IH]; [done|].
  rewrite StronglySorted_cons, Forall_forall. intros [Ha Hl].
  destruct (decide (kf a < k)) as [Hlt|Hge].
  - rewrite filter_cons_True by done.
    rewrite (filter_cons_False (λ a, k ≤ kf a)) by lia.
    simpl. f_equal. by apply IH.
  - rewrite filter_cons_False by done.
    rewrite (filter_cons_True (λ a, k ≤ kf a)) by lia.
    rewrite (filter_none (λ a, kf a < k) l), (filter_all (λ a, k ≤ kf a) l);
      [done| |]; intros b Hb; specialize (Ha b Hb); lia.
Qed.

Lemma sorted_by_equal_above l :
  sorted_by kf l → from kf k l = equal kf k l ++ above kf k l.
Proof.
  unfold sorted_by, from, equal, above. induction l as [|a l IH]; [done|].
  rewrite StronglySorted_cons, Forall_forall. intros [Ha Hl].
  destruct (decide (kf a < k)) as [Hlt|Hge].
  - rewrite !filter_cons_False by lia. by apply IH.
  - destruct (decide (kf a = k)) as [Heq|Hne].
    + rewrite filter_cons_True by lia.
      rewrite (filter_cons_True (λ a, kf a = k)) by done.
      rewrite (filter_cons_False (λ a, k < kf a)) by lia.
      simpl. f_equal. by apply IH.
    + rewrite filter_cons_True by lia.
      rewrite (filter_cons_False (λ a, kf a = k)) by done.
      rewrite (filter_cons_True (λ a, k < kf a)) by lia.
      rewrite (filter_none (λ a, kf a = k) l), (filter_all (λ a, k ≤ kf a) l),
        (filter_all (λ a, k < kf a) l);
        [done| | |]; intros b Hb; specialize (Ha b Hb); lia.
Qed.

Lemma without_below_above l :
  sorted_by kf l → without kf k l = below kf k l ++ above kf k l.
Proof.
  intros Hs. unfold without.
  rewrite (sorted_by_below_from l Hs) at 1.
  rewrite (sorted_by_equal_above l Hs), !filter_app.
  rewrite (filter_all _ (below kf k l)), (filter_none _ (equal kf k l)),
    (filter_all _ (above kf k l)); [done| | |];
    intros a; unfold below, equal, above; rewrite list_elem_of_filter; lia.
Qed.
End by_key.

(** ** One turn of each [while] loop *)

Lemma akey_deref hp a ka :
  akey hp a = Some ka → ∃ n, hp !! a = Some n ∧ key (pair n) = Some ka.
Proof. unfold akey. destruct (hp !! a) as [n|]; [|done]. simpl. eauto. Qed.

Lemma akey_aval hp a ka : akey hp a = Some ka → is_Some (aval hp a).
Proof. intros (n & Hn & _)%akey_deref. unfold aval. rewrite Hn. by eexists. Qed.

Ltac while_turn Hx Hb :=
  let nx := fresh "nx" in
  let nb := fresh "nb" in
  let Hnx := fresh "Hnx" in
  let Hnb := fresh "Hnb" in
  let Hk := fresh "Hk" in
  apply link_deref in Hx as (nx & Hnx & Hx);
  try (apply akey_deref in Hb as (nb & Hnb & Hk));
  simpl; unfold deref, node_key; rewrite Hnx; simpl; rewrite Hx;
  try (rewrite Hnb; simpl; rewrite Hk; simpl).

Lemma insert_while_end fuel hp k i x :
  link hp i x = Some None → insert_while (S fuel) hp k i x = Ok x.
Proof. intros Hx. by while_turn Hx Hx. Qed.

Lemma insert_while_lt fuel hp k i x b kb :
  link hp i x = Some (Some b) → akey hp b = Some kb → kb < k →
  insert_while (S fuel) hp k i x = insert_while fuel hp k i b.
Proof.
  intros Hx Hb Hlt. while_turn Hx Hb.
  by destruct (Z.ltb_spec kb k); [|lia].
Qed.

Lemma insert_while_ge fuel hp k i x b kb :
  link hp i x = Some (Some b) → akey hp b = Some kb → k ≤ kb →
  insert_while (S fuel) hp k i x = Ok x.
Proof.
  intros Hx Hb Hge. while_turn Hx Hb.
  by destruct (Z.ltb_spec kb k); [lia|].
Qed.

Lemma getitem_while_end fuel hp k i x :
  link hp i x = Some None → getitem_while (S fuel) hp k i x = Ok (inr x).
Proof. intros Hx. by while_turn Hx Hx. Qed.

Lemma getitem_while_lt fuel hp k i x b kb :
  link hp i x = Some (Some b) → akey hp b = Some kb → kb < k →
  getitem_while (S fuel) hp k i x = getitem_while fuel hp k i b.
Proof.
  intros Hx Hb Hlt. while_turn Hx Hb.
  destruct (Z.ltb_spec k kb); [lia|].
  by destruct (Z.eqb_spec kb k); [lia|].
Qed.

Lemma getitem_while_eq fuel hp k i x b v :
  link hp i x = Some (Some b) → akey hp b = Some k → aval hp b = Some v →
  getitem_while (S fuel) hp k i x = Ok (inl v).
Proof.
  intros Hx Hb Hv. unfold aval in Hv. while_turn Hx Hb.
  rewrite Hnb in Hv. simpl in Hv. injection Hv as <-.
  destruct (Z.ltb_spec k k); [lia|].
  by destruct (Z.eqb_spec k k); [|lia].
Qed.

Lemma getitem_while_gt fuel hp k i x b kb :
  link hp i x = Some (Some b) → akey hp b = Some kb → k < kb →
  getitem_while (S fuel) hp k i x = Ok (inr x).
Proof.
  intros Hx Hb Hlt. while_turn Hx Hb.
  by destruct (Z.ltb_spec k kb); [|lia].
Qed.

Lemma delete_while_end fuel hp k i x d :
  link hp i x = Some None → delete_while (S fuel) hp k i x d = Ok (hp, x, d).
Proof. intros Hx. by while_turn Hx Hx. Qed.

Lemma delete_while_lt fuel hp k i x d b kb :
  link hp i x = Some (Some b) → akey hp b = Some kb → kb < k →
  delete_while (S fuel) hp k i x d = delete_while fuel hp k i b d.
Proof.
  intros Hx Hb Hlt. while_turn Hx Hb.
  destruct (Z.ltb_spec k kb); [lia|].
  by destruct (Z.eqb_spec kb k); [lia|].
Qed.

Lemma delete_while_eq fuel hp k i x d b o :
  link hp i x = Some (Some b) → akey hp b = Some k → link hp i b = Some o →
  delete_while (S fuel) hp k i x d
  = delete_while fuel (set_next hp x i o) k i x true.
Proof.
  intros Hx Hb Ho. unfold link in Ho. while_turn Hx Hb.
  rewrite Hnb in Ho. simpl in Ho. injection Ho as <-.
  destruct (Z.ltb_spec k k); [lia|].
  by destruct (Z.eqb_spec k k); [|lia].
Qed.

Lemma delete_while_gt fuel hp k i x d b kb :
  link hp i x = Some (Some b) → akey hp b = Some kb → k < kb →
  delete_while (S fuel) hp k i x d = Ok (hp, x, d).
Proof.
  intros Hx Hb Hlt. while_turn Hx Hb.
  by destruct (Z.ltb_spec k kb); [|lia].
Qed.

(** ** The [while] loops along a sorted level *)

(** All three loops first walk over the nodes with a smaller key. *)
Lemma insert_while_advance fuel hp k i kf m W : ∀ x,
  seg hp i x W m →
  (∀ a, a ∈ W → akey hp a = Some (kf a) ∧ kf a < k) →
  insert_while (length W + fuel) hp k i x = insert_while fuel hp k i m.
Proof.
  induction W as [|c W IH]; intros x Hs HW; simpl in Hs; [by subst|].
  destruct Hs as [Hx Hs]. destruct (HW c) as [Hc Hlt]; [set_solver|].
  change (length (c :: W) + fuel)%nat with (S (length W + fuel)).
  rewrite (insert_while_lt _ _ _ _ _ _ _ Hx Hc Hlt).
  apply IH; [done|]. intros a Ha. apply HW. set_solver.
Qed.

Lemma getitem_while_advance fuel hp k i kf m W : ∀ x,
  seg hp i x W m →
  (∀ a, a ∈ W → akey hp a = Some (kf a) ∧ kf a < k) →
  getitem_while (length W + fuel) hp k i x = getitem_while fuel hp k i m.
Proof.
  induction W as [|c W IH]; intros x Hs HW; simpl in Hs; [by subst|].
  destruct Hs as [Hx Hs]. destruct (HW c) as [Hc Hlt]; [set_solver|].
  change (length (c :: W) + fuel)%nat with (S (length W + fuel)).
  rewrite (getitem_while_lt _ _ _ _ _ _ _ Hx Hc Hlt).
  apply IH; [done|]. intros a Ha. apply HW. set_solver.
Qed.

Lemma delete_while_advance fuel hp k i kf m d W : ∀ x,
  seg hp i x W m →
  (∀ a, a ∈ W → akey hp a = Some (kf a) ∧ kf a < k) →
  delete_while (length W + fuel) hp k i x d = delete_while fuel hp k i m d.
Proof.
  induction W as [|c W IH]; intros x Hs HW; simpl in Hs; [by subst|].
  destruct Hs as [Hx Hs]. destruct (HW c) as [Hc Hlt]; [set_solver|].
  change (length (c :: W) + fuel)%nat with (S (length W + fuel)).
  rewrite (delete_while_lt _ _ _ _ _ _ _ _ Hx Hc Hlt).
  apply IH; [done|]. intros a Ha. apply HW. set_solver.
Qed.

(** [delete] then unlinks the run of nodes with the key, one per turn. *)
Lemma delete_while_remove fuel k i m G E : ∀ hp d,
  path hp i m (E ++ G) →
  (∀ a, a ∈ E → akey hp a = Some k) →
  (∀ g G', G = g :: G' → ∃ kg, akey hp g = Some kg ∧ k < kg) →
  ∃ hp', delete_while (S (length E + fuel)) hp k i m d
         = Ok (hp', m, d || bool_decide (E ≠ []))
    ∧ path hp' i m G
    ∧ touched_only (λ j, j = i) hp hp'
    ∧ (∀ c, c ≠ m → hp' !! c = hp !! c)
    ∧ (E = [] → hp' = hp).
Proof.
  induction E as [|b E IH]; intros hp d Hp HE HG.
  - exists hp. simpl in Hp. rewrite orb_false_r.
    split_and!; [|done|apply touched_only_refl|done|done].
    destruct G as [|g G'].
    + by apply delete_while_end.
    + destruct Hp as [Hm _]. destruct (HG g G' eq_refl) as (kg & Hg & Hlt).
      by eapply delete_while_gt.
  - destruct Hp as [Hm Hp].
    assert (∃ o, link hp i b = Some o) as [o Ho].
    { destruct (E ++ G); simpl in Hp; [eauto|destruct Hp; eauto]. }
    assert (m ∉ b :: E ++ G) as Hnin.
    { apply (path_not_in hp i). by split. }
    assert (is_Some (hp !! m)) as Hmem.
    { apply link_deref in Hm as (n & Hn & _). eauto. }
    destruct (IH (set_next hp m i o) true) as (hp' & Hrun & Hp' & Ht & Hne & _).
    { apply (path_head_ext hp _ i b m); [|  |done].
      - rewrite link_set_next_eq; done.
      - intros c Hc. apply link_set_next_ne. left. set_solver. }
    { intros a Ha. rewrite akey_set_next. apply HE. set_solver. }
    { intros g G' HGeq. rewrite akey_set_next. eauto. }
    exists hp'. split_and!.
    + change (S (length (b :: E) + fuel)) with (S (S (length E + fuel))).
      rewrite (delete_while_eq _ _ _ _ _ _ _ _ Hm (HE b ltac:(set_solver)) Ho).
      rewrite Hrun. rewrite orb_true_r. done.
    + done.
    + eapply touched_only_trans; [| |apply (touched_only_set_next (λ j, j = i))|done];
        naive_solver.
    + intros c Hc. rewrite Hne by done. rewrite set_next_lookup.
      by rewrite decide_False.
    + done.
Qed.

Lemma level_split hp i hd kf k l x :
  path hp i hd l → sorted_by kf l → x ∈ hd :: below kf k l →
  ∃ m P W, below kf k l = P ++ W
    ∧ seg hp i hd (below kf k l) m
    ∧ seg hp i x W m
    ∧ path hp i m (from kf k l).
Proof.
  intros Hp Hs Hx. rewrite (sorted_by_below_from kf k l Hs) in Hp.
  apply path_app in Hp as (m & Hseg & Hp).
  destruct (seg_split _ _ _ _ _ _ Hseg Hx) as (P & W & HPW & _ & HW).
  exists m, P, W. done.
Qed.

Lemma below_length kf k l P W :
  below kf k l = P ++ W → (length W ≤ length l)%nat.
Proof.
  intros Heq. pose proof (length_filter (λ a, kf a < k) l) as Hlen.
  unfold below in Heq. rewrite Heq, length_app in Hlen. lia.
Qed.

Lemma below_keyed hp kf k l P W :
  (∀ a, a ∈ l → akey hp a = Some (kf a)) → below kf k l = P ++ W →
  ∀ a, a ∈ W → akey hp a = Some (kf a) ∧ kf a < k.
Proof.
  intros Hk Heq a Ha. assert (a ∈ below kf k l) as Hin by (rewrite Heq; set_solver).
  apply list_elem_of_filter in Hin as [? ?]. auto.
Qed.

Lemma insert_while_level fuel hp i hd kf k l x :
  path hp i hd l → sorted_by kf l →
  (∀ a, a ∈ l → akey hp a = Some (kf a)) →
  x ∈ hd :: below kf k l → (length l < fuel)%nat →
  ∃ m, insert_while fuel hp k i x = Ok m
    ∧ seg hp i hd (below kf k l) m
    ∧ path hp i m (from kf k l).
Proof.
  intros Hp Hs Hk Hx Hfuel.
  destruct (level_split _ _ _ _ k _ _ Hp Hs Hx) as (m & P & W & HPW & Hseg & HW & Hm).
  exists m. split; [|done].
  pose proof (below_length _ _ _ _ _ HPW).
  replace fuel with (length W + S (fuel - length W - 1))%nat by lia.
  rewrite (insert_while_advance _ _ _ _ kf m W x HW (below_keyed _ _ _ _ _ _ Hk HPW)).
  destruct (from kf k l) as [|g G] eqn:HG; simpl in Hm.
  - by apply insert_while_end.
  - destruct Hm as [Hm _].
    assert (g ∈ from kf k l) as [Hge Hg]%list_elem_of_filter by (rewrite HG; set_solver).
    eapply insert_while_ge; eauto.
Qed.

Lemma getitem_while_level fuel hp i hd kf k l x :
  path hp i hd l → sorted_by kf l →
  (∀ a, a ∈ l → akey hp a = Some (kf a)) →
  x ∈ hd :: below kf k l → (length l < fuel)%nat →
  ∃ m, seg hp i hd (below kf k l) m
    ∧ match equal kf k l with
      | [] => getitem_while fuel hp k i x = Ok (inr m)
      | b :: _ => ∃ v, aval hp b = Some v
                       ∧ getitem_while fuel hp k i x = Ok (inl v)
      end.
Proof.
  intros Hp Hs Hk Hx Hfuel.
  destruct (level_split _ _ _ _ k _ _ Hp Hs Hx) as (m & P & W & HPW & Hseg & HW & Hm).
  exists m. split; [done|].
  pose proof (below_length _ _ _ _ _ HPW).
  replace fuel with (length W + S (fuel - length W - 1))%nat by lia.
  rewrite (getitem_while_advance _ _ _ _ kf m W x HW (below_keyed _ _ _ _ _ _ Hk HPW)).
  rewrite (sorted_by_equal_above kf k l Hs) in Hm.
  destruct (equal kf k l) as [|b E] eqn:HE; simpl in Hm.
  - destruct (above kf k l) as [|g G] eqn:HG; simpl in Hm.
    + by apply getitem_while_end.
    + destruct Hm as [Hm _].
      assert (g ∈ above kf k l) as [Hgt Hg]%list_elem_of_filter by (rewrite HG; set_solver).
      eapply getitem_while_gt; eauto.
  - destruct Hm as [Hm _].
    assert (b ∈ equal kf k l) as [Heq Hb]%list_elem_of_filter by (rewrite HE; set_solver).
    pose proof (Hk b Hb) as Hkb. rewrite Heq in Hkb.
    destruct (akey_aval _ _ _ Hkb) as [v Hv]. exists v. split; [done|].
    eapply getitem_while_eq; eauto.
Qed.

Lemma delete_while_level fuel hp i hd kf k l x d :
  path hp i hd l → sorted_by kf l →
  (∀ a, a ∈ l → akey hp a = Some (kf a)) →
  x ∈ hd :: below kf k l → (length l < fuel)%nat →
  ∃ m hp', delete_while fuel hp k i x d
           = Ok (hp', m, d || bool_decide (equal kf k l ≠ []))
    ∧ seg hp i hd (below kf k l) m
    ∧ path hp' i hd (without kf k l)
    ∧ touched_only (λ j, j = i) hp hp'
    ∧ (equal kf k l = [] → hp' = hp).
Proof.
  intros Hp Hs Hk Hx Hfuel.
  destruct (level_split _ _ _ _ k _ _ Hp Hs Hx) as (m & P & W & HPW & Hseg & HW & Hm).
  pose proof (below_length _ _ _ _ _ HPW) as HlenW.
  assert (length (below kf k l) + length (equal kf k l) ≤ length l)%nat as Hlen.
  { rewrite (sorted_by_below_from kf k l Hs) at 3.
    rewrite (sorted_by_equal_above kf k l Hs), !length_app. lia. }
  assert (length W ≤ length (below kf k l))%nat
    by (rewrite HPW, length_app; lia).
  pose proof (seg_path_NoDup _ _ _ _ _ _ Hseg Hm) as Hnd.
  rewrite (sorted_by_equal_above kf k l Hs) in Hm.
  destruct (delete_while_remove
              (fuel - length W - length (equal kf k l) - 1) k i m
              (above kf k l) (equal kf k l) hp d Hm) as (hp' & Hrun & Hp' & Ht & Hne & Hid).
  { intros a [<- Ha]%list_elem_of_filter. auto. }
  { intros g G' HG.
    assert (g ∈ above kf k l) as [Hgt Hg]%list_elem_of_filter by (rewrite HG; set_solver).
    eauto. }
  exists m, hp'. split_and!; [|done| |done|done].
  - replace fuel with
      (length W + S (length (equal kf k l)
                     + (fuel - length W - length (equal kf k l) - 1)))%nat by lia.
    rewrite (delete_while_advance _ _ _ _ kf m d W x HW (below_keyed _ _ _ _ _ _ Hk HPW)).
    done.
  - rewrite (without_below_above kf k l Hs). apply path_app. exists m.
    split; [|done].
    change (hd :: below kf k l ++ from kf k l)
      with ((hd :: below kf k l) ++ from kf k l) in Hnd.
    apply NoDup_app in Hnd as (Hnd & _ & _).
    apply (seg_frame hp); [|done|done].
    intros c _ Hc. unfold link. by rewrite Hne.
Qed.

(** ** The levels below the current one *)

Lemma touched_only_is_Some (L : Z → Prop) hp hp' a :
  touched_only L hp hp' → is_Some (hp !! a) → is_Some (hp' !! a).
Proof.
  intros H [n Hn]. specialize (H a). rewrite Hn in H.
  destruct (hp' !! a); [by eexists|done].
Qed.

Lemma chains_ok_touched (L : Z → Prop) hp hp' hd kf ch m m' :
  chains_ok hp hd kf ch m → touched_only L hp hp' →
  m' ≤ m → (∀ j, 0 ≤ j < m' → ¬ L j) →
  chains_ok hp' hd kf ch m'.
Proof.
  intros [Hp Hi Hk Hs] Ht Hm HL. split.
  - intros j Hj. apply (path_touched L hp); [done|auto|]. apply Hp. lia.
  - intros j j' a Hj Hj'. apply Hi; lia.
  - intros j a Hj Ha. rewrite (touched_only_akey L hp hp') by done.
    apply (Hk j); [lia|done].
  - intros j Hj. apply Hs. lia.
Qed.

Lemma below_incl hp hd kf ch m k j j' x :
  chains_ok hp hd kf ch m → 0 ≤ j ≤ j' → j' < m →
  x ∈ hd :: below kf k (ch j') → x ∈ hd :: below kf k (ch j).
Proof.
  intros Hok Hj Hj'. rewrite !elem_of_cons. unfold below.
  rewrite !list_elem_of_filter. intros [->|[Hlt Hx]]; [by left|right].
  split; [done|]. by apply (co_incl _ _ _ _ _ Hok j j').
Qed.

Lemma equal_incl hp hd kf ch m k j j' :
  chains_ok hp hd kf ch m → 0 ≤ j ≤ j' → j' < m →
  equal kf k (ch j) = [] → equal kf k (ch j') = [].
Proof.
  intros Hok Hj Hj' Hnil. unfold equal in *.
  apply (filter_none (λ a, kf a = k)). intros a Ha Hka.
  assert (a ∈ filter (λ a, kf a = k) (ch j)) as Hin;
    [|rewrite Hnil in Hin; set_solver].
  apply list_elem_of_filter. split; [done|].
  by apply (co_incl _ _ _ _ _ Hok j j').
Qed.

(** ** The [for] loop of [__getitem__] *)

Lemma getitem_for_spec fuel hp hd kf k ch : ∀ (n : nat) x,
  chains_ok hp hd kf ch (Z.of_nat n) →
  (∀ j, 0 ≤ j < Z.of_nat n → x ∈ hd :: below kf k (ch j)) →
  (∀ j, 0 ≤ j < Z.of_nat n → (length (ch j) < fuel)%nat) →
  (getitem_for fuel hp k (down_from n) x = KeyError k
   ∧ ∀ j, 0 ≤ j < Z.of_nat n → equal kf k (ch j) = [])
  ∨ (∃ j b E v, 0 ≤ j < Z.of_nat n
       ∧ equal kf k (ch j) = b :: E
       ∧ aval hp b = Some v
       ∧ (∀ j', j < j' < Z.of_nat n → equal kf k (ch j') = [])
       ∧ getitem_for fuel hp k (down_from n) x = Ok v).
Proof.
  induction n as [|n IH]; intros x Hok Hx Hfuel.
  { left. split; [done|]. intros j Hj. lia. }
  simpl down_from. cbn [getitem_for].
  destruct (getitem_while_level fuel hp (Z.of_nat n) hd kf k (ch (Z.of_nat n)) x)
    as (m & Hseg & Hres).
  { apply (co_path _ _ _ _ _ Hok). lia. }
  { apply (co_sorted _ _ _ _ _ Hok). lia. }
  { intros a Ha. apply (co_keyed _ _ _ _ _ Hok (Z.of_nat n)); [lia|done]. }
  { apply Hx. lia. }
  { apply Hfuel. lia. }
  destruct (equal kf k (ch (Z.of_nat n))) as [|b E] eqn:HE.
  - rewrite Hres. simpl.
    assert (chains_ok hp hd kf ch (Z.of_nat n)) as Hok'.
    { apply (chains_ok_touched (λ _, False) hp hp _ _ _ (Z.of_nat (S n)));
        [done|apply touched_only_refl|lia|tauto]. }
    destruct (IH m Hok') as [[Hrun Hnil]|(j & b & E & v & Hj & Hb & Hv & Hnil & Hrun)].
    + intros j Hj. apply (below_incl hp hd kf ch (Z.of_nat (S n)) k j (Z.of_nat n));
        [done|lia|lia|]. by eapply seg_end_in.
    + intros j Hj. apply Hfuel. lia.
    + left. split; [done|]. intros j Hj.
      destruct (decide (j = Z.of_nat n)) as [->|]; [done|]. apply Hnil. lia.
    + right. exists j, b, E, v. split; [lia|]. split_and!; [done|done| |done].
      intros j' Hj'. destruct (decide (j' = Z.of_nat n)) as [->|]; [done|].
      apply Hnil. lia.
  - destruct Hres as (v & Hv & Hres). rewrite Hres. simpl.
    right. exists (Z.of_nat n), b, E, v. split; [lia|].
    split_and!; [done|done| |done].
    intros j' Hj'. lia.
Qed.

(** ** The [for] loop of [insert] *)

(** Splicing [nn] in behind [m] at level [i]. *)
Lemma splice_level hp i hd kf k l m nn o :
  seg hp i hd (below kf k l) m → path hp i m (from kf k l) →
  link hp i m = Some o → is_Some (hp !! nn) → nn ∉ hd :: l → sorted_by kf l →
  path (set_next (set_next hp nn i o) m i (Some nn)) i hd (splice kf k nn l).
Proof.
  intros Hseg Hp Hm Hnn Hnin Hs.
  pose proof (seg_path_NoDup _ _ _ _ _ _ Hseg Hp) as Hnd.
  pose proof (path_not_in _ _ _ _ Hp) as Hmnin.
  pose proof (seg_end_in _ _ _ _ _ Hseg) as Hmin.
  rewrite (sorted_by_below_from kf k l Hs) in Hnin.
  assert (nn ≠ m) as Hne by (intros ->; set_solver).
  assert (is_Some (hp !! m)) as Hmem.
  { apply link_deref in Hm as (? & ? & _). eauto. }
  unfold splice. apply path_app. exists m. split.
  - change (hd :: below kf k l ++ from kf k l)
      with ((hd :: below kf k l) ++ from kf k l) in Hnd.
    apply NoDup_app in Hnd as (Hnd & _ & _).
    apply (seg_frame hp); [|done|done].
    intros c Hc Hcm. rewrite !link_set_next_ne; [done| |]; left; [set_solver|done].
  - split.
    + apply link_set_next_eq. rewrite set_next_lookup, decide_False by done. done.
    + apply (path_head_ext hp _ i m nn); [| |done].
      * rewrite link_set_next_ne by (left; done).
        rewrite link_set_next_eq by done. done.
      * intros c Hc. rewrite !link_set_next_ne; [done| |]; left; set_solver.
Qed.

Lemma insert_for_spec fuel hd kf k nn ch : ∀ (n : nat) hp x,
  chains_ok hp hd kf ch (Z.of_nat n) →
  (∀ j, 0 ≤ j < Z.of_nat n → x ∈ hd :: below kf k (ch j)) →
  (∀ j, 0 ≤ j < Z.of_nat n → (length (ch j) < fuel)%nat) →
  is_Some (hp !! nn) →
  (∀ j, 0 ≤ j < Z.of_nat n → nn ∉ hd :: ch j) →
  ∃ hp', insert_for fuel hp k nn (down_from n) x = Ok hp'
    ∧ (∀ j, 0 ≤ j < Z.of_nat n → path hp' j hd (splice kf k nn (ch j)))
    ∧ touched_only (λ j, 0 ≤ j < Z.of_nat n) hp hp'
    ∧ (∀ j, 0 ≤ j < Z.of_nat n →
         ∃ node, hp' !! nn = Some node ∧ is_Some (next node !! j)).
Proof.
  induction n as [|n IH]; intros hp x Hok Hx Hfuel Hnn Hnin.
  { exists hp. split_and!; [done|intros; lia|apply touched_only_refl|intros; lia]. }
  simpl down_from. cbn [insert_for]. set (i := Z.of_nat n).
  assert (0 ≤ i < Z.of_nat (S n)) as Hi by lia.
  destruct (insert_while_level fuel hp i hd kf k (ch i) x) as (m & Hrun & Hseg & Hp).
  { by apply (co_path _ _ _ _ _ Hok). }
  { by apply (co_sorted _ _ _ _ _ Hok). }
  { intros a Ha. by apply (co_keyed _ _ _ _ _ Hok i). }
  { by apply Hx. }
  { by apply Hfuel. }
  rewrite Hrun. simpl.
  assert (∃ o, link hp i m = Some o) as [o Ho].
  { destruct (from kf k (ch i)); simpl in Hp; [eauto|destruct Hp; eauto]. }
  destruct (link_deref _ _ _ _ Ho) as (nm & Hnm & Hnmo).
  unfold deref. rewrite Hnm. simpl. rewrite Hnmo.
  set (hp2 := set_next (set_next hp nn i o) m i (Some nn)).
  assert (touched_only (λ j, j = i) hp hp2) as Ht.
  { eapply (touched_only_trans (λ j, j = i) (λ j, j = i));
      [done|done|by apply touched_only_set_next|by apply touched_only_set_next]. }
  destruct (IH hp2 m) as (hp' & Hrun' & Hpaths & Ht' & Hnext).
  { apply (chains_ok_touched (λ j, j = i) hp hp2 _ _ _ (Z.of_nat (S n)));
      [done|done|lia|]. intros j Hj. lia. }
  { intros j Hj. apply (below_incl hp hd kf ch (Z.of_nat (S n)) k j i);
      [done|lia|lia|]. by eapply seg_end_in. }
  { intros j Hj. apply Hfuel. lia. }
  { by apply (touched_only_is_Some (λ j, j = i) hp). }
  { intros j Hj. apply Hnin. lia. }
  exists hp'. split_and!; [done| | |].
  - intros j Hj. destruct (decide (j = i)) as [->|Hne].
    + apply (path_touched (λ j, 0 ≤ j < Z.of_nat n) hp2); [done|lia|].
      apply splice_level; [done|done|done|done|by apply Hnin|].
      by apply (co_sorted _ _ _ _ _ Hok).
    + apply Hpaths. lia.
  - eapply (touched_only_trans (λ j, j = i) (λ j, 0 ≤ j < Z.of_nat n));
      [| |exact Ht|exact Ht']; intros j; simpl; lia.
  - intros j Hj. destruct (decide (j = i)) as [->|Hne]; [|apply Hnext; lia].
    destruct Hnn as [n0 Hn0].
    assert (nn ≠ m) as Hnm'.
    { intros ->. apply (Hnin i Hi).
      pose proof (seg_end_in _ _ _ _ _ Hseg) as Hin.
      apply elem_of_cons in Hin as [->|[_ Hin]%list_elem_of_filter]; set_solver. }
    assert (hp2 !! nn = Some (mkNode (pair n0) (<[i := o]> (next n0)))) as H2.
    { unfold hp2. rewrite set_next_lookup, decide_False by done.
      rewrite set_next_lookup, decide_True by done. by rewrite Hn0. }
    pose proof (Ht' nn) as Hnn'. rewrite H2 in Hnn'.
    destruct (hp' !! nn) as [node|]; [|done]. exists node. split; [done|].
    destruct Hnn' as [_ Hnext']. rewrite Hnext' by lia. simpl.
    rewrite lookup_insert_eq. by eexists.
Qed.

(** ** The [for] loop of [delete] *)

Lemma delete_for_spec fuel hd kf k ch : ∀ (n : nat) hp x d,
  chains_ok hp hd kf ch (Z.of_nat n) →
  (∀ j, 0 ≤ j < Z.of_nat n → x ∈ hd :: below kf k (ch j)) →
  (∀ j, 0 ≤ j < Z.of_nat n → (length (ch j) < fuel)%nat) →
  ∃ hp' d', delete_for fuel hp k (down_from n) x d = Ok (hp', d')
    ∧ (d' = true ↔ d = true ∨ (0 < Z.of_nat n ∧ equal kf k (ch 0) ≠ []))
    ∧ (∀ j, 0 ≤ j < Z.of_nat n → path hp' j hd (without kf k (ch j)))
    ∧ touched_only (λ j, 0 ≤ j < Z.of_nat n) hp hp'
    ∧ ((∀ j, 0 ≤ j < Z.of_nat n → equal kf k (ch j) = []) → hp' = hp).
Proof.
  induction n as [|n IH]; intros hp x d Hok Hx Hfuel.
  { exists hp, d. split_and!; [done| |intros; lia|apply touched_only_refl|done].
    split; [by left|]. intros [?|[? _]]; [done|lia]. }
  simpl down_from. cbn [delete_for]. set (i := Z.of_nat n).
  assert (0 ≤ i < Z.of_nat (S n)) as Hi by lia.
  destruct (delete_while_level fuel hp i hd kf k (ch i) x d)
    as (m & hp1 & Hrun & Hseg & Hp1 & Ht & Hid).
  { by apply (co_path _ _ _ _ _ Hok). }
  { by apply (co_sorted _ _ _ _ _ Hok). }
  { intros a Ha. by apply (co_keyed _ _ _ _ _ Hok i). }
  { by apply Hx. }
  { by apply Hfuel. }
  rewrite Hrun. simpl.
  destruct (IH hp1 m (d || bool_decide (equal kf k (ch i) ≠ [])))
    as (hp' & d' & Hrun' & Hd' & Hpaths & Ht' & Hid').
  { apply (chains_ok_touched (λ j, j = i) hp hp1 _ _ _ (Z.of_nat (S n)));
      [done|done|lia|]. intros j Hj. lia. }
  { intros j Hj. apply (below_incl hp hd kf ch (Z.of_nat (S n)) k j i);
      [done|lia|lia|]. by eapply seg_end_in. }
  { intros j Hj. apply Hfuel. lia. }
  exists hp', d'. split_and!; [done| | | |].
  - rewrite Hd', orb_true_iff, bool_decide_eq_true. split.
    + intros [[?|Hne]|[? ?]]; [by left| |right; split; [lia|done]].
      right. split; [lia|]. intros Hnil. apply Hne.
      apply (equal_incl hp hd kf ch (Z.of_nat (S n)) k 0 i); [done|lia|lia|done].
    + intros [?|[_ Hne]]; [by left; left|].
      destruct (decide (n = 0%nat)) as [->|]; [by left; right|].
      right. split; [lia|done].
  - intros j Hj. destruct (decide (j = i)) as [->|Hne].
    + by apply (path_touched (λ j, 0 ≤ j < Z.of_nat n) hp1); [|lia|].
    + apply Hpaths. lia.
  - eapply (touched_only_trans (λ j, j = i) (λ j, 0 ≤ j < Z.of_nat n));
      [| |exact Ht|exact Ht']; intros j; simpl; lia.
  - intros Hnil. rewrite Hid', Hid; [done|by apply Hnil|].
    intros j Hj. apply Hnil. lia.
Qed.

(** ** More fuel never changes an outcome *)

Lemma getitem_while_mono hp k i : ∀ fuel fuel' x r,
  (fuel ≤ fuel')%nat → getitem_while fuel hp k i x = r → r ≠ OutOfFuel →
  getitem_while fuel' hp k i x = r.
Proof.
  induction fuel as [|fuel IH]; intros fuel' x r Hle Hr Hne;
    [simpl in Hr; congruence|].
  destruct fuel' as [|fuel']; [lia|]. simpl in *.
  destruct (deref hp x) as [nx| | | |]; simpl in *; try done.
  destruct (next_get nx i) as [b|]; try done.
  destruct (deref hp b) as [nb| | | |]; simpl in *; try done.
  destruct (node_key nb) as [kb| | | |]; simpl in *; try done.
  destruct (k <? kb); try done. destruct (kb =? k); try done.
  apply (IH fuel'); [lia|done|done].
Qed.

Lemma insert_while_mono hp k i : ∀ fuel fuel' x r,
  (fuel ≤ fuel')%nat → insert_while fuel hp k i x = r → r ≠ OutOfFuel →
  insert_while fuel' hp k i x = r.
Proof.
  induction fuel as [|fuel IH]; intros fuel' x r Hle Hr Hne;
    [simpl in Hr; congruence|].
  destruct fuel' as [|fuel']; [lia|]. simpl in *.
  destruct (deref hp x) as [nx| | | |]; simpl in *; try done.
  destruct (next_get nx i) as [b|]; try done.
  destruct (deref hp b) as [nb| | | |]; simpl in *; try done.
  destruct (node_key nb) as [kb| | | |]; simpl in *; try done.
  destruct (kb <? k); try done.
  apply (IH fuel'); [lia|done|done].
Qed.

Lemma delete_while_mono k i : ∀ fuel fuel' hp x d r,
  (fuel ≤ fuel')%nat → delete_while fuel hp k i x d = r → r ≠ OutOfFuel →
  delete_while fuel' hp k i x d = r.
Proof.
  induction fuel as [|fuel IH]; intros fuel' hp x d r Hle Hr Hne;
    [simpl in Hr; congruence|].
  destruct fuel' as [|fuel']; [lia|]. simpl in *.
  destruct (deref hp x) as [nx| | | |]; simpl in *; try done.
  destruct (next_get nx i) as [b|]; try done.
  destruct (deref hp b) as [nb| | | |]; simpl in *; try done.
  destruct (node_key nb) as [kb| | | |]; simpl in *; try done.
  destruct (k <? kb); try done.
  destruct (kb =? k); apply (IH fuel'); done || lia.
Qed.

Lemma getitem_for_mono hp k fuel fuel' : ∀ levels x r,
  (fuel ≤ fuel')%nat → getitem_for fuel hp k levels x = r → r ≠ OutOfFuel →
  getitem_for fuel' hp k levels x = r.
Proof.
  induction levels as [|i levels IH]; intros x r Hle Hr Hne; [done|].
  simpl in *. destruct (getitem_while fuel hp k i x) as [[v|y]| | | |] eqn:Hw;
    try (rewrite (getitem_while_mono _ _ _ _ fuel' _ _ Hle Hw) by done);
    simpl in *; try done.
  by apply IH.
Qed.

Lemma insert_for_mono k nn fuel fuel' : ∀ levels hp x r,
  (fuel ≤ fuel')%nat → insert_for fuel hp k nn levels x = r → r ≠ OutOfFuel →
  insert_for fuel' hp k nn levels x = r.
Proof.
  induction levels as [|i levels IH]; intros hp x r Hle Hr Hne; [done|].
  simpl in *. destruct (insert_while fuel hp k i x) as [y| | | |] eqn:Hw;
    try (rewrite (insert_while_mono _ _ _ _ fuel' _ _ Hle Hw) by done);
    simpl in *; try done.
  destruct (deref hp y) as [ny| | | |]; simpl in *; try done.
  by apply IH.
Qed.

Lemma delete_for_mono k fuel fuel' : ∀ levels hp x d r,
  (fuel ≤ fuel')%nat → delete_for fuel hp k levels x d = r → r ≠ OutOfFuel →
  delete_for fuel' hp k levels x d = r.
Proof.
  induction levels as [|i levels IH]; intros hp x d r Hle Hr Hne; [done|].
  simpl in *. destruct (delete_while fuel hp k i x d) as [[[hp1 y] d1]| | | |] eqn:Hw;
    try (rewrite (delete_while_mono _ _ _ fuel' _ _ _ _ Hle Hw) by done);
    simpl in *; try done.
  by apply IH.
Qed.

Lemma getitem_mono k st fuel fuel' r :
  (fuel ≤ fuel')%nat → getitem k st fuel = r → r ≠ OutOfFuel →
  getitem k st fuel' = r.
Proof. apply getitem_for_mono. Qed.

Lemma insert_mono h k v st fuel fuel' r :
  (fuel ≤ fuel')%nat → insert h k v st fuel = r → r ≠ OutOfFuel →
  insert h k v st fuel' = r.
Proof.
  unfold insert. intros Hle Hr Hne.
  destruct (insert_for fuel _ k _ _ _) as [hp| | | |] eqn:Hf;
    try (rewrite (insert_for_mono _ _ _ fuel' _ _ _ _ Hle Hf) by done);
    simpl in *; done.
Qed.

Lemma delete_mono k st fuel fuel' r :
  (fuel ≤ fuel')%nat → delete k st fuel = r → r ≠ OutOfFuel →
  delete k st fuel' = r.
Proof.
  unfold delete. intros Hle Hr Hne.
  destruct (delete_for fuel _ k _ _ _) as [[hp d]| | | |] eqn:Hf;
    try (rewrite (delete_for_mono _ _ fuel' _ _ _ _ _ Hle Hf) by done);
    simpl in *; done.
Qed.

Lemma run_mono fuel fuel' : ∀ ops st r,
  (fuel ≤ fuel')%nat → run ops st fuel = r → r ≠ OutOfFuel →
  run ops st fuel' = r.
Proof.
  induction ops as [|o ops IH]; intros st r Hle Hr Hne; [done|].
  simpl in *. destruct (apply_op o st fuel) as [st1| | | |] eqn:Ho.
  all: try (assert (apply_op o st fuel' = apply_op o st fuel) as ->;
    [rewrite Ho; destruct o; simpl in *;
       [eapply insert_mono|eapply delete_mono]; done|rewrite Ho]).
  all: simpl in *; try done.
  by apply IH.
Qed.

(** ** Outcomes with enough fuel *)

Lemma evals_intro {A} (f : nat → result A) fuel r :
  (∀ a b r, (a ≤ b)%nat → f a = r → r ≠ OutOfFuel → f b = r) →
  f fuel = r → r ≠ OutOfFuel → f ⇓ r.
Proof. intros Hmono Hr Hne. exists fuel. intros fuel' Hle. eauto. Qed.

Lemma evals_det {A} (f : nat → result A) r r' : f ⇓ r → f ⇓ r' → r = r'.
Proof.
  intros [n Hn] [n' Hn'].
  rewrite <- (Hn (n `max` n')%nat), <- (Hn' (n `max` n')%nat); [done|lia|lia].
Qed.

Lemma getitem_evals k st fuel r :
  getitem k st fuel = r → r ≠ OutOfFuel → getitem k st ⇓ r.
Proof. apply evals_intro. intros a b r'. apply getitem_mono. Qed.

Lemma insert_evals h k v st fuel r :
  insert h k v st fuel = r → r ≠ OutOfFuel → insert h k v st ⇓ r.
Proof. apply evals_intro. intros a b r'. apply insert_mono. Qed.

Lemma delete_evals k st fuel r :
  delete k st fuel = r → r ≠ OutOfFuel → delete k st ⇓ r.
Proof. apply evals_intro. intros a b r'. apply delete_mono. Qed.

Lemma run_evals ops st fuel r :
  run ops st fuel = r → r ≠ OutOfFuel → run ops st ⇓ r.
Proof. apply evals_intro. intros a b r'. apply run_mono. Qed.

(** ** Well-formed lists *)

Lemma filter_ext_in (P Q : addr → Prop) `{!∀ a, Decision (P a)}
    `{!∀ a, Decision (Q a)} (l : list addr) :
  (∀ a, a ∈ l → P a ↔ Q a) → filter P l = filter Q l.
Proof.
  induction l as [|a l IH]; intros Hall; [done|].
  rewrite !filter_cons.
  assert (P a ↔ Q a) as Ha by (apply Hall; set_solver).
  rewrite IH by (intros b Hb; apply Hall; set_solver).
  destruct (decide (P a)), (decide (Q a)); tauto.
Qed.

Lemma wf_sub_le st ch j j' :
  wf_ch st ch → 0 ≤ j ≤ j' → ch j' `sublist_of` ch j.
Proof.
  intros Hwf Hj.
  assert (∃ n : nat, j' = j + Z.of_nat n) as [n ->]
    by (exists (Z.to_nat (j' - j)); lia).
  induction n as [|n IH].
  - replace (j + Z.of_nat 0) with j by lia. done.
  - replace (j + Z.of_nat (S n)) with (j + Z.of_nat n + 1) by lia.
    etrans; [apply (wf_sub _ _ Hwf); lia|apply IH; lia].
Qed.

Lemma wf_in_level0 st ch j a : wf_ch st ch → 0 ≤ j → a ∈ ch j → a ∈ ch 0.
Proof.
  intros Hwf Hj Ha. eapply elem_of_sublist; [done|].
  apply (wf_sub_le st); [done|lia].
Qed.

Lemma wf_length st ch j :
  wf_ch st ch → 0 ≤ j → (length (ch j) ≤ length (ch 0%Z))%nat.
Proof. intros Hwf Hj. apply sublist_length, (wf_sub_le st); [done|lia]. Qed.

Lemma wf_keyed st ch j a :
  wf_ch st ch → 0 ≤ j → a ∈ ch j →
  akey (mem st) a = Some (key_at (mem st) a).
Proof.
  intros Hwf Hj Ha. unfold key_at.
  destruct (wf_keys _ _ Hwf a) as [ka ->]; [by eapply wf_in_level0|done].
Qed.

Lemma wf_chains_ok st ch m :
  wf_ch st ch → chains_ok (mem st) (head (self st)) (key_at (mem st)) ch m.
Proof.
  intros Hwf. split.
  - intros j Hj. apply (wf_path _ _ Hwf). lia.
  - intros j j' a Hj Hj' Ha. eapply elem_of_sublist; [done|].
    by apply (wf_sub_le st).
  - intros j a Hj Ha. apply (wf_keyed st ch j); [done|lia|done].
  - intros j Hj. apply (sorted_by_sublist _ _ (ch 0)).
    + apply (wf_sub_le st); [done|lia].
    + apply (wf_sorted _ _ Hwf).
Qed.

Lemma wf_level_nodes st ch i l :
  wf_ch st ch → 0 ≤ i → level_nodes st i l ↔ l = ch i.
Proof.
  intros Hwf Hi. split.
  - intros Hl. eapply path_det; [done|]. by apply (wf_path _ _ Hwf).
  - intros ->. by apply (wf_path _ _ Hwf).
Qed.

Lemma wf_level_keys st ch i ks :
  wf_ch st ch → 0 ≤ i →
  level_keys st i ks ↔ ks = key_at (mem st) <$> ch i.
Proof.
  intros Hwf Hi.
  assert (mapM (akey (mem st)) (ch i) = Some (key_at (mem st) <$> ch i)) as Hm.
  { apply mapM_Some. apply Forall2_fmap_r, Forall_Forall2_diag, Forall_forall.
    intros a Ha. by apply (wf_keyed st ch i). }
  split.
  - intros (l & Hl & Hks). apply (wf_level_nodes st ch) in Hl as ->; [|done|done].
    congruence.
  - intros ->. exists (ch i). split; [|done]. by apply (wf_level_nodes st ch).
Qed.

Lemma wf_has_key st ch k :
  wf_ch st ch → has_key st k ↔ equal (key_at (mem st)) k (ch 0) ≠ [].
Proof.
  intros Hwf. split.
  - intros (l & a & Hl & Ha & Hk) Hnil.
    apply (wf_level_nodes st ch) in Hl as ->; [|done|done].
    assert (a ∈ equal (key_at (mem st)) k (ch 0)) as Hin.
    { apply list_elem_of_filter. split; [|done]. unfold key_at. by rewrite Hk. }
    rewrite Hnil in Hin. set_solver.
  - intros Hne. destruct (equal (key_at (mem st)) k (ch 0)) as [|a E] eqn:HE; [done|].
    assert (a ∈ equal (key_at (mem st)) k (ch 0)) as [Hk Ha]%list_elem_of_filter
      by (rewrite HE; set_solver).
    exists (ch 0), a. split_and!; [by apply (wf_path _ _ Hwf)|done|].
    rewrite (wf_keyed st ch 0); [by rewrite Hk|done|done|done].
Qed.

Lemma path_in_heap hp i a l c : path hp i a l → c ∈ a :: l → is_Some (hp !! c).
Proof.
  revert a. induction l as [|x l IH]; intros a Hp Hc.
  - apply list_elem_of_singleton in Hc as ->. simpl in Hp.
    apply link_deref in Hp as (n & Hn & _). eauto.
  - destruct Hp as [Ha Hp]. apply elem_of_cons in Hc as [->|Hc]; [|eauto].
    apply link_deref in Ha as (n & Hn & _). eauto.
Qed.

Lemma alloc_fresh hp : hp !! alloc hp = None.
Proof. apply not_elem_of_dom. unfold alloc. apply is_fresh. Qed.

Lemma link_alloc hp nn node i a :
  a ≠ nn → link (<[nn := node]> hp) i a = link hp i a.
Proof. intros Hne. unfold link. by rewrite lookup_insert_ne. Qed.

Lemma akey_alloc hp nn node a :
  a ≠ nn → akey (<[nn := node]> hp) a = akey hp a.
Proof. intros Hne. unfold akey. by rewrite lookup_insert_ne. Qed.

Lemma aval_alloc hp nn node a :
  a ≠ nn → aval (<[nn := node]> hp) a = aval hp a.
Proof. intros Hne. unfold aval. by rewrite lookup_insert_ne. Qed.

Lemma path_alloc hp nn node i a l :
  hp !! nn = None → path hp i a l → path (<[nn := node]> hp) i a l.
Proof.
  intros Hnn Hp. apply (path_frame hp); [|done].
  intros c Hc. apply link_alloc. intros ->.
  destruct (path_in_heap _ _ _ _ _ Hp Hc) as [? ?]. congruence.
Qed.

Lemma path_fresh hp nn i a l : hp !! nn = None → path hp i a l → nn ∉ a :: l.
Proof.
  intros Hnn Hp Hin. destruct (path_in_heap _ _ _ _ _ Hp Hin) as [? ?].
  congruence.
Qed.

Lemma chains_ok_alloc hp nn node hd kf ch m :
  hp !! nn = None → chains_ok hp hd kf ch m →
  chains_ok (<[nn := node]> hp) hd kf ch m.
Proof.
  intros Hnn [Hp Hi Hk Hs]. split; [|done| |done].
  - intros j Hj. by apply path_alloc, Hp.
  - intros j a Hj Ha. rewrite akey_alloc; [by apply (Hk j)|].
    intros ->. apply (path_fresh hp nn j hd (ch j)); [done|by apply Hp|].
    set_solver.
Qed.

Lemma sorted_by_ext kf kf' l :
  (∀ a, a ∈ l → kf' a = kf a) → sorted_by kf l → sorted_by kf' l.
Proof.
  unfold sorted_by. induction l as [|a l IH]; intros Hext; [intros; constructor|].
  rewrite !StronglySorted_cons, !Forall_forall. intros [Ha Hl]. split.
  - intros b Hb. rewrite !Hext by set_solver. auto.
  - apply IH; [|done]. intros b Hb. apply Hext. set_solver.
Qed.

Lemma splice_ext kf kf' k nn l :
  (∀ a, a ∈ l → kf' a = kf a) → splice kf' k nn l = splice kf k nn l.
Proof.
  intros Hext. unfold splice, below, from. f_equal; [|f_equal];
    apply filter_ext_in; intros a Ha; by rewrite Hext.
Qed.

Lemma sorted_by_splice kf k nn l :
  sorted_by kf l → kf nn = k → sorted_by kf (splice kf k nn l).
Proof.
  intros Hs Hk. unfold splice, sorted_by. apply StronglySorted_app_2.
  - intros a b [Ha _]%list_elem_of_filter Hb.
    apply elem_of_cons in Hb as [->|[Hb _]%list_elem_of_filter]; lia.
  - apply (sorted_by_sublist kf _ l); [apply sublist_filter|done].
  - apply StronglySorted_cons. split.
    + apply Forall_forall. intros b [Hb _]%list_elem_of_filter. lia.
    + apply (sorted_by_sublist kf _ l); [apply sublist_filter|done].
Qed.

Lemma splice_sublist kf k nn l1 l2 :
  l1 `sublist_of` l2 → splice kf k nn l1 `sublist_of` splice kf k nn l2.
Proof.
  intros Hs. unfold splice. apply sublist_app; [by apply sublist_filter_mono|].
  apply sublist_skip. by apply sublist_filter_mono.
Qed.

Lemma sublist_splice kf k nn l1 l2 :
  sorted_by kf l2 → l1 `sublist_of` l2 → l1 `sublist_of` splice kf k nn l2.
Proof.
  intros Hs Hsub. etrans; [done|]. rewrite (sorted_by_below_from kf k l2 Hs) at 1.
  unfold splice. apply sublist_app; [done|]. by apply sublist_cons.
Qed.

Lemma elem_of_splice kf k nn l a : a ∈ splice kf k nn l → a = nn ∨ a ∈ l.
Proof.
  unfold splice, below, from.
  rewrite elem_of_app, elem_of_cons, !list_elem_of_filter. tauto.
Qed.

Lemma elem_of_splice_2 kf k nn l a :
  sorted_by kf l → a = nn ∨ a ∈ l → a ∈ splice kf k nn l.
Proof.
  intros Hs [->|Ha].
  - unfold splice. set_solver.
  - eapply elem_of_sublist; [done|]. by apply sublist_splice.
Qed.

(** ** What the three operations do to a well-formed list *)

Lemma getitem_spec st ch k :
  wf_ch st ch →
  (equal (key_at (mem st)) k (ch 0) = [] ∧ getitem k st ⇓ KeyError k)
  ∨ (∃ b v, b ∈ ch 0 ∧ key_at (mem st) b = k ∧ aval (mem st) b = Some v
       ∧ getitem k st ⇓ Ok v).
Proof.
  intros Hwf. set (kf := key_at (mem st)). set (fuel := S (length (ch 0))).
  destruct (getitem_for_spec fuel (mem st) (head (self st)) kf k ch
              (Z.to_nat (level (self st) + 1)) (head (self st)))
    as [[Hrun Hnil]|(j & b & E & v & Hj & Hb & Hv & _ & Hrun)].
  { by apply wf_chains_ok. }
  { intros j Hj. set_solver. }
  { intros j Hj. pose proof (wf_length st ch j Hwf). unfold fuel. lia. }
  - left. split; [|by apply (getitem_evals _ _ fuel)].
    destruct (decide (0 ≤ level (self st))).
    + apply Hnil. lia.
    + rewrite (wf_top _ _ Hwf 0) by lia. done.
  - right. exists b, v.
    assert (b ∈ equal kf k (ch j)) as [Hk Hin]%list_elem_of_filter
      by (rewrite Hb; set_solver).
    split_and!; [|done|done|by apply (getitem_evals _ _ fuel)].
    apply (wf_in_level0 st ch j); [done|lia|done].
Qed.

Lemma insert_spec st ch h k v :
  wf_ch st ch →
  ∃ st', insert h k v st ⇓ Ok st'
    ∧ wf_ch st' (λ j, if decide (0 ≤ j ≤ h)
                      then splice (key_at (mem st)) k (alloc (mem st)) (ch j)
                      else ch j)
    ∧ self st' = mkList (head (self st)) (level (self st) `max` h)
                   (size (self st) + 1)
    ∧ touched_only (λ j, 0 ≤ j ≤ h)
        (<[alloc (mem st) := mkNode (mkPair (Some k) v) ∅]> (mem st)) (mem st')
    ∧ (0 ≤ h → ∃ node, mem st' !! alloc (mem st) = Some node
         ∧ ∀ j, 0 ≤ j ≤ h → is_Some (next node !! j)).
Proof.
  intros Hwf. set (kf := key_at (mem st)). set (nn := alloc (mem st)).
  set (node0 := mkNode (mkPair (Some k) v) ∅).
  set (hp0 := <[nn := node0]> (mem st)). set (hd := head (self st)).
  set (fuel := S (length (ch 0))).
  pose proof (alloc_fresh (mem st)) as Hfresh. fold nn in Hfresh.
  assert (∀ j, 0 ≤ j → nn ∉ hd :: ch j) as Hnin.
  { intros j Hj. apply (path_fresh (mem st) nn j); [done|].
    by apply (wf_path _ _ Hwf). }
  destruct (insert_for_spec fuel hd kf k nn ch (Z.to_nat (h + 1)) hp0 hd)
    as (hp' & Hrun & Hpaths & Ht & Hnext).
  { apply chains_ok_alloc; [done|]. by apply wf_chains_ok. }
  { intros j Hj. set_solver. }
  { intros j Hj. pose proof (wf_length st ch j Hwf). unfold fuel. lia. }
  { unfold hp0. rewrite lookup_insert_eq. by eexists. }
  { intros j Hj. apply Hnin. lia. }
  assert (touched_only (λ j, 0 ≤ j ≤ h) hp0 hp') as Ht'.
  { eapply (touched_only_trans _ (λ _, False));
      [| |exact Ht|apply touched_only_refl]; intros j; simpl; lia. }
  assert (∀ a, a ≠ nn → akey hp' a = akey (mem st) a) as Hkeys.
  { intros a Ha. rewrite (touched_only_akey _ hp0 hp') by done.
    by apply akey_alloc. }
  assert (akey hp' nn = Some k) as Hknn.
  { rewrite (touched_only_akey _ hp0 hp') by done.
    unfold akey, hp0. by rewrite lookup_insert_eq. }
  assert (∀ j a, 0 ≤ j → a ∈ ch j → key_at hp' a = kf a) as Hkf.
  { intros j a Hj Ha. unfold kf, key_at. rewrite Hkeys; [done|].
    intros ->. apply (Hnin j Hj). set_solver. }
  assert (∀ a, a ∈ ch 0 → key_at hp' a = kf a) as Hkf0.
  { intros a Ha. by apply (Hkf 0). }
  assert (sorted_by kf (ch 0)) as Hs0 by apply (wf_sorted _ _ Hwf).
  assert (∀ j, 0 ≤ j → sorted_by kf (ch j)) as Hs.
  { intros j Hj. apply (sorted_by_sublist _ _ (ch 0)); [|done].
    apply (wf_sub_le st); [done|lia]. }
  eexists (mkState hp' (mkList hd _ (size (self st) + 1))).
  split_and!.
  - apply (insert_evals _ _ _ _ fuel); [|done]. unfold insert.
    fold nn node0 hp0 hd. unfold range_down. rewrite Hrun. simpl. done.
  - split; simpl.
    + intros i Hi. destruct (decide (0 ≤ i ≤ h)) as [Hih|Hih].
      * apply Hpaths. lia.
      * apply (path_touched (λ j, 0 ≤ j ≤ h) hp0); [done|done|].
        apply path_alloc; [done|]. by apply (wf_path _ _ Hwf).
    + intros i Hi. rewrite decide_False.
      * apply (wf_top _ _ Hwf). destruct (h >? level (self st)) eqn:E; lia.
      * destruct (h >? level (self st)) eqn:E; lia.
    + intros i Hi. destruct (decide (0 ≤ i + 1 ≤ h)), (decide (0 ≤ i ≤ h)); try lia.
      * apply splice_sublist, (wf_sub _ _ Hwf). done.
      * apply sublist_splice; [by apply Hs|]. by apply (wf_sub _ _ Hwf).
      * by apply (wf_sub _ _ Hwf).
    + intros a Ha. destruct (decide (a = nn)) as [->|Hne]; [by eexists|].
      rewrite Hkeys by done. apply (wf_keys _ _ Hwf).
      destruct (decide (0 ≤ 0 ≤ h)); [|done].
      apply elem_of_splice in Ha as [?|?]; done.
    + destruct (decide (0 ≤ 0 ≤ h)).
      * rewrite <- (splice_ext kf (key_at hp')) by done.
        apply sorted_by_splice.
        -- by apply (sorted_by_ext kf).
        -- unfold key_at. by rewrite Hknn.
      * by apply (sorted_by_ext kf).
  - simpl. f_equal. destruct (Z.gtb_spec h (level (self st))); lia.
  - done.
  - intros Hh. destruct (Hnext 0) as (node & Hnode & _); [lia|].
    exists node. split; [done|]. intros j Hj.
    destruct (Hnext j) as (node' & Hnode' & Hj'); [lia|]. congruence.
Qed.

Lemma delete_spec st ch k :
  wf_ch st ch →
  ∃ st', delete k st ⇓ Ok st'
    ∧ wf_ch st' (λ j, without (key_at (mem st)) k (ch j))
    ∧ self st' = mkList (head (self st)) (level (self st))
                   (if decide (equal (key_at (mem st)) k (ch 0) = [])
                    then size (self st) else size (self st) - 1)
    ∧ touched_only (λ j, 0 ≤ j ≤ level (self st)) (mem st) (mem st')
    ∧ (equal (key_at (mem st)) k (ch 0) = [] → st' = st).
Proof.
  intros Hwf. set (kf := key_at (mem st)). set (hd := head (self st)).
  set (fuel := S (length (ch 0))). set (n := Z.to_nat (level (self st) + 1)).
  destruct (delete_for_spec fuel hd kf k ch n (mem st) hd false)
    as (hp' & d' & Hrun & Hd' & Hpaths & Ht & Hid).
  { by apply wf_chains_ok. }
  { intros j Hj. set_solver. }
  { intros j Hj. pose proof (wf_length st ch j Hwf). unfold fuel. lia. }
  assert (touched_only (λ j, 0 ≤ j ≤ level (self st)) (mem st) hp') as Ht'.
  { eapply (touched_only_trans _ (λ _, False));
      [| |exact Ht|apply touched_only_refl]; intros j; simpl; lia. }
  assert (∀ a, key_at hp' a = kf a) as Hkf.
  { intros a. by apply (touched_only_key_at (λ j, 0 ≤ j ≤ level (self st))). }
  assert (sorted_by kf (ch 0)) as Hs0 by apply (wf_sorted _ _ Hwf).
  assert (d' = bool_decide (equal kf k (ch 0) ≠ [])) as ->.
  { apply eq_true_iff_eq. rewrite Hd', bool_decide_eq_true. split.
    - intros [?|[_ ?]]; done.
    - intros Hne. right. split; [|done].
      destruct (decide (0 ≤ level (self st))); [lia|]. exfalso. apply Hne.
      rewrite (wf_top _ _ Hwf 0) by lia. done. }
  eexists (mkState hp' (mkList hd (level (self st)) _)). split_and!.
  - apply (delete_evals _ _ fuel); [|done]. unfold delete, range_down.
    fold hd n. rewrite Hrun. simpl. done.
  - split; simpl.
    + intros i Hi. destruct (decide (i ≤ level (self st))) as [Hil|Hil].
      * apply Hpaths. lia.
      * apply (path_touched (λ j, 0 ≤ j ≤ level (self st)) (mem st)); [done|lia|].
        pose proof (wf_path _ _ Hwf i Hi) as Hp.
        rewrite (wf_top _ _ Hwf i) in * by lia. exact Hp.
    + intros i Hi. rewrite (wf_top _ _ Hwf i) by done. done.
    + intros i Hi. apply sublist_filter_mono, (wf_sub _ _ Hwf). done.
    + intros a [_ Ha]%list_elem_of_filter.
      rewrite (touched_only_akey (λ j, 0 ≤ j ≤ level (self st)) (mem st)) by done.
      by apply (wf_keys _ _ Hwf).
    + apply (sorted_by_ext kf); [done|].
      apply (sorted_by_sublist _ _ (ch 0)); [apply sublist_filter|done].
  - simpl. f_equal. destruct (decide (equal kf k (ch 0) = [])) as [Heq|Hne].
    + by rewrite bool_decide_eq_false_2 by (by intros ?).
    + by rewrite bool_decide_eq_true_2.
  - done.
  - intros Hnil. rewrite Hid.
    + rewrite bool_decide_eq_false_2 by (by intros ?).
      destruct st as [m [hd' lv sz]]. done.
    + intros j Hj. apply (equal_incl (mem st) hd kf ch (Z.of_nat n) k 0 j);
        [by apply wf_chains_ok|lia|lia|done].
Qed.

(** ** Observations on well-formed lists *)

Lemma wf_empty : wf empty_list.
Proof.
  exists (λ _, []). split.
  - intros i _. unfold path, link, empty_list, mem, head, self.
    by rewrite lookup_singleton_eq.
  - done.
  - done.
  - intros a Ha. set_solver.
  - constructor.
Qed.

Lemma wf_has_entry st ch k v :
  wf_ch st ch →
  has_entry st k v
  ↔ ∃ a, a ∈ ch 0 ∧ akey (mem st) a = Some k ∧ aval (mem st) a = Some v.
Proof.
  intros Hwf. split.
  - intros (l & a & Hl & Ha & Hk & Hv).
    apply (wf_level_nodes st ch) in Hl as ->; [|done|done]. eauto.
  - intros (a & Ha & Hk & Hv). exists (ch 0), a.
    split_and!; [by apply (wf_path _ _ Hwf)|done|done|done].
Qed.

Lemma wf_has_key_elem st ch k :
  wf_ch st ch → has_key st k ↔ ∃ a, a ∈ ch 0 ∧ key_at (mem st) a = k.
Proof.
  intros Hwf. split.
  - intros (l & a & Hl & Ha & Hk).
    apply (wf_level_nodes st ch) in Hl as ->; [|done|done].
    exists a. split; [done|]. unfold key_at. by rewrite Hk.
  - intros (a & Ha & Hk). exists (ch 0), a.
    split_and!; [by apply (wf_path _ _ Hwf)|done|].
    by rewrite (wf_keyed st ch 0 a), Hk.
Qed.

Lemma StronglySorted_sublist {A} (R : relation A) (l1 l2 : list A) :
  l1 `sublist_of` l2 → StronglySorted R l2 → StronglySorted R l1.
Proof.
  induction 1 as [|x l1 l2 Hs IH|x l1 l2 Hs IH]; [done| |].
  - rewrite !StronglySorted_cons, !Forall_forall. intros [Hx Hl]. split; [|auto].
    intros y Hy. apply Hx. by eapply elem_of_sublist.
  - rewrite StronglySorted_cons. intros [_ Hl]. auto.
Qed.

Lemma StronglySorted_by {A B} (f : A → B) (R : relation B) (l : list A) :
  StronglySorted R (f <$> l) ↔ StronglySorted (λ a b, R (f a) (f b)) l.
Proof.
  induction l as [|a l IH]; [split; constructor|].
  rewrite fmap_cons, !StronglySorted_cons, Forall_fmap, IH. done.
Qed.

Lemma wf_ordered st ch :
  wf_ch st ch →
  ordered st
  ↔ StronglySorted (λ a b, key_at (mem st) a < key_at (mem st) b) (ch 0).
Proof.
  intros Hwf. split.
  - intros Hord. apply (StronglySorted_by (key_at (mem st)) Z.lt).
    apply (Hord 0); [done|]. by apply (wf_level_keys st ch).
  - intros Hs i ks Hi Hks. apply (wf_level_keys st ch) in Hks as ->; [|done|done].
    apply StronglySorted_by.
    apply (StronglySorted_sublist _ _ (ch 0)); [|done].
    apply (wf_sub_le st); [done|lia].
Qed.

Lemma wf_weakly_sorted st i ks :
  wf st → 0 ≤ i → level_keys st i ks → StronglySorted Z.le ks.
Proof.
  intros [ch Hwf] Hi Hks. apply (wf_level_keys st ch) in Hks as ->; [|done|done].
  apply StronglySorted_by.
  apply (StronglySorted_sublist _ _ (ch 0)); [|apply (wf_sorted _ _ Hwf)].
  apply (wf_sub_le st); [done|lia].
Qed.

Lemma wf_subset_property st : wf st → subset_property st.
Proof.
  intros [ch Hwf]. split.
  - intros i l l' Hi Hl Hl'.
    apply (wf_level_nodes st ch) in Hl as ->; [|done|lia].
    apply (wf_level_nodes st ch) in Hl' as ->; [|done|lia].
    replace i with (i - 1 + 1) at 1 by lia. apply (wf_sub _ _ Hwf). lia.
  - intros i l l0 Hi Hl Hl0.
    apply (wf_level_nodes st ch) in Hl as ->; [|done|lia].
    apply (wf_level_nodes st ch) in Hl0 as ->; [|done|lia].
    apply (wf_sub_le st); [done|lia].
Qed.

(** ** [SkipNode.level] is the largest level of [next] *)

Lemma foldr_max_spec (l : list Z) (d : Z) :
  (foldr Z.max d l = d ∨ foldr Z.max d l ∈ l)
  ∧ d ≤ foldr Z.max d l ∧ ∀ x, x ∈ l → x ≤ foldr Z.max d l.
Proof.
  induction l as [|y l (Hin & Hd & Hall)]; simpl.
  - split_and!; [by left|lia|set_solver].
  - split_and!.
    + destruct (Z.max_spec y (foldr Z.max d l)) as [[_ ->]|[_ ->]].
      * destruct Hin as [->|?]; [by left|right; set_solver].
      * right. set_solver.
    + lia.
    + intros x [->|Hx]%elem_of_cons; [lia|]. specialize (Hall x Hx). lia.
Qed.

Lemma SkipNode_level_Some n h :
  SkipNode_level n = Some h
  ↔ is_Some (next n !! h) ∧ ∀ i, is_Some (next n !! i) → i ≤ h.
Proof.
  unfold SkipNode_level.
  assert (∀ i, is_Some (next n !! i) ↔ i ∈ elements (dom (next n))) as Hel.
  { intros i. by rewrite elem_of_elements, elem_of_dom. }
  destruct (elements (dom (next n))) as [|i l] eqn:E.
  - split; [done|]. intros [Hh _]. apply Hel in Hh. set_solver.
  - destruct (foldr_max_spec l i) as (Hin & Hd & Hall). split.
    + intros [= <-]. split.
      * apply Hel. destruct Hin as [->|?]; set_solver.
      * intros j [->|Hj]%Hel%elem_of_cons; auto.
    + intros [Hh Hmax]. f_equal. apply Z.le_antisymm.
      * apply Hmax, Hel. destruct Hin as [->|?]; set_solver.
      * apply Hel, elem_of_cons in Hh as [->|Hh]; auto.
Qed.

Lemma SkipNode_level_bound n L :
  (∀ h, SkipNode_level n = Some h → h ≤ L)
  ↔ (∀ i, is_Some (next n !! i) → i ≤ L).
Proof.
  split.
  - intros Hb i Hi. destruct (SkipNode_level n) as [h|] eqn:E.
    + apply SkipNode_level_Some in E as [_ Hmax]. specialize (Hmax i Hi).
      specialize (Hb h eq_refl). lia.
    + unfold SkipNode_level in E. apply elem_of_dom, elem_of_elements in Hi.
      destruct (elements (dom (next n))); [set_solver|done].
  - intros Hb h [Hh _]%SkipNode_level_Some. auto.
Qed.

(** ** Nodes and keys after [insert] and [delete] *)

Section inserted.
Context (L : Z → Prop) (hp hp' : gmap addr SkipNode) (k : Z) (v : pyobj).
Context (Ht : touched_only L
                (<[alloc hp := mkNode (mkPair (Some k) v) ∅]> hp) hp').

Lemma inserted_akey_old a : a ≠ alloc hp → akey hp' a = akey hp a.
Proof.
  intros Ha. rewrite (touched_only_akey _ _ _ _ Ht). by apply akey_alloc.
Qed.

Lemma inserted_aval_old a : a ≠ alloc hp → aval hp' a = aval hp a.
Proof.
  intros Ha. rewrite (touched_only_aval _ _ _ _ Ht). by apply aval_alloc.
Qed.

Lemma inserted_key_at_old a : a ≠ alloc hp → key_at hp' a = key_at hp a.
Proof. intros Ha. unfold key_at. by rewrite inserted_akey_old. Qed.

Lemma inserted_akey_new : akey hp' (alloc hp) = Some k.
Proof.
  rewrite (touched_only_akey _ _ _ _ Ht). unfold akey.
  by rewrite lookup_insert_eq.
Qed.

Lemma inserted_aval_new : aval hp' (alloc hp) = Some v.
Proof.
  rewrite (touched_only_aval _ _ _ _ Ht). unfold aval.
  by rewrite lookup_insert_eq.
Qed.

Lemma inserted_key_at_new : key_at hp' (alloc hp) = k.
Proof. unfold key_at. by rewrite inserted_akey_new. Qed.
End inserted.

Lemma wf_alloc_not_in st ch j :
  wf_ch st ch → 0 ≤ j → alloc (mem st) ∉ ch j.
Proof.
  intros Hwf Hj Hin.
  apply (path_fresh (mem st) (alloc (mem st)) j (head (self st)) (ch j)).
  - apply alloc_fresh.
  - by apply (wf_path _ _ Hwf).
  - set_solver.
Qed.

Lemma insert_step st h k v :
  wf st →
  ∃ st', insert h k v st ⇓ Ok st' ∧ wf st'
    ∧ ∀ k', has_key st' k' → k' = k ∨ has_key st k'.
Proof.
  intros [ch Hwf].
  destruct (insert_spec st ch h k v Hwf) as (st' & Hrun & Hwf' & Hself & Ht & _).
  exists st'. split_and!; [done|by eexists|].
  intros k' (a & Ha & Hk)%(wf_has_key_elem _ _ _ Hwf').
  destruct (decide (a = alloc (mem st))) as [->|Hne].
  - left. rewrite <- Hk. by eapply inserted_key_at_new.
  - right. apply (wf_has_key_elem _ _ _ Hwf). exists a. split.
    + destruct (decide (0 ≤ 0 ≤ h)); [|done].
      apply elem_of_splice in Ha as [?|?]; done.
    + rewrite <- Hk. symmetry. by eapply inserted_key_at_old.
Qed.

Lemma delete_step st k :
  wf st →
  ∃ st', delete k st ⇓ Ok st' ∧ wf st'
    ∧ ∀ k', has_key st' k' ↔ k' ≠ k ∧ has_key st k'.
Proof.
  intros [ch Hwf].
  destruct (delete_spec st ch k Hwf) as (st' & Hrun & Hwf' & Hself & Ht & _).
  exists st'. split_and!; [done|by eexists|].
  intros k'. rewrite (wf_has_key_elem _ _ _ Hwf'), (wf_has_key_elem _ _ _ Hwf).
  assert (∀ a, key_at (mem st') a = key_at (mem st) a) as Hkf.
  { intros a. by eapply touched_only_key_at. }
  unfold without. split.
  - intros (a & [Hne Ha]%list_elem_of_filter & Hk). rewrite Hkf in Hk.
    split; [congruence|eauto].
  - intros (Hne & a & Ha & Hk). exists a. rewrite Hkf. split; [|done].
    apply list_elem_of_filter. split; [congruence|done].
Qed.

(** ** Sequences of operations *)

Lemma run_cons_evals o ops st st1 r :
  apply_op o st ⇓ Ok st1 → run ops st1 ⇓ r → run (o :: ops) st ⇓ r.
Proof.
  intros [n Hn] [n' Hn']. exists (n `max` n')%nat. intros fuel Hle. simpl.
  rewrite Hn by lia. simpl. apply Hn'. lia.
Qed.

Lemma run_cons_inv o ops st st1 r :
  apply_op o st ⇓ Ok st1 → run (o :: ops) st ⇓ r → run ops st1 ⇓ r.
Proof.
  intros [n Hn] [n' Hn']. exists (n `max` n')%nat. intros fuel Hle.
  rewrite <- (Hn' fuel) by lia. simpl. rewrite Hn by lia. done.
Qed.

Lemma apply_op_step o st :
  wf st →
  ∃ st', apply_op o st ⇓ Ok st' ∧ wf st'
    ∧ ∀ k, has_key st' k → has_key st k ∨ ∃ h v, o = Insert h k v.
Proof.
  intros Hwf. destruct o as [h k v|k].
  - destruct (insert_step st h k v Hwf) as (st' & Hrun & Hwf' & Hk).
    exists st'. split_and!; [done|done|].
    intros k' [->|?]%Hk; [right; eauto|by left].
  - destruct (delete_step st k Hwf) as (st' & Hrun & Hwf' & Hk).
    exists st'. split_and!; [done|done|].
    intros k' [_ ?]%Hk. by left.
Qed.

Lemma run_wf ops : ∀ st,
  wf st →
  ∃ st', run ops st ⇓ Ok st' ∧ wf st'
    ∧ ∀ k, has_key st' k → has_key st k ∨ ∃ h v, Insert h k v ∈ ops.
Proof.
  induction ops as [|o ops IH]; intros st Hwf.
  - exists st. split_and!; [by exists 0%nat|done|by left].
  - destruct (apply_op_step o st Hwf) as (st1 & Hrun1 & Hwf1 & Hk1).
    destruct (IH st1 Hwf1) as (st' & Hrun & Hwf' & Hk).
    exists st'. split_and!; [by eapply run_cons_evals|done|].
    intros k [[?|(h & v & ->)]%Hk1|(h & v & Hin)]%Hk.
    + by left.
    + right. exists h, v. set_solver.
    + right. exists h, v. set_solver.
Qed.

Lemma reachable_wf st0 st : wf st0 → reachable st0 st → wf st.
Proof.
  intros Hwf0 [ops Hrun].
  destruct (run_wf ops st0 Hwf0) as (st' & Hrun' & Hwf & _).
  pose proof (evals_det _ _ _ Hrun Hrun') as [= ->]. done.
Qed.

Lemma empty_no_key k : ¬ has_key empty_list k.
Proof.
  intros (l & a & Hl & Ha & _).
  assert (l = []) as -> by (eapply path_det; [done|by vm_compute]).
  set_solver.
Qed.

Lemma has_entry_has_key st k v : has_entry st k v → has_key st k.
Proof. intros (l & a & Hl & Ha & Hk & _). by exists l, a. Qed.

(** Either no node of level 0 has the key and the lookup raises, or the
    lookup returns the value of a node of level 0 that has the key. *)
Lemma getitem_outcome st k :
  wf st →
  (¬ has_key st k ∧ getitem k st ⇓ KeyError k)
  ∨ (∃ v, has_entry st k v ∧ getitem k st ⇓ Ok v).
Proof.
  intros [ch Hwf].
  destruct (getitem_spec st ch k Hwf) as [[Hnil Hrun]|(b & v & Hb & Hk & Hv & Hrun)].
  - left. split; [|done]. rewrite (wf_has_key st ch k Hwf). tauto.
  - right. exists v. split; [|done]. apply (wf_has_entry st ch k v Hwf).
    exists b. split_and!; [done| |done].
    by rewrite (wf_keyed st ch 0 b), Hk.
Qed.

Lemma wf_ch_example : wf_ch example_list example_chains.
Proof.
  unfold example_chains. split.
  - intros i Hi. repeat case_decide; subst; try by vm_compute.
    unfold path, link, example_list, mem, head, self. simpl.
    rewrite lookup_insert_eq. simpl. unfold next_get. simpl.
    rewrite !lookup_insert_ne, lookup_empty by lia. done.
  - intros i Hi. simpl in Hi. repeat case_decide; subst; done || lia.
  - intros i Hi. repeat case_decide; subst; try lia;
      repeat first [apply sublist_nil_l|apply sublist_skip|apply sublist_cons].
  - intros a Ha. simpl in Ha.
    repeat (apply elem_of_cons in Ha as [->|Ha]; [by vm_compute|]).
    set_solver.
  - apply (bool_decide_unpack _). by vm_compute.
Qed.

Lemma wf_example : wf example_list.
Proof. exists example_chains. apply wf_ch_example. Qed.

Lemma ordered_example : ordered example_list.
Proof.
  apply (wf_ordered _ _ wf_ch_example).
  apply (bool_decide_unpack _). by vm_compute.
Qed.

Lemma height_bounded_example : height_bounded example_list.
Proof.
  intros l a n hgt Hl Ha Hn Hlev.
  apply (wf_level_nodes _ _ 0 l wf_ch_example) in Hl as ->; [|done].
  change (example_chains 0) with [1; 2; 3; 4; 5; 6; 7]%nat in Ha.
  repeat (apply elem_of_cons in Ha as [->|Ha];
          [vm_compute in Hn; injection Hn as <-; vm_compute in Hlev;
           try done; by injection Hlev as <-|]).
  set_solver.
Qed.

(** * The properties of the specification *)

(** C2. On a well-formed list, [lookup(key)] raises [KeyError] exactly when
    no node of level 0 has the key; when some node has it, the lookup
    returns a value stored under that key.  A key that is absent and is not
    inserted by a sequence of operations stays a [KeyError], and so is every
    lookup on the empty list. *)
Theorem getitem_KeyError_iff st k :
  wf st →
  (getitem k st ⇓ KeyError k ↔ ¬ has_key st k)
  ∧ (has_key st k → ∃ v, getitem k st ⇓ Ok v ∧ has_entry st k v)
  ∧ (∀ ops st', ¬ has_key st k → (∀ h v, Insert h k v ∉ ops) →
       run ops st ⇓ Ok st' → getitem k st' ⇓ KeyError k)
  ∧ getitem k empty_list ⇓ KeyError k.
Proof.
  intros Hwf. split_and!.
  - destruct (getitem_outcome st k Hwf) as [[Hno Hrun]|(v & Hv & Hrun)].
    + tauto.
    + split; [|by intros []; eapply has_entry_has_key].
      intros Herr. by pose proof (evals_det _ _ _ Herr Hrun).
  - intros Hk. destruct (getitem_outcome st k Hwf) as [[Hno Hrun]|(v & Hv & Hrun)];
      [done|eauto].
  - intros ops st' Hno Hops Hrun.
    destruct (run_wf ops st Hwf) as (st'' & Hrun' & Hwf' & Hkeys).
    pose proof (evals_det _ _ _ Hrun Hrun') as [= <-].
    destruct (getitem_outcome st' k Hwf') as [[_ ?]|(v & Hv & _)]; [done|].
    apply has_entry_has_key, Hkeys in Hv as [?|(h & v' & Hin)]; [done|].
    by destruct (Hops h v').
  - destruct (getitem_outcome empty_list k wf_empty) as [[_ ?]|(v & Hv & _)];
      [done|]. by apply has_entry_has_key, empty_no_key in Hv.
Qed.

Lemma getitem_KeyError_iff_witness :
  wf example_list
  ∧ (getitem 100 example_list ⇓ KeyError 100 ↔ ¬ has_key example_list 100)
  ∧ (has_key example_list 100 →
       ∃ v, getitem 100 example_list ⇓ Ok v ∧ has_entry example_list 100 v)
  ∧ (∀ ops st', ¬ has_key example_list 100 → (∀ h v, Insert h 100 v ∉ ops) →
       run ops example_list ⇓ Ok st' → getitem 100 st' ⇓ KeyError 100)
  ∧ getitem 100 empty_list ⇓ KeyError 100.
Proof.
  split; [apply wf_example|].
  apply (getitem_KeyError_iff example_list 100). apply wf_example.
Defined.

Example run_dup_ops : run dup_ops empty_list 5 = Ok dup_list.
Proof. by vm_compute. Qed.

Example run_tall_ops : run tall_ops empty_list 5 = Ok tall_list.
Proof. by vm_compute. Qed.

Lemma reachable_dup_list : reachable empty_list dup_list.
Proof. exists dup_ops. by apply (run_evals _ _ 5%nat). Qed.

(** C6. Every operation on a well-formed list leaves a well-formed list on
    which each level above 0 is a sublist of the level below it, and every
    level a sublist of level 0. *)
Theorem subset_property_preserved st :
  wf st →
  (∀ h k v, ∃ st', insert h k v st ⇓ Ok st' ∧ wf st' ∧ subset_property st')
  ∧ (∀ k, ∃ st', delete k st ⇓ Ok st' ∧ wf st' ∧ subset_property st').
Proof.
  intros Hwf. split.
  - intros h k v. destruct (insert_step st h k v Hwf) as (st' & Hrun & Hwf' & _).
    exists st'. split_and!; [done|done|by apply wf_subset_property].
  - intros k. destruct (delete_step st k Hwf) as (st' & Hrun & Hwf' & _).
    exists st'. split_and!; [done|done|by apply wf_subset_property].
Qed.

Lemma subset_property_preserved_witness :
  wf example_list
  ∧ (∀ h k v, ∃ st', insert h k v example_list ⇓ Ok st' ∧ wf st'
                     ∧ subset_property st')
  ∧ (∀ k, ∃ st', delete k example_list ⇓ Ok st' ∧ wf st'
                 ∧ subset_property st').
Proof.
  split; [apply wf_example|].
  apply (subset_property_preserved example_list). apply wf_example.
Defined.

Lemma delete_absent st k : wf st → ¬ has_key st k → delete k st ⇓ Ok st.
Proof.
  intros [ch Hwf] Hno.
  destruct (delete_spec st ch k Hwf) as (st' & Hrun & _ & _ & _ & Hid).
  rewrite <- Hid at 2; [done|].
  rewrite (wf_has_key st ch k Hwf) in Hno.
  destruct (equal (key_at (mem st)) k (ch 0)); [done|]. by destruct Hno.
Qed.

(** C8. Deleting a key that no node of level 0 has returns the very same
    list: same size, same store, hence every forward link untouched.
    Deleting twice is deleting once. *)
Theorem delete_absent_noop st k :
  wf st →
  (¬ has_key st k → delete k st ⇓ Ok st)
  ∧ (∃ st', delete k st ⇓ Ok st' ∧ delete k st' ⇓ Ok st').
Proof.
  intros Hwf. split; [by apply delete_absent|].
  destruct (delete_step st k Hwf) as (st' & Hrun & Hwf' & Hk).
  exists st'. split; [done|]. apply delete_absent; [done|].
  intros [? _]%Hk. done.
Qed.

Lemma delete_absent_noop_witness :
  wf example_list
  ∧ (¬ has_key example_list 100 → delete 100 example_list ⇓ Ok example_list)
  ∧ (∃ st', delete 100 example_list ⇓ Ok st' ∧ delete 100 st' ⇓ Ok st').
Proof.
  split; [apply wf_example|].
  apply (delete_absent_noop example_list 100). apply wf_example.
Defined.

Lemma wf_level_has_key st i l a k :
  wf st → 0 ≤ i → level_nodes st i l → a ∈ l → akey (mem st) a = Some k →
  has_key st k.
Proof.
  intros [ch Hwf] Hi Hl Ha Hk.
  apply (wf_level_nodes st ch) in Hl as ->; [|done|done].
  exists (ch 0), a. split_and!; [by apply (wf_path _ _ Hwf)| |done].
  by apply (wf_in_level0 st ch i).
Qed.

(** C10. On every list that [insert] and [delete] calls reach from a
    well-formed list (the empty list is one), [delete(k)] leaves no node with
    key [k] on any level, however many nodes carried it, and the lookup of
    [k] that follows raises [KeyError]. *)
Theorem delete_then_getitem st0 st k :
  wf st0 → reachable st0 st →
  ∃ st', delete k st ⇓ Ok st'
    ∧ getitem k st' ⇓ KeyError k
    ∧ ∀ i l a, 0 ≤ i → level_nodes st' i l → a ∈ l →
        akey (mem st') a ≠ Some k.
Proof.
  intros Hwf0 Hwf%reachable_wf; [|done].
  destruct (delete_step st k Hwf) as (st' & Hrun & Hwf' & Hk).
  assert (¬ has_key st' k) as Hno by (by intros [? _]%Hk).
  exists st'. split_and!; [done| |].
  - destruct (getitem_outcome st' k Hwf') as [[_ ?]|(v & Hv & _)]; [done|].
    by apply has_entry_has_key in Hv.
  - intros i l a Hi Hl Ha Hka. apply Hno. by eapply wf_level_has_key.
Qed.

Lemma delete_then_getitem_witness :
  wf empty_list ∧ reachable empty_list dup_list
  ∧ ∃ st', delete 5 dup_list ⇓ Ok st'
      ∧ getitem 5 st' ⇓ KeyError 5
      ∧ ∀ i l a, 0 ≤ i → level_nodes st' i l → a ∈ l →
          akey (mem st') a ≠ Some 5.
Proof.
  split; [apply wf_empty|]. split; [apply reachable_dup_list|].
  apply (delete_then_getitem empty_list dup_list 5);
    [apply wf_empty|apply reachable_dup_list].
Defined.

(** C9. With the level picker fixed to [h] (from 0 up), [insert] creates one
    new node whose [SkipNode.level] is [h]: it is linked on the levels 0 to
    [h] and on no other, and [level] becomes the larger of its old value
    and [h]. *)
Theorem insert_height st h k v :
  wf st → 0 ≤ h →
  ∃ st' node, insert h k v st ⇓ Ok st'
    ∧ mem st !! alloc (mem st) = None
    ∧ mem st' !! alloc (mem st) = Some node
    ∧ pair node = mkPair (Some k) v
    ∧ SkipNode_level node = Some h
    ∧ (∀ i l, 0 ≤ i → level_nodes st' i l → alloc (mem st) ∈ l ↔ i ≤ h)
    ∧ level (self st') = level (self st) `max` h.
Proof.
  intros [ch Hwf] Hh.
  destruct (insert_spec st ch h k v Hwf) as (st' & Hrun & Hwf' & Hself & Ht & Hnode).
  destruct (Hnode Hh) as (node & Hn & Hnext).
  pose proof (Ht (alloc (mem st))) as Hnn.
  rewrite lookup_insert_eq, Hn in Hnn. simpl in Hnn. destruct Hnn as [Hpair Hout].
  exists st', node. split_and!; [done|apply alloc_fresh|done|done| | |by rewrite Hself].
  - apply SkipNode_level_Some. split; [apply Hnext; lia|].
    intros i Hi. destruct (decide (0 ≤ i ≤ h)) as [?|Hni]; [lia|].
    rewrite (Hout i Hni), lookup_empty in Hi. by destruct Hi.
  - intros i l Hi Hl. apply (wf_level_nodes st' _ i l Hwf') in Hl as ->; [|done].
    destruct (decide (0 ≤ i ≤ h)) as [?|Hni].
    + split; [lia|]. intros _. unfold splice. set_solver.
    + split; [|lia]. intros Hin. by apply (wf_alloc_not_in st ch i) in Hin.
Qed.

Lemma insert_height_witness :
  wf example_list ∧ 0 ≤ 6
  ∧ ∃ st' node, insert 6 14 (PyStr "my value") example_list ⇓ Ok st'
      ∧ mem example_list !! alloc (mem example_list) = None
      ∧ mem st' !! alloc (mem example_list) = Some node
      ∧ pair node = mkPair (Some 14) (PyStr "my value")
      ∧ SkipNode_level node = Some 6
      ∧ (∀ i l, 0 ≤ i → level_nodes st' i l →
           alloc (mem example_list) ∈ l ↔ i ≤ 6)
      ∧ level (self st') = level (self example_list) `max` 6.
Proof.
  split; [apply wf_example|]. split; [lia|].
  apply (insert_height example_list 6 14 (PyStr "my value")); [apply wf_example|lia].
Defined.

(** C7. On a well-formed list, inserting a key that no node has (at a level
    from 0 up) and deleting it again gives back the size and the keys of
    level 0. *)
Theorem insert_delete_roundtrip st h k v :
  wf st → 0 ≤ h → ¬ has_key st k →
  ∃ st1 st2, insert h k v st ⇓ Ok st1 ∧ delete k st1 ⇓ Ok st2
    ∧ size (self st2) = size (self st)
    ∧ (∀ ks, level_keys st2 0 ks ↔ level_keys st 0 ks)
    ∧ (∀ l, level_nodes st2 0 l ↔ level_nodes st 0 l).
Proof.
  intros [ch Hwf] Hh Hno.
  destruct (insert_spec st ch h k v Hwf) as (st1 & Hrun1 & Hwf1 & Hself1 & Ht1 & _).
  destruct (delete_spec st1 _ k Hwf1) as (st2 & Hrun2 & Hwf2 & Hself2 & Ht2 & _).
  set (nn := alloc (mem st)) in *. set (kf := key_at (mem st)) in *.
  set (kf1 := key_at (mem st1)) in *.
  assert (∀ a, a ∈ ch 0 → kf1 a = kf a) as Hkf1.
  { intros a Ha. eapply inserted_key_at_old; [done|].
    intros ->. by apply (wf_alloc_not_in st ch 0) in Ha. }
  assert (kf1 nn = k) as Hknn by (by eapply inserted_key_at_new).
  assert (∀ a, a ∈ ch 0 → kf a ≠ k) as Hne.
  { intros a Ha Hk. apply Hno. apply (wf_has_key_elem st ch k Hwf). eauto. }
  assert (sorted_by kf (ch 0)) as Hs by apply (wf_sorted _ _ Hwf).
  cbv beta in Hself2, Hwf2.
  rewrite (decide_True (P := 0 ≤ 0 ≤ h)) in Hself2 by lia.
  assert (without kf1 k (splice kf k nn (ch 0)) = ch 0) as Hback.
  { unfold without, splice. rewrite filter_app, filter_cons_False by tauto.
    rewrite !filter_all; [by rewrite <- sorted_by_below_from| |].
    - intros a [_ Ha]%list_elem_of_filter. rewrite Hkf1; auto.
    - intros a [_ Ha]%list_elem_of_filter. rewrite Hkf1; auto. }
  assert (∀ ks, level_keys st2 0 ks ↔ level_keys st 0 ks) as Hkeys.
  { intros ks. rewrite (wf_level_keys st2 _ 0 ks Hwf2) by done.
    rewrite (wf_level_keys st ch 0 ks Hwf) by done. cbv beta.
    rewrite decide_True by lia. rewrite Hback.
    assert (key_at (mem st2) <$> ch 0 = kf <$> ch 0) as ->; [|done].
    apply Forall_fmap_ext_1, Forall_forall. intros a Ha.
    rewrite (touched_only_key_at _ _ _ _ Ht2). by apply Hkf1. }
  exists st1, st2. split_and!; [done|done| |done|].
  - rewrite Hself2, Hself1. simpl. rewrite decide_False; [lia|].
    intros Hnil.
    assert (nn ∈ equal kf1 k (splice kf k nn (ch 0))) as Hin;
      [|rewrite Hnil in Hin; set_solver].
    apply list_elem_of_filter. split; [done|]. unfold splice. set_solver.
  - intros l. rewrite (wf_level_nodes st2 _ 0 l Hwf2) by done.
    rewrite (wf_level_nodes st ch 0 l Hwf) by done. cbv beta.
    rewrite decide_True by lia. by rewrite Hback.
Qed.

Lemma insert_delete_roundtrip_witness :
  wf example_list ∧ 0 ≤ 2 ∧ ¬ has_key example_list 14
  ∧ ∃ st1 st2, insert 2 14 (PyInt 14) example_list ⇓ Ok st1
      ∧ delete 14 st1 ⇓ Ok st2
      ∧ size (self st2) = size (self example_list)
      ∧ (∀ ks, level_keys st2 0 ks ↔ level_keys example_list 0 ks)
      ∧ (∀ l, level_nodes st2 0 l ↔ level_nodes example_list 0 l).
Proof.
  assert (¬ has_key example_list 14) as Hno.
  { intros (l & a & Hl & Ha & Hk).
    assert (l = [1; 2; 3; 4; 5; 6; 7]%nat) as ->
      by (eapply path_det; [done|by vm_compute]).
    repeat (apply elem_of_cons in Ha as [->|Ha]; [by vm_compute in Hk|]).
    set_solver. }
  split; [apply wf_example|]. split; [lia|]. split; [done|].
  apply (insert_delete_roundtrip example_list 2 14 (PyInt 14));
    [apply wf_example|lia|done].
Defined.

(** ** Strictly increasing keys *)

Lemma sorted_key_ext (R : relation Z) (kf kf' : addr → Z) (l : list addr) :
  (∀ a, a ∈ l → kf' a = kf a) →
  StronglySorted (λ a b, R (kf a) (kf b)) l →
  StronglySorted (λ a b, R (kf' a) (kf' b)) l.
Proof.
  induction l as [|a l IH]; intros Hext; [intros; constructor|].
  rewrite !StronglySorted_cons, !Forall_forall. intros [Ha Hl]. split.
  - intros b Hb. rewrite !Hext by set_solver. auto.
  - apply IH; [|done]. intros b Hb. apply Hext. set_solver.
Qed.

Lemma strict_splice (kf : addr → Z) k nn (l : list addr) :
  StronglySorted (λ a b, kf a < kf b) l → kf nn = k →
  (∀ a, a ∈ l → kf a ≠ k) →
  StronglySorted (λ a b, kf a < kf b) (splice kf k nn l).
Proof.
  intros Hs Hk Hne. unfold splice. apply StronglySorted_app_2.
  - intros a b [Ha _]%list_elem_of_filter Hb.
    apply elem_of_cons in Hb as [->|[Hb _]%list_elem_of_filter]; lia.
  - by apply (StronglySorted_sublist _ _ l); [apply sublist_filter|].
  - apply StronglySorted_cons. split.
    + apply Forall_forall. intros b [Hb Hin]%list_elem_of_filter.
      specialize (Hne b Hin). lia.
    + by apply (StronglySorted_sublist _ _ l); [apply sublist_filter|].
Qed.

Lemma strict_equal_length (kf : addr → Z) k (l : list addr) :
  StronglySorted (λ a b, kf a < kf b) l → (length (equal kf k l) ≤ 1)%nat.
Proof.
  intros Hs.
  assert (StronglySorted (λ a b, kf a < kf b) (equal kf k l)) as Hs'
    by (by apply (StronglySorted_sublist _ _ l); [apply sublist_filter|]).
  assert (∀ a, a ∈ equal kf k l → kf a = k) as Hk
    by (by intros a [? _]%list_elem_of_filter).
  destruct (equal kf k l) as [|a [|b E]]; simpl; [lia|lia|].
  apply StronglySorted_cons in Hs' as [Hab _].
  apply Forall_cons in Hab as [Hab _].
  rewrite (Hk a), (Hk b) in Hab by set_solver. lia.
Qed.

Lemma splice_length (kf : addr → Z) k nn (l : list addr) :
  sorted_by kf l → length (splice kf k nn l) = S (length l).
Proof.
  intros Hs.
  pose proof (f_equal length (sorted_by_below_from kf k l Hs)) as H1.
  rewrite length_app in H1. unfold splice. rewrite length_app. simpl. lia.
Qed.

Lemma without_length (kf : addr → Z) k (l : list addr) :
  sorted_by kf l →
  (length (without kf k l) + length (equal kf k l))%nat = length l.
Proof.
  intros Hs.
  pose proof (f_equal length (sorted_by_below_from kf k l Hs)) as H1.
  pose proof (f_equal length (sorted_by_equal_above kf k l Hs)) as H2.
  pose proof (f_equal length (without_below_above kf k l Hs)) as H3.
  rewrite !length_app in *. lia.
Qed.

Lemma strict_NoDup (ks : list Z) : StronglySorted Z.lt ks → NoDup ks.
Proof.
  induction ks as [|x ks IH]; [constructor|].
  rewrite StronglySorted_cons, Forall_forall. intros [Hx Hs].
  apply NoDup_cons. split; [|auto]. intros Hin. specialize (Hx x Hin). lia.
Qed.

Lemma remove_dups_NoDup_id (ks : list Z) : NoDup ks → remove_dups ks = ks.
Proof.
  induction 1 as [|x ks Hx Hnd IH]; [done|]. simpl.
  destruct (decide_rel elem_of x ks); [done|]. by rewrite IH.
Qed.

Lemma has_key_has_entry st k : has_key st k → ∃ v, has_entry st k v.
Proof.
  intros (l & a & Hl & Ha & Hk). destruct (akey_aval _ _ _ Hk) as [v Hv].
  exists v, l, a. done.
Qed.

(** ** The list as a finite map *)

Lemma insert_refines st M h k v :
  wf st → ordered st → contents st M → M !! k = None → 0 ≤ h →
  ∃ st', insert h k v st ⇓ Ok st' ∧ wf st' ∧ ordered st'
    ∧ contents st' (<[k := v]> M)
    ∧ (size_accurate st → size_accurate st').
Proof.
  intros [ch Hwf] Hord Hcon HM Hh.
  destruct (insert_spec st ch h k v Hwf) as (st' & Hrun & Hwf' & Hself & Ht & _).
  set (nn := alloc (mem st)) in *. set (kf := key_at (mem st)) in *.
  set (kf' := key_at (mem st')).
  assert (¬ has_key st k) as Hno.
  { intros [v0 Hv0%Hcon]%has_key_has_entry. congruence. }
  assert (∀ a, a ∈ ch 0 → a ≠ nn) as Hnn.
  { intros a Ha ->. by apply (wf_alloc_not_in st ch 0) in Ha. }
  assert (∀ a, a ∈ ch 0 → kf' a = kf a) as Hkf'.
  { intros a Ha. eapply inserted_key_at_old; [done|auto]. }
  assert (kf' nn = k) as Hknn by (by eapply inserted_key_at_new).
  assert (akey (mem st') nn = Some k) as Hak_new
    by (by eapply inserted_akey_new).
  assert (aval (mem st') nn = Some v) as Hav_new
    by (by eapply inserted_aval_new).
  assert (∀ a, a ≠ nn → akey (mem st') a = akey (mem st) a) as Hak_old
    by (intros a Ha; by eapply inserted_akey_old).
  assert (∀ a, a ≠ nn → aval (mem st') a = aval (mem st) a) as Hav_old
    by (intros a Ha; by eapply inserted_aval_old).
  assert (∀ a, a ∈ ch 0 → kf a ≠ k) as Hne.
  { intros a Ha Hk. apply Hno. apply (wf_has_key_elem st ch k Hwf). eauto. }
  assert (sorted_by kf (ch 0)) as Hs by apply (wf_sorted _ _ Hwf).
  exists st'. split_and!; [done|by eexists| | |].
  - apply (wf_ordered st' _ Hwf'). cbv beta. rewrite decide_True by lia.
    fold kf'. rewrite <- (splice_ext kf kf') by done.
    apply strict_splice; [|done|].
    + apply (sorted_key_ext Z.lt kf); [done|]. by apply (wf_ordered st ch Hwf).
    + intros a Ha. rewrite Hkf'; auto.
  - intros k' v'. rewrite (wf_has_entry st' _ k' v' Hwf'). cbv beta.
    rewrite decide_True by lia. rewrite lookup_insert_Some. split.
    + intros (a & [->|Ha]%elem_of_splice & Hk & Hv).
      * left. split; congruence.
      * right. rewrite Hak_old in Hk by auto. rewrite Hav_old in Hv by auto.
        assert (M !! k' = Some v') as HM'.
        { apply Hcon. apply (wf_has_entry st ch k' v' Hwf). eauto. }
        split; [congruence|done].
    + intros [[<- <-]|[Hkk (a & Ha & Hk & Hv)%Hcon%(wf_has_entry st ch k' v' Hwf)]].
      * exists nn. split_and!.
        -- apply elem_of_splice_2; [done|by left].
        -- done.
        -- done.
      * exists a. split_and!.
        -- apply elem_of_splice_2; [done|by right].
        -- by rewrite Hak_old by auto.
        -- by rewrite Hav_old by auto.
  - intros Hacc l Hl. apply (wf_level_nodes st' _ 0 l Hwf') in Hl as ->; [|done].
    cbv beta. rewrite decide_True by lia. rewrite splice_length by done.
    rewrite Hself. simpl. rewrite (Hacc (ch 0)); [lia|].
    by apply (wf_path _ _ Hwf).
Qed.

Lemma delete_refines st M k :
  wf st → ordered st → contents st M →
  ∃ st', delete k st ⇓ Ok st' ∧ wf st' ∧ ordered st'
    ∧ contents st' (base.delete k M)
    ∧ (size_accurate st → size_accurate st').
Proof.
  intros [ch Hwf] Hord Hcon.
  destruct (delete_spec st ch k Hwf) as (st' & Hrun & Hwf' & Hself & Ht & _).
  set (kf := key_at (mem st)) in *.
  assert (∀ a, key_at (mem st') a = kf a) as Hkf
    by (intros a; by eapply touched_only_key_at).
  assert (∀ a, akey (mem st') a = akey (mem st) a) as Hak
    by (intros a; by eapply touched_only_akey).
  assert (∀ a, aval (mem st') a = aval (mem st) a) as Hav
    by (intros a; by eapply touched_only_aval).
  assert (sorted_by kf (ch 0)) as Hs by apply (wf_sorted _ _ Hwf).
  pose proof (proj1 (wf_ordered st ch Hwf) Hord) as Hstrict. fold kf in Hstrict.
  exists st'. split_and!; [done|by eexists| | |].
  - apply (wf_ordered st' _ Hwf'). cbv beta.
    apply (sorted_key_ext Z.lt kf); [done|].
    by apply (StronglySorted_sublist _ _ (ch 0)); [apply sublist_filter|].
  - intros k' v'. rewrite (wf_has_entry st' _ k' v' Hwf'). cbv beta.
    rewrite lookup_delete_Some, <- (Hcon k' v'), (wf_has_entry st ch k' v' Hwf).
    unfold without. split.
    + intros (a & [Hne Ha]%list_elem_of_filter & Hk & Hv).
      rewrite Hak in Hk. rewrite Hav in Hv. split; [|eauto].
      intros <-. apply Hne. unfold kf, key_at. by rewrite Hk.
    + intros (Hne & a & Ha & Hk & Hv). exists a. rewrite Hak, Hav.
      split_and!; [|done|done]. apply list_elem_of_filter. split; [|done].
      unfold kf, key_at. rewrite Hk. simpl. congruence.
  - intros Hacc l Hl. apply (wf_level_nodes st' _ 0 l Hwf') in Hl as ->; [|done].
    cbv beta. rewrite Hself. simpl.
    pose proof (without_length kf k (ch 0) Hs) as Hlen.
    pose proof (strict_equal_length kf k (ch 0) Hstrict) as Hone.
    specialize (Hacc (ch 0) (wf_path _ _ Hwf 0 ltac:(done))).
    destruct (decide (equal kf k (ch 0) = [])) as [Hnil|Hnn].
    + rewrite Hnil in Hlen. simpl in Hlen. lia.
    + destruct (equal kf k (ch 0)); [done|]. simpl in *. lia.
Qed.

Lemma apply_op_refines o st M :
  wf st → ordered st → contents st M → fresh_inserts M [o] →
  ∃ st', apply_op o st ⇓ Ok st' ∧ wf st' ∧ ordered st'
    ∧ contents st' (model_op M o)
    ∧ (size_accurate st → size_accurate st').
Proof.
  intros Hwf Hord Hcon [Hfresh _]. destruct o as [h k v|k].
  - destruct Hfresh. by apply insert_refines.
  - by apply delete_refines.
Qed.

Lemma run_refines ops : ∀ st M,
  wf st → ordered st → contents st M → fresh_inserts M ops →
  ∃ st', run ops st ⇓ Ok st' ∧ wf st' ∧ ordered st'
    ∧ contents st' (foldl model_op M ops)
    ∧ (size_accurate st → size_accurate st').
Proof.
  induction ops as [|o ops IH]; intros st M Hwf Hord Hcon Hfresh.
  - exists st. split_and!; [by exists 0%nat|done|done|done|done].
  - destruct Hfresh as [Ho Hfresh].
    destruct (apply_op_refines o st M) as (st1 & Hrun1 & Hwf1 & Hord1 & Hcon1 & Hsz1);
      [done|done|done|by split|].
    destruct (IH st1 (model_op M o)) as (st' & Hrun & Hwf' & Hord' & Hcon' & Hsz');
      [done|done|done|done|].
    exists st'. split_and!; [by eapply run_cons_evals|done|done|done|auto].
Qed.

Lemma model_untouched k post : ∀ M,
  Forall (λ o, op_key o ≠ k) post → foldl model_op M post !! k = M !! k.
Proof.
  induction post as [|o post IH]; intros M Hpost; [done|].
  apply Forall_cons in Hpost as [Ho Hpost]. simpl. rewrite IH by done.
  destruct o as [h k' v|k']; simpl in *.
  - by rewrite lookup_insert_ne.
  - by rewrite lookup_delete_ne.
Qed.

Lemma contents_empty : contents empty_list ∅.
Proof.
  intros k v. rewrite lookup_empty. split; [|done].
  intros Hv%has_entry_has_key. by apply empty_no_key in Hv.
Qed.

Lemma ordered_empty : ordered empty_list.
Proof.
  intros i ks Hi (l & Hl & Hks).
  assert (l = []) as ->.
  { eapply path_det; [done|]. unfold path, link, empty_list, mem, head, self.
    by rewrite lookup_singleton_eq. }
  injection Hks as <-. constructor.
Qed.

Lemma size_accurate_empty : size_accurate empty_list.
Proof.
  intros l Hl. assert (l = []) as -> by (eapply path_det; [done|by vm_compute]).
  done.
Qed.

(** C1, as the code has it.  Start from a well-formed list with strictly
    increasing keys that stands for the map [M], and run operations in which
    no [insert] is called with a key the list holds at that moment.  If key
    [k] was inserted with value [v] and no later operation of the sequence
    deletes or inserts [k], then [lookup(k)] returns [v]. *)
Theorem getitem_last_insert st M pre h k v post :
  wf st → ordered st → contents st M →
  fresh_inserts M (pre ++ Insert h k v :: post) →
  Forall (λ o, op_key o ≠ k) post →
  ∃ st', run (pre ++ Insert h k v :: post) st ⇓ Ok st'
    ∧ getitem k st' ⇓ Ok v.
Proof.
  intros Hwf Hord Hcon Hfresh Hpost.
  destruct (run_refines _ st M Hwf Hord Hcon Hfresh)
    as (st' & Hrun & Hwf' & _ & Hcon' & _).
  exists st'. split; [done|].
  assert (has_entry st' k v) as Hv.
  { apply Hcon'. rewrite foldl_app. simpl. rewrite model_untouched by done.
    by rewrite lookup_insert_eq. }
  destruct (getitem_outcome st' k Hwf') as [[Hno _]|(v0 & Hv0 & Hget)].
  - by apply has_entry_has_key in Hv.
  - apply Hcon' in Hv, Hv0. by assert (v0 = v) as -> by congruence.
Qed.

Lemma getitem_last_insert_witness :
  wf empty_list ∧ ordered empty_list ∧ contents empty_list ∅
  ∧ fresh_inserts ∅ ([Insert 1 5 (PyStr "a"); Delete 5]
                     ++ Insert 0 5 (PyStr "b") :: [Insert 2 7 (PyStr "c")])
  ∧ Forall (λ o, op_key o ≠ 5) [Insert 2 7 (PyStr "c")]
  ∧ ∃ st', run ([Insert 1 5 (PyStr "a"); Delete 5]
                ++ Insert 0 5 (PyStr "b") :: [Insert 2 7 (PyStr "c")])
             empty_list ⇓ Ok st'
      ∧ getitem 5 st' ⇓ Ok (PyStr "b").
Proof.
  assert (fresh_inserts ∅ ([Insert 1 5 (PyStr "a"); Delete 5]
            ++ Insert 0 5 (PyStr "b") :: [Insert 2 7 (PyStr "c")])) as Hfresh.
  { simpl. split_and!; done || lia. }
  assert (Forall (λ o, op_key o ≠ 5) [Insert 2 7 (PyStr "c")]) as Hpost.
  { repeat constructor. simpl. lia. }
  split; [apply wf_empty|]. split; [apply ordered_empty|].
  split; [apply contents_empty|]. split; [done|]. split; [done|].
  apply (getitem_last_insert empty_list ∅ [Insert 1 5 (PyStr "a"); Delete 5]
           0 5 (PyStr "b") [Insert 2 7 (PyStr "c")]);
    [apply wf_empty|apply ordered_empty|apply contents_empty|done|done].
Defined.

(** C1 fails as stated: after [insert(5, "a")] at level 1 and
    [insert(5, "b")] at level 0, [lookup(5)] returns ["a"], the value of the
    first insert, which the search meets on level 1. *)
Lemma getitem_last_insert_counterexample :
  run dup_ops empty_list 5 = Ok dup_list
  ∧ getitem 5 dup_list 5 = Ok (PyStr "a")
  ∧ ¬ getitem 5 dup_list ⇓ Ok (PyStr "b").
Proof.
  split; [by vm_compute|]. split; [by vm_compute|].
  intros Hb.
  assert (getitem 5 dup_list ⇓ Ok (PyStr "a")) as Ha
    by (by apply (getitem_evals _ _ 5%nat)).
  by pose proof (evals_det _ _ _ Ha Hb).
Qed.

(** C3, as the code has it.  Start from a well-formed list with strictly
    increasing keys and an accurate [size], and run operations in which no
    [insert] is called with a key the list holds at that moment: then [size]
    is the number of distinct keys of level 0, which is also the number of
    its nodes. *)
Theorem size_counts_keys st M ops :
  wf st → ordered st → size_accurate st → contents st M →
  fresh_inserts M ops →
  ∃ st' ks, run ops st ⇓ Ok st'
    ∧ level_keys st' 0 ks
    ∧ size (self st') = distinct ks
    ∧ size (self st') = Z.of_nat (length ks).
Proof.
  intros Hwf Hord Hacc Hcon Hfresh.
  destruct (run_refines _ st M Hwf Hord Hcon Hfresh)
    as (st' & Hrun & [ch Hwf'] & Hord' & _ & Hacc').
  exists st', (key_at (mem st') <$> ch 0).
  assert (level_keys st' 0 (key_at (mem st') <$> ch 0)) as Hks
    by (by apply (wf_level_keys st' ch)).
  assert (size (self st') = Z.of_nat (length (key_at (mem st') <$> ch 0))) as Hsz.
  { rewrite length_fmap. apply Hacc'; [done|]. by apply (wf_path _ _ Hwf'). }
  split_and!; [done|done| |done].
  unfold distinct. rewrite remove_dups_NoDup_id; [done|].
  apply strict_NoDup. by apply (Hord' 0).
Qed.

Lemma size_counts_keys_witness :
  wf empty_list ∧ ordered empty_list ∧ size_accurate empty_list
  ∧ contents empty_list ∅
  ∧ fresh_inserts ∅ [Insert 1 5 (PyStr "a"); Insert 0 7 (PyStr "b"); Delete 5;
                     Delete 9; Insert 3 5 (PyStr "c")]
  ∧ ∃ st' ks,
      run [Insert 1 5 (PyStr "a"); Insert 0 7 (PyStr "b"); Delete 5;
           Delete 9; Insert 3 5 (PyStr "c")] empty_list ⇓ Ok st'
      ∧ level_keys st' 0 ks
      ∧ size (self st') = distinct ks
      ∧ size (self st') = Z.of_nat (length ks).
Proof.
  assert (fresh_inserts ∅ [Insert 1 5 (PyStr "a"); Insert 0 7 (PyStr "b");
            Delete 5; Delete 9; Insert 3 5 (PyStr "c")]) as Hfresh.
  { simpl. split_and!; done || lia. }
  split; [apply wf_empty|]. split; [apply ordered_empty|].
  split; [apply size_accurate_empty|]. split; [apply contents_empty|].
  split; [done|].
  apply (size_counts_keys empty_list ∅);
    [apply wf_empty|apply ordered_empty|apply size_accurate_empty
    |apply contents_empty|done].
Defined.

Lemma level_keys_dup_list : level_keys dup_list 0 [5; 5].
Proof. exists [2; 1]%nat. split; by vm_compute. Qed.

(** C3 fails as stated: after inserting key 5 twice, [size] is 2 while
    level 0 has one distinct key. *)
Lemma size_counts_keys_counterexample :
  run dup_ops empty_list 5 = Ok dup_list
  ∧ level_keys dup_list 0 [5; 5]
  ∧ size (self dup_list) = 2
  ∧ distinct [5; 5] = 1
  ∧ size (self dup_list) ≠ distinct [5; 5].
Proof.
  split; [by vm_compute|]. split; [apply level_keys_dup_list|].
  split_and!; by vm_compute.
Qed.

(** C5, as the code has it.  On a well-formed list whose levels have
    strictly increasing keys, [delete] and the [insert] of a key that no node
    has keep the keys of every level strictly increasing.  After any [insert]
    the keys of every level are non-decreasing. *)
Theorem ordering_preserved st :
  wf st → ordered st →
  (∀ h k v, ¬ has_key st k →
     ∃ st', insert h k v st ⇓ Ok st' ∧ wf st' ∧ ordered st')
  ∧ (∀ h k v, ∃ st', insert h k v st ⇓ Ok st' ∧ wf st'
       ∧ ∀ i ks, 0 ≤ i → level_keys st' i ks → StronglySorted Z.le ks)
  ∧ (∀ k, ∃ st', delete k st ⇓ Ok st' ∧ wf st' ∧ ordered st').
Proof.
  intros Hwf Hord. split_and!.
  - intros h k v Hno. destruct Hwf as [ch Hwf].
    destruct (insert_spec st ch h k v Hwf) as (st' & Hrun & Hwf' & _ & Ht & _).
    exists st'. split_and!; [done|by eexists|].
    assert (∀ a, a ∈ ch 0 → key_at (mem st') a = key_at (mem st) a) as Hkf.
    { intros a Ha. eapply inserted_key_at_old; [done|].
      intros ->. by apply (wf_alloc_not_in st ch 0) in Ha. }
    pose proof (proj1 (wf_ordered st ch Hwf) Hord) as Hstrict.
    apply (wf_ordered st' _ Hwf'). cbv beta.
    destruct (decide (0 ≤ 0 ≤ h)) as [Hin|Hout].
    + rewrite <- (splice_ext (key_at (mem st)) (key_at (mem st'))) by done.
      apply strict_splice.
      * by apply (sorted_key_ext Z.lt (key_at (mem st))).
      * by eapply inserted_key_at_new.
      * intros a Ha Hk. apply Hno, (wf_has_key_elem st ch k Hwf).
        exists a. by rewrite <- Hkf.
    + by apply (sorted_key_ext Z.lt (key_at (mem st))).
  - intros h k v. destruct (insert_step st h k v Hwf) as (st' & Hrun & Hwf' & _).
    exists st'. split_and!; [done|done|].
    intros i ks. by apply wf_weakly_sorted.
  - intros k. destruct Hwf as [ch Hwf].
    destruct (delete_spec st ch k Hwf) as (st' & Hrun & Hwf' & _ & Ht & _).
    exists st'. split_and!; [done|by eexists|].
    pose proof (proj1 (wf_ordered st ch Hwf) Hord) as Hstrict.
    apply (wf_ordered st' _ Hwf'). cbv beta.
    apply (sorted_key_ext Z.lt (key_at (mem st)));
      [intros a _; by eapply touched_only_key_at|].
    by apply (StronglySorted_sublist _ _ (ch 0)); [apply sublist_filter|].
Qed.

Lemma ordering_preserved_witness :
  wf example_list ∧ ordered example_list
  ∧ (∀ h k v, ¬ has_key example_list k →
       ∃ st', insert h k v example_list ⇓ Ok st' ∧ wf st' ∧ ordered st')
  ∧ (∀ h k v, ∃ st', insert h k v example_list ⇓ Ok st' ∧ wf st'
       ∧ ∀ i ks, 0 ≤ i → level_keys st' i ks → StronglySorted Z.le ks)
  ∧ (∀ k, ∃ st', delete k example_list ⇓ Ok st' ∧ wf st' ∧ ordered st').
Proof.
  split; [apply wf_example|]. split; [apply ordered_example|].
  apply (ordering_preserved example_list);
    [apply wf_example|apply ordered_example].
Defined.

(** C5 fails as stated: after inserting key 5 twice, level 0 reads 5, 5. *)
Lemma ordering_preserved_counterexample :
  run dup_ops empty_list 5 = Ok dup_list ∧ ¬ ordered dup_list.
Proof.
  split; [by vm_compute|]. intros Hord.
  specialize (Hord 0 [5; 5] ltac:(done) level_keys_dup_list).
  apply StronglySorted_cons in Hord as [Hlt _].
  apply Forall_cons in Hlt as [Hlt _]. lia.
Qed.

(** ** The level bound *)

Lemma height_bounded_intro st ch :
  wf_ch st ch →
  (∀ a n i, a ∈ ch 0 → mem st !! a = Some n → is_Some (next n !! i) →
     i ≤ level (self st)) →
  height_bounded st.
Proof.
  intros Hwf Hb l a n hgt Hl Ha Hn Hlev.
  apply (wf_level_nodes st ch 0 l Hwf) in Hl as ->; [|done].
  apply SkipNode_level_Some in Hlev as [Hh _]. eauto.
Qed.

Lemma height_bounded_elim st ch a n i :
  wf_ch st ch → height_bounded st →
  a ∈ ch 0 → mem st !! a = Some n → is_Some (next n !! i) →
  i ≤ level (self st).
Proof.
  intros Hwf Hb Ha Hn Hi.
  apply (proj1 (SkipNode_level_bound n (level (self st)))); [|exact Hi].
  intros hgt Hlev. apply (Hb (ch 0) a n hgt); [|done|done|done].
  by apply (wf_path _ _ Hwf).
Qed.

(** C4, as the code has it.  On a well-formed list on which no node has a
    [SkipNode.level] above [level], both operations keep that bound;
    [insert] at level [h] sets [level] to the larger of [level] and [h], and
    [delete] leaves [level] as it is. *)
Theorem height_bound_preserved st :
  wf st → height_bounded st →
  (∀ h k v, ∃ st', insert h k v st ⇓ Ok st' ∧ wf st' ∧ height_bounded st'
       ∧ level (self st') = level (self st) `max` h)
  ∧ (∀ k, ∃ st', delete k st ⇓ Ok st' ∧ wf st' ∧ height_bounded st'
       ∧ level (self st') = level (self st)).
Proof.
  intros [ch Hwf] Hb. split.
  - intros h k v.
    destruct (insert_spec st ch h k v Hwf) as (st' & Hrun & Hwf' & Hself & Ht & _).
    exists st'. split_and!; [done|by eexists| |by rewrite Hself].
    apply (height_bounded_intro st' _ Hwf'). cbv beta.
    intros a n i Ha Hn Hi. rewrite Hself. simpl.
    destruct (decide (0 ≤ i ≤ h)) as [?|Hout]; [lia|].
    pose proof (Ht a) as Hta. rewrite Hn in Hta.
    destruct (decide (a = alloc (mem st))) as [->|Hne].
    + rewrite lookup_insert_eq in Hta. destruct Hta as [_ Hnext].
      rewrite (Hnext i Hout) in Hi. simpl in Hi. rewrite lookup_empty in Hi.
      by destruct Hi.
    + rewrite lookup_insert_ne in Hta by done.
      destruct (mem st !! a) as [n0|] eqn:Hn0; [|done].
      destruct Hta as [_ Hnext]. rewrite (Hnext i Hout) in Hi.
      assert (a ∈ ch 0) as Ha0.
      { destruct (decide (0 ≤ 0 ≤ h)) as [Hin|Hnin]; [|done].
        apply elem_of_splice in Ha as [?|?]; done. }
      pose proof (height_bounded_elim st ch a n0 i Hwf Hb Ha0 Hn0 Hi). lia.
  - intros k.
    destruct (delete_spec st ch k Hwf) as (st' & Hrun & Hwf' & Hself & Ht & _).
    exists st'. split_and!; [done|by eexists| |by rewrite Hself].
    apply (height_bounded_intro st' _ Hwf'). cbv beta.
    intros a n i [_ Ha]%list_elem_of_filter Hn Hi. rewrite Hself. simpl.
    destruct (decide (0 ≤ i ≤ level (self st))) as [?|Hout]; [lia|].
    pose proof (Ht a) as Hta. rewrite Hn in Hta.
    destruct (mem st !! a) as [n0|] eqn:Hn0; [|done].
    destruct Hta as [_ Hnext]. rewrite (Hnext i Hout) in Hi.
    by apply (height_bounded_elim st ch a n0 i Hwf Hb).
Qed.

Lemma height_bound_preserved_witness :
  wf example_list ∧ height_bounded example_list
  ∧ (∀ h k v, ∃ st', insert h k v example_list ⇓ Ok st' ∧ wf st'
       ∧ height_bounded st'
       ∧ level (self st') = level (self example_list) `max` h)
  ∧ (∀ k, ∃ st', delete k example_list ⇓ Ok st' ∧ wf st'
       ∧ height_bounded st'
       ∧ level (self st') = level (self example_list)).
Proof.
  split; [apply wf_example|]. split; [apply height_bounded_example|].
  apply (height_bound_preserved example_list);
    [apply wf_example|apply height_bounded_example].
Defined.

(** C4 fails as stated: key 5 at level 2, key 7 at level 0, then
    [delete(5)]: [level] is still 2, while the one node left has height 0. *)
Lemma height_bound_preserved_counterexample :
  run tall_ops empty_list 5 = Ok tall_list
  ∧ level_nodes tall_list 0 [2%nat]
  ∧ max_height (mem tall_list) [2%nat] = 0
  ∧ level (self tall_list) = 2
  ∧ ¬ level_is_max tall_list.
Proof.
  assert (level_nodes tall_list 0 [2%nat]) as Hl by (by vm_compute).
  split_and!; [by vm_compute|done|by vm_compute|done|].
  intros Hmax. specialize (Hmax [2%nat] Hl). by vm_compute in Hmax.
Qed.

(** * Further properties of the operations *)

(** ** The keys of every level after [insert] and [delete] *)

Lemma fmap_filter_key (kf : addr → Z) (P : Z → Prop) `{!∀ x, Decision (P x)}
    (l : list addr) :
  kf <$> filter (λ a, P (kf a)) l = filter P (kf <$> l).
Proof.
  induction l as [|a l IH]; [done|].
  rewrite fmap_cons, !filter_cons. destruct (decide (P (kf a))); [|done].
  rewrite fmap_cons. by f_equal.
Qed.

Lemma fmap_key_ext (kf kf' : addr → Z) (l : list addr) :
  (∀ a, a ∈ l → kf' a = kf a) → kf' <$> l = kf <$> l.
Proof. intros Hext. by apply Forall_fmap_ext_1, Forall_forall. Qed.

(** [insert] never raises on a well-formed list, whatever the key and the
    level: it adds 1 to [size], and on each level from 0 to [new_level] the
    keys read as before with the new key put before the first key that is
    not smaller; the levels above read as before. *)
Theorem insert_level_keys st h k v :
  wf st →
  ∃ st', insert h k v st ⇓ Ok st' ∧ wf st'
    ∧ size (self st') = size (self st) + 1
    ∧ ∀ i ks, 0 ≤ i → level_keys st i ks →
        level_keys st' i
          (if decide (i ≤ h)
           then filter (λ x, x < k) ks ++ k :: filter (λ x, k ≤ x) ks
           else ks).
Proof.
  intros [ch Hwf].
  destruct (insert_spec st ch h k v Hwf) as (st' & Hrun & Hwf' & Hself & Ht & _).
  exists st'. split_and!; [done|by eexists|by rewrite Hself|].
  intros i ks Hi Hks.
  apply (wf_level_keys st ch i ks Hwf Hi) in Hks as ->.
  apply (wf_level_keys st' _ i _ Hwf' Hi). cbv beta.
  set (kf := key_at (mem st)). set (kf' := key_at (mem st')).
  assert (∀ a, a ∈ ch i → kf' a = kf a) as Hkf.
  { intros a Ha. eapply inserted_key_at_old; [done|].
    intros ->. by apply (wf_alloc_not_in st ch i) in Ha. }
  destruct (decide (i ≤ h)) as [Hih|Hih].
  - rewrite decide_True by lia. unfold splice, below, from.
    assert (kf' (alloc (mem st)) = k) as Hnew
      by (by eapply inserted_key_at_new).
    rewrite fmap_app, fmap_cons, Hnew.
    rewrite <- !(fmap_filter_key kf).
    rewrite (fmap_key_ext kf kf' (filter (λ a, kf a < k) (ch i)))
      by (intros a [_ Ha]%list_elem_of_filter; auto).
    rewrite (fmap_key_ext kf kf' (filter (λ a, k ≤ kf a) (ch i)))
      by (intros a [_ Ha]%list_elem_of_filter; auto).
    done.
  - rewrite decide_False by lia. symmetry. by apply fmap_key_ext.
Qed.

Lemma insert_level_keys_witness :
  wf example_list
  ∧ ∃ st', insert 1 14 (PyInt 14) example_list ⇓ Ok st' ∧ wf st'
      ∧ size (self st') = size (self example_list) + 1
      ∧ ∀ i ks, 0 ≤ i → level_keys example_list i ks →
          level_keys st' i
            (if decide (i ≤ 1)
             then filter (λ x, x < 14) ks ++ 14 :: filter (λ x, 14 ≤ x) ks
             else ks).
Proof.
  split; [apply wf_example|].
  apply (insert_level_keys example_list 1 14 (PyInt 14)). apply wf_example.
Defined.

(** [delete] never raises on a well-formed list: on every level the keys
    read as before with every occurrence of the key left out; [size] goes
    down by exactly 1 when some node had the key (however many had) and
    stays when none had; [level] stays. *)
Theorem delete_level_keys st k :
  wf st →
  ∃ st', delete k st ⇓ Ok st' ∧ wf st'
    ∧ (∀ i ks, 0 ≤ i → level_keys st i ks →
         level_keys st' i (filter (λ x, x ≠ k) ks))
    ∧ (has_key st k → size (self st') = size (self st) - 1)
    ∧ (¬ has_key st k → size (self st') = size (self st))
    ∧ level (self st') = level (self st).
Proof.
  intros [ch Hwf].
  destruct (delete_spec st ch k Hwf) as (st' & Hrun & Hwf' & Hself & Ht & _).
  exists st'. split_and!; [done|by eexists| | | |by rewrite Hself].
  - intros i ks Hi Hks.
    apply (wf_level_keys st ch i ks Hwf Hi) in Hks as ->.
    apply (wf_level_keys st' _ i _ Hwf' Hi). cbv beta. unfold without.
    rewrite <- (fmap_filter_key (key_at (mem st))). symmetry.
    apply fmap_key_ext. intros a _. by eapply touched_only_key_at.
  - intros Hk%(wf_has_key st ch k Hwf). rewrite Hself. simpl.
    by rewrite decide_False.
  - intros Hk. rewrite Hself. simpl. rewrite decide_True; [done|].
    rewrite (wf_has_key st ch k Hwf) in Hk.
    destruct (equal (key_at (mem st)) k (ch 0)); [done|]. by destruct Hk.
Qed.

Lemma delete_level_keys_witness :
  wf dup_list
  ∧ ∃ st', delete 5 dup_list ⇓ Ok st' ∧ wf st'
      ∧ (∀ i ks, 0 ≤ i → level_keys dup_list i ks →
           level_keys st' i (filter (λ x, x ≠ 5) ks))
      ∧ (has_key dup_list 5 → size (self st') = size (self dup_list) - 1)
      ∧ (¬ has_key dup_list 5 → size (self st') = size (self dup_list))
      ∧ level (self st') = level (self dup_list).
Proof.
  assert (wf dup_list) as Hwf
    by exact (reachable_wf _ _ wf_empty reachable_dup_list).
  split; [done|]. by apply (delete_level_keys dup_list 5).
Defined.

(** ** Which node a lookup finds *)

(** The lookup raises when level 0 has no node with the key; otherwise it
    returns the value of the first node with the key on the highest level
    that has one. *)
Lemma getitem_cases st ch k :
  wf_ch st ch →
  (equal (key_at (mem st)) k (ch 0) = [] ∧ getitem k st ⇓ KeyError k)
  ∨ (∃ j b E v, 0 ≤ j
       ∧ equal (key_at (mem st)) k (ch j) = b :: E
       ∧ (∀ j', j < j' → equal (key_at (mem st)) k (ch j') = [])
       ∧ aval (mem st) b = Some v
       ∧ getitem k st ⇓ Ok v).
Proof.
  intros Hwf. set (kf := key_at (mem st)). set (fuel := S (length (ch 0))).
  destruct (getitem_for_spec fuel (mem st) (head (self st)) kf k ch
              (Z.to_nat (level (self st) + 1)) (head (self st)))
    as [[Hrun Hnil]|(j & b & E & v & Hj & Hb & Hv & Hnil & Hrun)].
  { by apply wf_chains_ok. }
  { intros j Hj. set_solver. }
  { intros j Hj. pose proof (wf_length st ch j Hwf). unfold fuel. lia. }
  - left. split; [|by apply (getitem_evals _ _ fuel)].
    destruct (decide (0 ≤ level (self st))).
    + apply Hnil. lia.
    + rewrite (wf_top _ _ Hwf 0) by lia. done.
  - right. exists j, b, E, v.
    split_and!; [lia|done| |done|by apply (getitem_evals _ _ fuel)].
    intros j' Hj'. destruct (decide (j' ≤ level (self st))).
    + apply Hnil. lia.
    + rewrite (wf_top _ _ Hwf j') by lia. done.
Qed.

Lemma equal_level0 st ch k j :
  wf_ch st ch → 0 ≤ j →
  equal (key_at (mem st)) k (ch 0) = [] → equal (key_at (mem st)) k (ch j) = [].
Proof.
  intros Hwf Hj Hnil.
  apply (equal_incl (mem st) (head (self st)) (key_at (mem st)) ch (j + 1) k 0 j);
    [by apply wf_chains_ok|lia|lia|done].
Qed.

Lemma getitem_top st ch k j b E v :
  wf_ch st ch → 0 ≤ j →
  equal (key_at (mem st)) k (ch j) = b :: E →
  (∀ j', j < j' → equal (key_at (mem st)) k (ch j') = []) →
  aval (mem st) b = Some v →
  getitem k st ⇓ Ok v.
Proof.
  intros Hwf Hj Hb Hnil Hv.
  destruct (getitem_cases st ch k Hwf)
    as [[Hnil0 _]|(j0 & b0 & E0 & v0 & Hj0 & Hb0 & Hnil0 & Hv0 & Hrun)].
  - rewrite (equal_level0 st ch k j Hwf Hj Hnil0) in Hb. done.
  - assert (j0 = j) as ->.
    { destruct (Z.lt_trichotomy j0 j) as [Hlt|[?|Hgt]]; [|done|].
      - rewrite (Hnil0 j Hlt) in Hb. done.
      - rewrite (Hnil j0 Hgt) in Hb0. done. }
    rewrite Hb in Hb0. injection Hb0 as <- <-.
    rewrite Hv in Hv0. by injection Hv0 as <-.
Qed.

(** Two well-formed lists that show the same nodes with key [k] on every
    level, with the same values, answer the lookup of [k] alike. *)
Lemma getitem_agree st ch st' ch' k r :
  wf_ch st ch → wf_ch st' ch' →
  (∀ j, 0 ≤ j →
     equal (key_at (mem st')) k (ch' j) = equal (key_at (mem st)) k (ch j)) →
  (∀ a, a ∈ ch 0 → aval (mem st') a = aval (mem st) a) →
  getitem k st ⇓ r → getitem k st' ⇓ r.
Proof.
  intros Hwf Hwf' Heq Hval Hr.
  destruct (getitem_cases st ch k Hwf)
    as [[Hnil Hrun]|(j & b & E & v & Hj & Hb & Hnil & Hv & Hrun)];
    rewrite (evals_det _ _ _ Hr Hrun).
  - destruct (getitem_cases st' ch' k Hwf')
      as [[_ ?]|(j0 & b0 & E0 & v0 & Hj0 & Hb0 & _)]; [done|].
    rewrite Heq, (equal_level0 st ch k j0 Hwf Hj0 Hnil) in Hb0 by done. done.
  - apply (getitem_top st' ch' k j b E v); [done|done| | |].
    + by rewrite Heq.
    + intros j' Hj'. rewrite Heq by lia. auto.
    + rewrite Hval; [done|].
      assert (b ∈ equal (key_at (mem st)) k (ch j)) as [_ Hin]%list_elem_of_filter
        by (rewrite Hb; set_solver).
      by apply (wf_in_level0 st ch j).
Qed.

Lemma equal_as_akey st ch j k :
  wf_ch st ch → 0 ≤ j →
  equal (key_at (mem st)) k (ch j)
  = filter (λ a, akey (mem st) a = Some k) (ch j).
Proof.
  intros Hwf Hj. unfold equal. apply filter_ext_in. intros a Ha.
  rewrite (wf_keyed st ch j a Hwf Hj Ha). split; [by intros ->|congruence].
Qed.

(** On a well-formed list, [lookup(k)] returns the value of the first node
    with key [k] on the highest level that has such a node. *)
Theorem getitem_topmost st k j l1 b l2 v :
  wf st → 0 ≤ j →
  level_nodes st j (l1 ++ b :: l2) →
  akey (mem st) b = Some k →
  (∀ a, a ∈ l1 → akey (mem st) a ≠ Some k) →
  (∀ j' l' a, j < j' → level_nodes st j' l' → a ∈ l' →
     akey (mem st) a ≠ Some k) →
  aval (mem st) b = Some v →
  getitem k st ⇓ Ok v.
Proof.
  intros [ch Hwf] Hj Hl Hb Hl1 Habove Hv.
  apply (wf_level_nodes st ch j _ Hwf Hj) in Hl.
  apply (getitem_top st ch k j b
           (filter (λ a, akey (mem st) a = Some k) l2) v); [done|done| | |done].
  - rewrite (equal_as_akey st ch j k Hwf Hj), <- Hl, filter_app.
    rewrite filter_none by done. rewrite filter_cons_True by done. done.
  - intros j' Hj'. rewrite (equal_as_akey st ch j' k Hwf) by lia.
    apply filter_none. intros a Ha. apply (Habove j' (ch j')); [done| |done].
    apply (wf_path _ _ Hwf). lia.
Qed.

Lemma level_nodes_dup_list_1 : level_nodes dup_list 1 ([] ++ 1%nat :: []).
Proof. by vm_compute. Qed.

Lemma getitem_topmost_witness :
  wf dup_list ∧ 0 ≤ 1
  ∧ level_nodes dup_list 1 ([] ++ 1%nat :: [])
  ∧ akey (mem dup_list) 1%nat = Some 5
  ∧ (∀ a, a ∈ [] → akey (mem dup_list) a ≠ Some 5)
  ∧ (∀ j' l' a, 1 < j' → level_nodes dup_list j' l' → a ∈ l' →
       akey (mem dup_list) a ≠ Some 5)
  ∧ aval (mem dup_list) 1%nat = Some (PyStr "a")
  ∧ getitem 5 dup_list ⇓ Ok (PyStr "a").
Proof.
  assert (wf dup_list) as Hwf
    by exact (reachable_wf _ _ wf_empty reachable_dup_list).
  assert (∀ a : addr, a ∈ [] → akey (mem dup_list) a ≠ Some 5) as Hl1
    by (intros a Ha; set_solver).
  assert (∀ j' l' a, 1 < j' → level_nodes dup_list j' l' → a ∈ l' →
            akey (mem dup_list) a ≠ Some 5) as Habove.
  { intros j' l' a Hj' Hl' Ha.
    assert (l' = []) as ->; [|set_solver].
    eapply path_det; [done|].
    unfold path, link, dup_list, mem, head, self. simpl.
    rewrite lookup_insert_eq. simpl. unfold next_get. simpl.
    rewrite !lookup_insert_ne, lookup_empty by lia. done. }
  split; [done|]. split; [lia|]. split; [apply level_nodes_dup_list_1|].
  split; [by vm_compute|]. split; [done|]. split; [done|].
  split; [by vm_compute|].
  apply (getitem_topmost dup_list 5 1 [] 1%nat [] (PyStr "a"));
    [done|lia|apply level_nodes_dup_list_1|by vm_compute|done|done
    |by vm_compute].
Defined.

(** ** Operations on other keys *)

Lemma equal_splice_ne (kf kf' : addr → Z) k k' nn (l : list addr) :
  sorted_by kf l → k' ≠ k → kf' nn = k → (∀ a, a ∈ l → kf' a = kf a) →
  equal kf' k' (splice kf k nn l) = equal kf k' l.
Proof.
  intros Hs Hne Hnn Hext. unfold equal, splice.
  rewrite filter_app, filter_cons_False by congruence.
  rewrite <- filter_app. fold (below kf k l) (from kf k l).
  rewrite <- (sorted_by_below_from kf k l Hs).
  apply filter_ext_in. intros a Ha. by rewrite Hext.
Qed.

Lemma equal_without_ne (kf kf' : addr → Z) k k' (l : list addr) :
  k' ≠ k → (∀ a, a ∈ l → kf' a = kf a) →
  equal kf' k' (without kf k l) = equal kf k' l.
Proof.
  intros Hne. unfold equal, without.
  induction l as [|a l IH]; intros Hext; [done|].
  assert (kf' a = kf a) as Ha by (apply Hext; set_solver).
  assert (filter (λ a, kf' a = k') (filter (λ a, kf a ≠ k) l)
          = filter (λ a, kf a = k') l) as IH'
    by (apply IH; intros b Hb; apply Hext; set_solver).
  destruct (decide (kf a ≠ k)) as [Hk|Hk%dec_stable].
  - rewrite (filter_cons_True (λ a, kf a ≠ k)) by done.
    rewrite !filter_cons, IH', Ha. done.
  - rewrite (filter_cons_False (λ a, kf a ≠ k)) by (intros ?; done).
    rewrite IH'. rewrite (filter_cons_False (λ a, kf a = k')) by congruence.
    done.
Qed.

Lemma insert_other_key st h k v k' r :
  wf st → k' ≠ k → getitem k' st ⇓ r →
  ∃ st', insert h k v st ⇓ Ok st' ∧ wf st' ∧ getitem k' st' ⇓ r.
Proof.
  intros [ch Hwf] Hne Hr.
  destruct (insert_spec st ch h k v Hwf) as (st' & Hrun & Hwf' & _ & Ht & _).
  exists st'. split_and!; [done|by eexists|].
  assert (∀ j a, 0 ≤ j → a ∈ ch j → a ≠ alloc (mem st)) as Hnn.
  { intros j a Hj Ha ->. by apply (wf_alloc_not_in st ch j) in Ha. }
  apply (getitem_agree st ch st' _ k' r Hwf Hwf'); [| |done].
  - intros j Hj. cbv beta.
    assert (∀ a, a ∈ ch j → key_at (mem st') a = key_at (mem st) a) as Hkf.
    { intros a Ha. eapply inserted_key_at_old; [done|]. by apply (Hnn j). }
    destruct (decide (0 ≤ j ≤ h)) as [Hin|Hout].
    + apply equal_splice_ne; [|done|by eapply inserted_key_at_new|done].
      apply (sorted_by_sublist _ _ (ch 0)); [|apply (wf_sorted _ _ Hwf)].
      apply (wf_sub_le st); [done|lia].
    + unfold equal. apply filter_ext_in. intros a Ha. by rewrite Hkf.
  - intros a Ha. eapply inserted_aval_old; [done|]. by apply (Hnn 0).
Qed.

Lemma delete_other_key st k k' r :
  wf st → k' ≠ k → getitem k' st ⇓ r →
  ∃ st', delete k st ⇓ Ok st' ∧ wf st' ∧ getitem k' st' ⇓ r.
Proof.
  intros [ch Hwf] Hne Hr.
  destruct (delete_spec st ch k Hwf) as (st' & Hrun & Hwf' & _ & Ht & _).
  exists st'. split_and!; [done|by eexists|].
  apply (getitem_agree st ch st' _ k' r Hwf Hwf'); [| |done].
  - intros j Hj. cbv beta. apply equal_without_ne; [done|].
    intros a _. by eapply touched_only_key_at.
  - intros a _. by eapply touched_only_aval.
Qed.

(** What [lookup(k)] answers on a well-formed list is what it answers after
    any sequence of [insert] and [delete] calls on other keys. *)
Theorem getitem_other_keys st k r ops :
  wf st → Forall (λ o, op_key o ≠ k) ops → getitem k st ⇓ r →
  ∃ st', run ops st ⇓ Ok st' ∧ getitem k st' ⇓ r.
Proof.
  revert st. induction ops as [|o ops IH]; intros st Hwf Hops Hr.
  - exists st. split; [by exists 0%nat|done].
  - apply Forall_cons in Hops as [Ho Hops].
    assert (∃ st1, apply_op o st ⇓ Ok st1 ∧ wf st1 ∧ getitem k st1 ⇓ r)
      as (st1 & Hrun1 & Hwf1 & Hr1).
    { destruct o as [h k0 v|k0]; simpl in Ho.
      - apply insert_other_key; [done|congruence|done].
      - apply delete_other_key; [done|congruence|done]. }
    destruct (IH st1 Hwf1 Hops Hr1) as (st' & Hrun & Hr').
    exists st'. split; [by eapply run_cons_evals|done].
Qed.

Lemma getitem_other_keys_witness :
  wf example_list
  ∧ Forall (λ o, op_key o ≠ 7)
      [Insert 2 14 (PyInt 14); Delete 5; Insert 0 8 (PyStr "x"); Delete 100]
  ∧ getitem 7 example_list ⇓ Ok (PyStr "7!")
  ∧ ∃ st', run [Insert 2 14 (PyInt 14); Delete 5; Insert 0 8 (PyStr "x");
                Delete 100] example_list ⇓ Ok st'
      ∧ getitem 7 st' ⇓ Ok (PyStr "7!").
Proof.
  assert (Forall (λ o, op_key o ≠ 7)
            [Insert 2 14 (PyInt 14); Delete 5; Insert 0 8 (PyStr "x");
             Delete 100]) as Hops
    by (repeat constructor; simpl; lia).
  assert (getitem 7 example_list ⇓ Ok (PyStr "7!")) as Hr
    by (by apply (getitem_evals _ _ 10%nat)).
  split; [apply wf_example|]. split; [done|]. split; [done|].
  apply (getitem_other_keys example_list 7 (Ok (PyStr "7!")));
    [apply wf_example|done|done].
Defined.

(** ** The lookup that follows an [insert] *)

(** After [insert(k, v)] at a level from 0 up, [lookup(k)] returns [v]
    whenever no node with key [k] stood on a level above the drawn one, in
    particular when the key was absent or the drawn level is at least
    [level]. *)
Theorem getitem_after_insert st h k v :
  wf st → 0 ≤ h →
  (∀ j l a, h < j → level_nodes st j l → a ∈ l → akey (mem st) a ≠ Some k) →
  ∃ st', insert h k v st ⇓ Ok st' ∧ getitem k st' ⇓ Ok v.
Proof.
  intros [ch Hwf] Hh Habove.
  destruct (insert_spec st ch h k v Hwf) as (st' & Hrun & Hwf' & _ & Ht & _).
  exists st'. split; [done|].
  set (nn := alloc (mem st)). set (kf := key_at (mem st)).
  set (kf' := key_at (mem st')).
  assert (∀ j a, 0 ≤ j → a ∈ ch j → kf' a = kf a) as Hkf.
  { intros j a Hj Ha. eapply inserted_key_at_old; [done|].
    intros ->. by apply (wf_alloc_not_in st ch j) in Ha. }
  assert (kf' nn = k) as Hnn by (by eapply inserted_key_at_new).
  apply (getitem_top st' _ k h nn (equal kf' k (from kf k (ch h))) v Hwf' Hh).
  - cbv beta. rewrite decide_True by lia. unfold equal, splice.
    rewrite filter_app, filter_cons_True by done.
    rewrite (filter_none _ (below kf k (ch h))); [done|].
    intros a [Hlt Ha]%list_elem_of_filter. rewrite (Hkf h) by done. lia.
  - intros j' Hj'. cbv beta. rewrite decide_False by lia.
    apply (filter_none (λ a, kf' a = k)). intros a Ha.
    rewrite (Hkf j') by (done || lia). intros Hk.
    apply (Habove j' (ch j') a); [done| |done|].
    + apply (wf_path _ _ Hwf). lia.
    + rewrite (wf_keyed st ch j' a Hwf); [by rewrite <- Hk|lia|done].
  - by eapply inserted_aval_new.
Qed.

Lemma example_no_14 j l a :
  0 ≤ j → level_nodes example_list j l → a ∈ l →
  akey (mem example_list) a ≠ Some 14.
Proof.
  intros Hj Hl Ha Hk.
  destruct (wf_level_has_key example_list j l a 14 wf_example Hj Hl Ha Hk)
    as (l0 & a0 & Hl0 & Ha0 & Hk0).
  assert (l0 = [1; 2; 3; 4; 5; 6; 7]%nat) as ->
    by (eapply path_det; [done|by vm_compute]).
  repeat (apply elem_of_cons in Ha0 as [->|Ha0]; [by vm_compute in Hk0|]).
  set_solver.
Qed.

Lemma getitem_after_insert_witness :
  wf example_list ∧ 0 ≤ 0
  ∧ (∀ j l a, 0 < j → level_nodes example_list j l → a ∈ l →
       akey (mem example_list) a ≠ Some 14)
  ∧ ∃ st', insert 0 14 (PyStr "my value") example_list ⇓ Ok st'
      ∧ getitem 14 st' ⇓ Ok (PyStr "my value").
Proof.
  assert (∀ j l a, 0 < j → level_nodes example_list j l → a ∈ l →
            akey (mem example_list) a ≠ Some 14) as Habove.
  { intros j l a Hj. apply example_no_14. lia. }
  split; [apply wf_example|]. split; [lia|]. split; [done|].
  apply (getitem_after_insert example_list 0 14 (PyStr "my value"));
    [apply wf_example|lia|done].
Defined.

(** ** The list as a set of keys *)

Lemma insert_keys st h k v :
  wf st →
  ∃ st', insert h k v st ⇓ Ok st' ∧ wf st'
    ∧ ∀ k', has_key st' k' ↔ (0 ≤ h ∧ k' = k) ∨ has_key st k'.
Proof.
  intros [ch Hwf].
  destruct (insert_spec st ch h k v Hwf) as (st' & Hrun & Hwf' & _ & Ht & _).
  exists st'. split_and!; [done|by eexists|].
  assert (∀ a, a ∈ ch 0 → key_at (mem st') a = key_at (mem st) a) as Hkf.
  { intros a Ha. eapply inserted_key_at_old; [done|].
    intros ->. by apply (wf_alloc_not_in st ch 0) in Ha. }
  assert (key_at (mem st') (alloc (mem st)) = k) as Hnn
    by (by eapply inserted_key_at_new).
  intros k'. rewrite (wf_has_key_elem _ _ _ Hwf'), (wf_has_key_elem _ _ _ Hwf).
  cbv beta. destruct (decide (0 ≤ 0 ≤ h)) as [Hin|Hout].
  - split.
    + intros (a & [->|Ha]%elem_of_splice & Hk).
      * left. split; [lia|congruence].
      * right. exists a. by rewrite <- Hkf.
    + intros [[_ ->]|(a & Ha & Hk)].
      * exists (alloc (mem st)). split; [|done].
        apply elem_of_splice_2; [apply (wf_sorted _ _ Hwf)|by left].
      * exists a. rewrite Hkf by done. split; [|done].
        apply elem_of_splice_2; [apply (wf_sorted _ _ Hwf)|by right].
  - split.
    + intros (a & Ha & Hk). right. exists a. by rewrite <- Hkf.
    + intros [[? _]|(a & Ha & Hk)]; [lia|]. exists a. by rewrite Hkf.
Qed.

Lemma apply_op_keys o st K :
  wf st → (∀ k, has_key st k ↔ k ∈ K) →
  ∃ st', apply_op o st ⇓ Ok st' ∧ wf st'
    ∧ ∀ k, has_key st' k ↔ k ∈ keys_op K o.
Proof.
  intros Hwf HK. destruct o as [h k v|k]; simpl.
  - destruct (insert_keys st h k v Hwf) as (st' & Hrun & Hwf' & Hk).
    exists st'. split_and!; [done|done|]. intros k'. rewrite Hk, HK.
    case_decide; set_solver by lia.
  - destruct (delete_step st k Hwf) as (st' & Hrun & Hwf' & Hk).
    exists st'. split_and!; [done|done|]. intros k'. rewrite Hk, HK.
    set_solver.
Qed.

(** No sequence of [insert] and [delete] calls on a well-formed list raises
    or loops, and the list it leaves is right as a set: a key is on level 0
    exactly when the sequence, read as set operations, leaves it in the set,
    and the lookup raises [KeyError] exactly for the other keys.  This holds
    with repeated inserts of one key too. *)
Theorem run_membership st K ops :
  wf st → (∀ k, has_key st k ↔ k ∈ K) →
  ∃ st', run ops st ⇓ Ok st' ∧ wf st'
    ∧ (∀ k, has_key st' k ↔ k ∈ foldl keys_op K ops)
    ∧ (∀ k, getitem k st' ⇓ KeyError k ↔ k ∉ foldl keys_op K ops).
Proof.
  revert st K. induction ops as [|o ops IH]; intros st K Hwf HK.
  - exists st. split_and!; [by exists 0%nat|done|done|].
    intros k. rewrite <- HK.
    destruct (getitem_outcome st k Hwf) as [[Hno Hrun]|(v & Hv & Hrun)].
    + tauto.
    + split; [|by intros []; eapply has_entry_has_key].
      intros Herr. by pose proof (evals_det _ _ _ Herr Hrun).
  - destruct (apply_op_keys o st K Hwf HK) as (st1 & Hrun1 & Hwf1 & HK1).
    destruct (IH st1 (keys_op K o) Hwf1 HK1) as (st' & Hrun & Hwf' & HK' & Hget).
    exists st'. split_and!; [by eapply run_cons_evals|done|done|done].
Qed.

Lemma run_membership_witness :
  wf empty_list ∧ (∀ k, has_key empty_list k ↔ k ∈ (∅ : gset Z))
  ∧ ∃ st', run [Insert 1 5 (PyStr "a"); Insert 0 5 (PyStr "b");
                Insert (-1) 9 (PyStr "c"); Delete 5; Insert 2 7 PyNone]
             empty_list ⇓ Ok st' ∧ wf st'
      ∧ (∀ k, has_key st' k
              ↔ k ∈ foldl keys_op (∅ : gset Z)
                      [Insert 1 5 (PyStr "a"); Insert 0 5 (PyStr "b");
                       Insert (-1) 9 (PyStr "c"); Delete 5; Insert 2 7 PyNone])
      ∧ (∀ k, getitem k st' ⇓ KeyError k
              ↔ k ∉ foldl keys_op (∅ : gset Z)
                      [Insert 1 5 (PyStr "a"); Insert 0 5 (PyStr "b");
                       Insert (-1) 9 (PyStr "c"); Delete 5; Insert 2 7 PyNone]).
Proof.
  assert (∀ k, has_key empty_list k ↔ k ∈ (∅ : gset Z)) as HK.
  { intros k. split; [by intros ?%empty_no_key|set_solver]. }
  split; [apply wf_empty|]. split; [done|].
  apply (run_membership empty_list ∅); [apply wf_empty|done].
Defined.

(** ** A negative level *)

(** [insert] with a negative drawn level links the new node nowhere: every
    level and every lookup is as before, yet [size] has grown by 1. *)
Theorem insert_negative_level st h k v :
  wf st → h < 0 →
  ∃ st', insert h k v st ⇓ Ok st'
    ∧ size (self st') = size (self st) + 1
    ∧ (∀ i l, 0 ≤ i → level_nodes st' i l ↔ level_nodes st i l)
    ∧ (∀ k' r, getitem k' st ⇓ r → getitem k' st' ⇓ r).
Proof.
  intros [ch Hwf] Hh.
  destruct (insert_spec st ch h k v Hwf) as (st' & Hrun & Hwf' & Hself & Ht & _).
  assert (∀ j a, 0 ≤ j → a ∈ ch j → a ≠ alloc (mem st)) as Hnn.
  { intros j a Hj Ha ->. by apply (wf_alloc_not_in st ch j) in Ha. }
  exists st'. split_and!; [done|by rewrite Hself| |].
  - intros i l Hi. rewrite (wf_level_nodes st' _ i l Hwf' Hi).
    rewrite (wf_level_nodes st ch i l Hwf Hi). cbv beta.
    by rewrite decide_False by lia.
  - intros k' r. apply (getitem_agree st ch st' _ k' r Hwf Hwf').
    + intros j Hj. cbv beta. rewrite decide_False by lia.
      unfold equal. apply filter_ext_in. intros a Ha.
      erewrite inserted_key_at_old; [done|done|]. by apply (Hnn j).
    + intros a Ha. eapply inserted_aval_old; [done|]. by apply (Hnn 0).
Qed.

Lemma insert_negative_level_witness :
  wf example_list ∧ -1 < 0
  ∧ ∃ st', insert (-1) 14 (PyInt 14) example_list ⇓ Ok st'
      ∧ size (self st') = size (self example_list) + 1
      ∧ (∀ i l, 0 ≤ i → level_nodes st' i l ↔ level_nodes example_list i l)
      ∧ (∀ k' r, getitem k' example_list ⇓ r → getitem k' st' ⇓ r).
Proof.
  split; [apply wf_example|]. split; [lia|].
  apply (insert_negative_level example_list (-1) 14 (PyInt 14));
    [apply wf_example|lia].
Defined.

(** ** [SkipNode.level] *)

(** [SkipNode.level] fails (the [ValueError] of [max]) exactly on a node
    whose [next] has no level at all; otherwise it is the largest level that
    [next] has an entry for, an entry holding [None] included. *)
Theorem SkipNode_level_spec n :
  (SkipNode_level n = None ↔ next n = ∅)
  ∧ ∀ h, SkipNode_level n = Some h
         ↔ is_Some (next n !! h) ∧ ∀ i, is_Some (next n !! i) → i ≤ h.
Proof.
  split; [|intros h; apply SkipNode_level_Some].
  unfold SkipNode_level. split.
  - destruct (elements (dom (next n))) as [|i l] eqn:E; [|done]. intros _.
    apply elements_empty_inv in E. apply leibniz_equiv in E.
    by apply dom_empty_inv_L.
  - intros ->. by rewrite dom_empty_L, elements_empty.
Qed.

(** ** [get_level] *)

Lemma get_level_nonneg flips z : get_level flips = Some z → 0 ≤ z.
Proof.
  revert z. induction flips as [|[] flips IH]; intros z; simpl; [done| |].
  - destruct (get_level flips) as [z'|]; [|done]. intros [= <-].
    specialize (IH z' eq_refl). lia.
  - intros [= <-]. done.
Qed.

(** [get_level] returns the number of [True] flips that come before the
    first [False], and keeps flipping as long as there is no [False]. *)
Theorem get_level_spec flips :
  (∀ z, get_level flips = Some z
        ↔ ∃ (n : nat) rest, z = Z.of_nat n
            ∧ flips = replicate n true ++ false :: rest)
  ∧ (get_level flips = None ↔ Forall (λ b, b = true) flips).
Proof.
  induction flips as [|[] flips [IHs IHn]]; simpl.
  - split.
    + intros z. split; [done|]. intros (n & rest & _ & Heq). by destruct n.
    + done.
  - split.
    + intros z. split.
      * destruct (get_level flips) as [z'|]; [|done]. intros [= <-].
        destruct (proj1 (IHs z') eq_refl) as (n & rest & -> & ->).
        exists (S n), rest. split; [lia|done].
      * intros ([|n] & rest & -> & Heq); [done|]. injection Heq as ->.
        rewrite (proj2 (IHs (Z.of_nat n))) by eauto. simpl. f_equal. lia.
    + rewrite Forall_cons, <- IHn. destruct (get_level flips); naive_solver.
  - split.
    + intros z. split.
      * intros [= <-]. by exists 0%nat, flips.
      * intros ([|n] & rest & -> & Heq); [done|done].
    + split; [done|]. by intros [? _]%Forall_cons.
Qed.

Lemma filter_fmap_length {A B} (g : A → B) (P : B → Prop)
    `{!∀ y, Decision (P y)} (l : list A) :
  length (filter P (g <$> l)) = length (filter (λ x, P (g x)) l).
Proof.
  induction l as [|x l IH]; [done|]. rewrite fmap_cons, !filter_cons.
  destruct (decide (P (g x))); simpl; by rewrite IH.
Qed.

Lemma filter_length_ext {A} (P Q : A → Prop) `{!∀ x, Decision (P x)}
    `{!∀ x, Decision (Q x)} (l : list A) :
  (∀ x, x ∈ l → P x ↔ Q x) → length (filter P l) = length (filter Q l).
Proof.
  induction l as [|x l IH]; intros Hall; [done|].
  assert (P x ↔ Q x) as Hx by (apply Hall; set_solver).
  assert (length (filter P l) = length (filter Q l)) as IH'
    by (apply IH; intros y Hy; apply Hall; set_solver).
  rewrite !filter_cons.
  destruct (decide (P x)), (decide (Q x)); simpl;
    first [by rewrite IH'|exfalso; tauto].
Qed.

Lemma filter_length_False {A} (l : list A) :
  length (filter (λ _, False) l) = 0%nat.
Proof.
  induction l as [|x l IH]; [done|]. by rewrite filter_cons_False by tauto.
Qed.

Lemma filter_length_True {A} (l : list A) :
  length (filter (λ _, True) l) = length l.
Proof.
  induction l as [|x l IH]; [done|]. rewrite filter_cons_True by done.
  simpl. by rewrite IH.
Qed.

Lemma all_flips_length n : length (all_flips n) = (2 ^ n)%nat.
Proof.
  induction n as [|n IH]; [done|].
  simpl all_flips. rewrite length_app, !length_fmap, IH, Nat.pow_succ_r'. lia.
Qed.

(** Of the [2 ^ n] outcomes of [n] coin flips, [2 ^ (n - 1 - L)] make
    [get_level] return [L] (for [L < n]): level 0 is drawn half of the time,
    and each level half as often as the level below it. *)
Theorem get_level_count n L :
  (L < n)%nat →
  length (filter (λ flips, get_level flips = Some (Z.of_nat L)) (all_flips n))
  = (2 ^ (n - 1 - L))%nat
  ∧ length (all_flips n) = (2 ^ n)%nat.
Proof.
  intros HL. split; [|apply all_flips_length].
  revert L HL. induction n as [|n IH]; intros L HL; [lia|].
  simpl all_flips. rewrite filter_app, length_app, !filter_fmap_length.
  destruct L as [|L].
  - rewrite (filter_length_ext _ (λ _, False) (all_flips n)).
    + rewrite (filter_length_ext
                 (λ flips, get_level (false :: flips) = Some (Z.of_nat 0))
                 (λ _, True) (all_flips n))
        by (intros ? _; split; [done|intros _; by simpl]).
      rewrite filter_length_False, filter_length_True, all_flips_length.
      simpl. f_equal. lia.
    + intros flips _. simpl. split; [|done].
      destruct (get_level flips) as [z|] eqn:E; [|done]. intros [= Hz].
      apply get_level_nonneg in E. lia.
  - rewrite (filter_length_ext _ (λ flips, get_level flips = Some (Z.of_nat L))
               (all_flips n)).
    + rewrite (filter_length_ext (λ flips, get_level (false :: flips) = _)
                 (λ _, False) (all_flips n)).
      * rewrite filter_length_False, IH by lia.
        rewrite Nat.add_0_r. f_equal. lia.
      * intros flips _. cbn [get_level]. split; [|done]. intros [= Hz]; lia.
    + intros flips _. cbn [get_level].
      destruct (get_level flips) as [z|]; cbn [fmap option_fmap option_map];
        [|done].
      split; intros [= Hz]; f_equal; lia.
Qed.

Lemma get_level_count_witness :
  (2 < 5)%nat
  ∧ length (filter (λ flips, get_level flips = Some (Z.of_nat 2)) (all_flips 5))
    = (2 ^ (5 - 1 - 2))%nat
  ∧ length (all_flips 5) = (2 ^ 5)%nat.
Proof. split; [lia|]. apply (get_level_count 5 2). lia. Defined.

(** * [__str__] *)

(** ** From the store to the keys of a level *)

Lemma str_while_place hp i : ∀ l x j location row max_len fuel,
  (x = None ∧ l = []) ∨ (∃ a l', x = Some a ∧ l = a :: l' ∧ path hp i a l') →
  (length l < fuel)%nat →
  str_while fuel hp i x j location row max_len
  = match place (akey hp <$> l) j location row max_len with
    | Some r => Str r
    | None => StrIndexError
    end.
Proof.
  induction l as [|a0 l IH]; intros x j location row max_len fuel Hx Hfuel.
  - destruct Hx as [[-> _]|(a & l' & _ & ? & _)]; [|done].
    destruct fuel; [simpl in Hfuel; lia|]. done.
  - destruct Hx as [[_ ?]|(a & l' & -> & [= <- <-] & Hp)]; [done|].
    destruct fuel as [|fuel]; [simpl in Hfuel; lia|].
    assert (∃ o, link hp i a0 = Some o
                 ∧ ((o = None ∧ l = [])
                    ∨ (∃ b l', o = Some b ∧ l = b :: l' ∧ path hp i b l')))
      as (o & Ho & Hnext).
    { destruct l as [|b l']; simpl in Hp.
      - exists None. split; [done|by left].
      - destruct Hp as [Ha Hb]. exists (Some b). split; [done|].
        right. by exists b, l'. }
    apply link_deref in Ho as (n & Hn & Hnext_get).
    rewrite fmap_cons. cbn [str_while place]. rewrite Hn.
    assert (akey hp a0 = key (pair n)) as -> by (unfold akey; by rewrite Hn).
    destruct (decide (default j (location !! key (pair n)) < length row)%nat);
      [|done].
    rewrite Hnext_get. apply IH; [done|simpl in Hfuel; lia].
Qed.

Lemma str_for_place_rows hp hd sz nh ch fuel :
  hp !! hd = Some nh →
  ∀ lv location rows max_len,
  (∀ i, i ∈ lv → is_Some (next nh !! i) ∧ path hp i hd (ch i)
                 ∧ (length (ch i) < fuel)%nat) →
  str_for fuel hp hd sz lv location rows max_len
  = match place_rows ((λ i, akey hp <$> ch i) <$> lv) sz location rows max_len
    with
    | Some r => Str r
    | None => StrIndexError
    end.
Proof.
  intros Hhd. induction lv as [|i lv IH]; intros location rows max_len Hlv;
    [done|].
  destruct (Hlv i) as ([x Hx] & Hp & Hfuel); [set_solver|].
  rewrite fmap_cons. cbn [str_for place_rows]. rewrite Hhd, Hx.
  assert ((x = None ∧ ch i = [])
          ∨ (∃ a l', x = Some a ∧ ch i = a :: l' ∧ path hp i a l')) as Hvisit.
  { assert (link hp i hd = Some x) as Hlink.
    { unfold link, next_get. by rewrite Hhd; simpl; rewrite Hx. }
    destruct (ch i) as [|a l']; simpl in Hp.
    - left. split; [congruence|done].
    - destruct Hp as [Ha Hp]. right. exists a, l'.
      split_and!; [congruence|done|done]. }
  rewrite (str_while_place hp i (ch i) x 0%nat location _ max_len fuel Hvisit Hfuel).
  destruct (place (akey hp <$> ch i) 0 location
              (replicate (Z.to_nat sz) None) max_len)
    as [[[location' row] max_len']|]; [|done].
  simpl. apply IH. intros i' Hi'. apply Hlv. set_solver.
Qed.

(** ** Filling the rows, on keys *)

(** Level 0 on an empty [location]: distinct keys take the columns in order
    and [location] records the column of each. *)
Lemma place_first : ∀ ks done location max_len,
  NoDup (done ++ ks) →
  (∀ k p, location !! k = Some p ↔ done !! p = Some k) →
  ∃ location' max_len',
    place ks (length done) location
      (done ++ replicate (length ks) None) max_len
    = Some (location', done ++ ks, max_len')
    ∧ (∀ k p, location' !! k = Some p ↔ (done ++ ks) !! p = Some k)
    ∧ (max_len ≤ max_len')%nat
    ∧ (∀ k, k ∈ ks → (String.length (str_key k) ≤ max_len')%nat).
Proof.
  induction ks as [|k ks IH]; intros done location max_len Hnd Hloc.
  - exists location, max_len. simpl. rewrite !app_nil_r.
    split_and!; [done|done|lia|]. intros k Hk. set_solver.
  - assert (k ∉ done) as Hk.
    { apply NoDup_app in Hnd as (_ & Hnd & _). intros Hin.
      apply (Hnd k Hin). set_solver. }
    assert (location !! k = None) as Hnone.
    { destruct (location !! k) as [p|] eqn:E; [|done].
      apply Hloc in E. by apply list_elem_of_lookup_2 in E. }
    cbn [place]. rewrite Hnone. cbn [default].
    rewrite decide_True by (rewrite length_app, length_replicate; simpl; lia).
    rewrite insert_app_r_alt by lia. rewrite Nat.sub_diag. cbn [length replicate].
    cbn [insert list_insert].
    destruct (IH (done ++ [k]) (<[k := length done]> location)
                (if decide (max_len < String.length (str_key k))%nat
                 then String.length (str_key k) else max_len))
      as (location' & max_len' & Hrun & Hloc' & Hml & Hlen).
    { by rewrite <- app_assoc. }
    { intros k' p. destruct (decide (k' = k)) as [->|Hne].
      - rewrite lookup_insert_eq, lookup_app_Some, list_lookup_singleton_Some.
        split.
        + intros [= <-]. right. split; [lia|]. split; [lia|done].
        + intros [Hin%list_elem_of_lookup_2|[? [? _]]]; [done|f_equal; lia].
      - rewrite lookup_insert_ne by done.
        rewrite lookup_app_Some, list_lookup_singleton_Some, Hloc.
        naive_solver. }
    rewrite length_app in Hrun. simpl in Hrun.
    rewrite Nat.add_1_r, <- !app_assoc in Hrun. simpl in Hrun.
    exists location', max_len'. rewrite <- app_assoc in Hloc'.
    split_and!; [done|done|case_decide; lia|].
    intros k' [->|Hin]%elem_of_cons; [case_decide; lia|auto].
Qed.

(** A level above: each key has its column in [location] already. *)
Lemma place_upper (ks0 : list (option Z)) location :
  NoDup ks0 →
  (∀ k p, location !! k = Some p ↔ ks0 !! p = Some k) →
  ∀ ks j row max_len,
  (∀ k, k ∈ ks → k ∈ ks0) → length row = length ks0 →
  ∃ row' max_len',
    place ks j location row max_len = Some (location, row', max_len')
    ∧ length row' = length ks0
    ∧ (∀ p k0, ks0 !! p = Some k0 →
         row' !! p = if decide (k0 ∈ ks) then Some k0 else row !! p)
    ∧ (max_len ≤ max_len')%nat.
Proof.
  intros Hnd Hloc. induction ks as [|k ks IH]; intros j row max_len Hin Hlen.
  - exists row, max_len. split_and!; [done|done| |lia].
    intros p k0 _. rewrite decide_False; [done|set_solver].
  - assert (k ∈ ks0) as [p Hp]%list_elem_of_lookup by (apply Hin; set_solver).
    assert (location !! k = Some p) as Hk by (by apply Hloc).
    assert (p < length ks0)%nat as Hlt by (by eapply lookup_lt_Some).
    cbn [place]. rewrite Hk. cbn [default].
    rewrite (decide_True (P := (p < length row)%nat)) by lia.
    rewrite (insert_id location k p Hk).
    destruct (IH (S p) (<[p := k]> row)
                (if decide (max_len < String.length (str_key k))%nat
                 then String.length (str_key k) else max_len))
      as (row' & max_len' & Hrun & Hlen' & Hrow & Hml).
    { intros k' Hk'. apply Hin. set_solver. }
    { by rewrite length_insert. }
    exists row', max_len'. split_and!; [done|done| |case_decide; lia].
    intros q k0 Hq. rewrite (Hrow q k0 Hq).
    destruct (decide (k0 ∈ ks)) as [Hks|Hks].
    + rewrite decide_True; [done|set_solver].
    + destruct (decide (q = p)) as [->|Hne].
      * assert (k0 = k) as -> by congruence.
        rewrite decide_True by set_solver.
        apply list_lookup_insert_eq. lia.
      * rewrite list_lookup_insert_ne by done.
        rewrite decide_False; [done|]. intros [->|?]%elem_of_cons; [|done].
        apply Hne. by eapply NoDup_lookup.
Qed.

Lemma place_rows_upper (ks0 : list (option Z)) location sz :
  NoDup ks0 →
  (∀ k p, location !! k = Some p ↔ ks0 !! p = Some k) →
  Z.to_nat sz = length ks0 →
  ∀ kss rows max_len,
  (∀ ks k, ks ∈ kss → k ∈ ks → k ∈ ks0) →
  ∃ max_len',
    place_rows kss sz location rows max_len
    = Some (rows ++ ((λ ks, (λ k0, if decide (k0 ∈ ks) then k0 else None)
                              <$> ks0) <$> kss), max_len')
    ∧ (max_len ≤ max_len')%nat.
Proof.
  intros Hnd Hloc Hsz. induction kss as [|ks kss IH]; intros rows max_len Hin.
  - exists max_len. simpl. rewrite app_nil_r. split; [done|lia].
  - destruct (place_upper ks0 location Hnd Hloc ks 0%nat
                (replicate (Z.to_nat sz) None) max_len)
      as (row' & max_len1 & Hrun & Hlen & Hrow & Hml).
    { intros k Hk. apply (Hin ks); [set_solver|done]. }
    { by rewrite length_replicate. }
    assert (row' = (λ k0, if decide (k0 ∈ ks) then k0 else None) <$> ks0) as ->.
    { apply list_eq. intros p. rewrite list_lookup_fmap.
      destruct (ks0 !! p) as [k0|] eqn:Hp; simpl.
      - rewrite (Hrow p k0 Hp). case_decide; [done|].
        apply lookup_replicate_2. rewrite Hsz. by eapply lookup_lt_Some.
      - apply lookup_ge_None. apply lookup_ge_None in Hp. lia. }
    destruct (IH (rows ++ [(λ k0, if decide (k0 ∈ ks) then k0 else None) <$> ks0])
                max_len1) as (max_len' & Hrun' & Hml').
    { intros ks' k Hks' Hk. apply (Hin ks'); [set_solver|done]. }
    exists max_len'. cbn [place_rows]. rewrite Hrun, Hrun'.
    rewrite <- app_assoc. split; [done|lia].
Qed.

(** The whole grid when level 0 has distinct keys [ks0], [size] is their
    number and the levels above hold keys of level 0 only. *)
Lemma place_rows_grid (ks0 : list (option Z)) sz kss :
  NoDup ks0 → Z.to_nat sz = length ks0 →
  (∀ ks k, ks ∈ kss → k ∈ ks → k ∈ ks0) →
  ∃ max_len,
    place_rows (ks0 :: kss) sz ∅ [] 0
    = Some ((λ ks, (λ k0, if decide (k0 ∈ ks) then k0 else None) <$> ks0)
              <$> (ks0 :: kss), max_len)
    ∧ ∀ k, k ∈ ks0 → (String.length (str_key k) ≤ max_len)%nat.
Proof.
  intros Hnd Hsz Hin.
  destruct (place_first ks0 [] ∅ 0%nat) as (location & max_len0 & Hrun & Hloc & _ & Hlen).
  { done. }
  { intros k p. rewrite lookup_empty, lookup_nil. done. }
  simpl in Hrun, Hloc.
  destruct (place_rows_upper ks0 location sz Hnd Hloc Hsz kss [ks0] max_len0 Hin)
    as (max_len & Hrun' & Hml).
  exists max_len. split.
  - cbn [place_rows]. rewrite Hsz, Hrun. cbn [app]. rewrite Hrun'.
    do 2 f_equal.
    rewrite fmap_cons. simpl. f_equal.
    apply list_eq. intros p. rewrite list_lookup_fmap.
    destruct (ks0 !! p) as [k0|] eqn:Hp; [|done]. simpl.
    rewrite decide_True; [done|]. by eapply list_elem_of_lookup_2.
  - intros k Hk. specialize (Hlen k Hk). lia.
Qed.

(** ** The grid of a well-formed list *)

Lemma range_up_lookup n m i :
  range_up n !! m = Some i ↔ i = Z.of_nat m ∧ Z.of_nat m < n.
Proof.
  unfold range_up. rewrite list_lookup_fmap, fmap_Some. split.
  - intros (j & [-> ?]%lookup_seq & ->). simpl. lia.
  - intros [-> ?]. exists m. split; [|done]. apply lookup_seq. lia.
Qed.

Lemma elem_of_range_up n i : i ∈ range_up n ↔ 0 ≤ i < n.
Proof.
  rewrite list_elem_of_lookup. split.
  - intros [m [-> ?]%range_up_lookup]. lia.
  - intros Hi. exists (Z.to_nat i). apply range_up_lookup. lia.
Qed.

Lemma range_up_cons n : 0 < n → ∃ lv, range_up n = 0 :: lv.
Proof.
  intros Hn. unfold range_up. destruct (Z.to_nat n) as [|m] eqn:E; [lia|].
  simpl. eauto.
Qed.

Lemma akey_fmap st ch i :
  wf_ch st ch → 0 ≤ i →
  akey (mem st) <$> ch i = Some <$> (key_at (mem st) <$> ch i).
Proof.
  intros Hwf Hi. rewrite <- list_fmap_compose.
  apply Forall_fmap_ext_1, Forall_forall. intros a Ha. simpl.
  by apply (wf_keyed st ch i).
Qed.

Lemma mark_keys (ks0 ks : list Z) :
  (λ k0 : option Z, if decide (k0 ∈ Some <$> ks) then k0 else None)
    <$> (Some <$> ks0)
  = (λ z, if decide (z ∈ ks) then Some z else None) <$> ks0.
Proof.
  rewrite <- list_fmap_compose. apply Forall_fmap_ext_1, Forall_forall.
  intros z _. simpl.
  destruct (decide (Some z ∈ Some <$> ks)) as [Hin|Hin],
    (decide (z ∈ ks)) as [Hz|Hz]; try done.
  - apply list_elem_of_fmap in Hin as (z' & [= <-] & ?). done.
  - destruct Hin. apply list_elem_of_fmap. eauto.
Qed.

(** The grid of [__str__] on a well-formed list with strictly increasing
    keys, an accurate [size] and a head that has every level: no error, one
    row per level, and in the row of level [i] the column of a key of level 0
    holds that key when it is on level [i] and [None] when it is not.  No key
    is wider than the width the loop ends with. *)
Lemma str_grid_rows st :
  wf st → ordered st → size_accurate st → head_spans st →
  ∃ rows max_len,
    (∃ n, ∀ fuel, (n ≤ fuel)%nat → str_grid st fuel = Str (rows, max_len))
    ∧ length rows = Z.to_nat (level (self st) + 1)
    ∧ (∀ i ks0 ks, 0 ≤ i ≤ level (self st) →
         level_keys st 0 ks0 → level_keys st i ks →
         rows !! Z.to_nat i
         = Some ((λ z, if decide (z ∈ ks) then Some z else None) <$> ks0))
    ∧ (∀ ks0 z, level_keys st 0 ks0 → z ∈ ks0 →
         (String.length (pretty z) ≤ max_len)%nat).
Proof.
  intros [ch Hwf] Hord Hacc (nh & Hnh & Hslots).
  set (lv := range_up (level (self st) + 1)).
  set (kss := (λ i, akey (mem st) <$> ch i) <$> lv).
  assert (∀ fuel, (S (length (ch 0%Z)) ≤ fuel)%nat →
            str_grid st fuel
            = match place_rows kss (size (self st)) ∅ [] 0 with
              | Some r => Str r
              | None => StrIndexError
              end) as Hrun.
  { intros fuel Hfuel. unfold str_grid.
    apply (str_for_place_rows (mem st) _ _ nh ch fuel Hnh).
    intros i Hi%elem_of_range_up. split_and!.
    - apply Hslots. lia.
    - apply (wf_path _ _ Hwf). lia.
    - pose proof (wf_length st ch i Hwf). lia. }
  assert (∀ i ks, 0 ≤ i → level_keys st i ks → ks = key_at (mem st) <$> ch i) as Hkeys.
  { intros i ks Hi Hks. by apply (wf_level_keys st ch i ks Hwf Hi). }
  destruct (decide (0 ≤ level (self st))) as [Hlev|Hlev].
  - destruct (range_up_cons (level (self st) + 1)) as [lv' Hlv]; [lia|].
    fold lv in Hlv.
    assert (kss = (akey (mem st) <$> ch 0) :: ((λ i, akey (mem st) <$> ch i) <$> lv')) as Hkss
      by (unfold kss; by rewrite Hlv).
    destruct (place_rows_grid (akey (mem st) <$> ch 0) (size (self st))
                ((λ i, akey (mem st) <$> ch i) <$> lv'))
      as (max_len & Hgrid & Hlen).
    { rewrite (akey_fmap st ch 0 Hwf) by done.
      apply (NoDup_fmap_2 Some), strict_NoDup, (Hord 0); [done|].
      by apply (wf_level_keys st ch). }
    { rewrite length_fmap, (Hacc (ch 0)); [lia|]. by apply (wf_path _ _ Hwf). }
    { intros ks k (i & -> & Hi)%list_elem_of_fmap (a & -> & Ha)%list_elem_of_fmap.
      apply list_elem_of_fmap. exists a. split; [done|].
      assert (i ∈ lv) as Hi'%elem_of_range_up by (rewrite Hlv; set_solver).
      apply (wf_in_level0 st ch i); [done|lia|done]. }
    rewrite <- Hkss in Hgrid.
    eexists _, max_len. split_and!.
    + exists (S (length (ch 0))). intros fuel Hfuel.
      rewrite (Hrun fuel Hfuel), Hgrid. done.
    + unfold kss, lv, range_up. by rewrite !length_fmap, length_seq.
    + intros i ks0 ks Hi Hks0 Hks.
      rewrite (Hkeys 0 ks0) by done. rewrite (Hkeys i ks) by (done || lia).
      rewrite list_lookup_fmap.
      assert (kss !! Z.to_nat i = Some (akey (mem st) <$> ch i)) as ->.
      { unfold kss. rewrite list_lookup_fmap.
        assert (lv !! Z.to_nat i = Some i) as ->; [|done].
        apply range_up_lookup. lia. }
      simpl. f_equal. rewrite (akey_fmap st ch 0 Hwf) by done.
      rewrite (akey_fmap st ch i Hwf) by lia. apply mark_keys.
    + intros ks0 z Hks0 Hz. rewrite (Hkeys 0 ks0) in Hz by done.
      apply (Hlen (Some z)). rewrite (akey_fmap st ch 0 Hwf) by done.
      apply list_elem_of_fmap. eauto.
  - assert (lv = []) as Hlv.
    { unfold lv, range_up. by replace (Z.to_nat (level (self st) + 1)) with 0%nat by lia. }
    exists [], 0%nat. split_and!.
    + exists (S (length (ch 0))). intros fuel Hfuel. rewrite (Hrun fuel Hfuel).
      unfold kss. by rewrite Hlv.
    + simpl. lia.
    + intros i ks0 ks Hi. lia.
    + intros ks0 z Hks0 Hz. rewrite (Hkeys 0 ks0) in Hz by done.
      rewrite (wf_top _ _ Hwf 0) in Hz by lia. set_solver.
Qed.

(** ** The text *)






(** What [__str__] returns on a well-formed list with strictly increasing
    keys, an accurate [size] and a head that has every level: one line per
    level, the highest level first; in the line of level [i] the column of a
    key of level 0 shows the key when it is on level [i] and is blank when
    it is not. *)
Theorem SkipList_str_grid st :
  wf st → ordered st → size_accurate st → head_spans st →
  ∃ rows max_len,
    (∃ n, ∀ fuel, (n ≤ fuel)%nat →
       SkipList_str st fuel
       = Str (join newline (reverse (imap (format_line max_len) rows))))
    ∧ length rows = Z.to_nat (level (self st) + 1)
    ∧ ∀ i ks0 ks, 0 ≤ i ≤ level (self st) →
        level_keys st 0 ks0 → level_keys st i ks →
        rows !! Z.to_nat i
        = Some ((λ z, if decide (z ∈ ks) then Some z else None) <$> ks0).
Proof.
  intros Hwf Hord Hacc Hhead.
  destruct (str_grid_rows st Hwf Hord Hacc Hhead)
    as (rows & max_len & [n Hrun] & Hlen & Hrows & _).
  exists rows, max_len. split_and!; [|done|done].
  exists n. intros fuel Hfuel. unfold SkipList_str. by rewrite (Hrun fuel Hfuel).
Qed.

Lemma size_accurate_example : size_accurate example_list.
Proof.
  intros l Hl.
  apply (wf_level_nodes _ _ 0 l wf_ch_example) in Hl as ->; done.
Qed.

Lemma head_spans_example : head_spans example_list.
Proof.
  eexists. split; [by vm_compute|]. intros i Hi.
  change (level (self example_list)) with 2 in Hi.
  assert (i = 0 ∨ i = 1 ∨ i = 2) as [-> | [-> | ->]] by lia;
    vm_compute; by eexists.
Qed.

Lemma SkipList_str_grid_witness :
  wf example_list ∧ ordered example_list ∧ size_accurate example_list
  ∧ head_spans example_list
  ∧ ∃ rows max_len,
      (∃ n, ∀ fuel, (n ≤ fuel)%nat →
         SkipList_str example_list fuel
         = Str (join newline (reverse (imap (format_line max_len) rows))))
      ∧ length rows = Z.to_nat (level (self example_list) + 1)
      ∧ ∀ i ks0 ks, 0 ≤ i ≤ level (self example_list) →
          level_keys example_list 0 ks0 → level_keys example_list i ks →
          rows !! Z.to_nat i
          = Some ((λ z, if decide (z ∈ ks) then Some z else None) <$> ks0).
Proof.
  split; [apply wf_example|]. split; [apply ordered_example|].
  split; [apply size_accurate_example|]. split; [apply head_spans_example|].
  apply (SkipList_str_grid example_list);
    [apply wf_example|apply ordered_example|apply size_accurate_example
    |apply head_spans_example].
Defined.



Example ex_str_example_list :
  SkipList_str example_list 10
  = Str ("2:                                     -> 24" +:+ newline +:+
         "1:       ->  5             -> 15       -> 24" +:+ newline +:+
         "0: ->  1 ->  5 ->  7 -> 12 -> 15 -> 19 -> 24").
Proof. by vm_compute. Qed.

(** ** The head keeps its levels *)

Lemma slots_kept_refl hp : slots_kept hp hp.
Proof. intros a n Hn. eauto. Qed.

Lemma slots_kept_trans hp1 hp2 hp3 :
  slots_kept hp1 hp2 → slots_kept hp2 hp3 → slots_kept hp1 hp3.
Proof.
  intros H12 H23 a n Hn.
  destruct (H12 a n Hn) as (n2 & Hn2 & Hi2).
  destruct (H23 a n2 Hn2) as (n3 & Hn3 & Hi3). eauto.
Qed.

Lemma slots_kept_set_next hp a i v : slots_kept hp (set_next hp a i v).
Proof.
  intros b n Hn. rewrite set_next_lookup, Hn.
  destruct (decide (a = b)) as [->|]; simpl; [|eauto].
  eexists. split; [done|]. simpl. intros j Hj.
  destruct (decide (i = j)) as [->|]; [by rewrite lookup_insert_eq|].
  by rewrite lookup_insert_ne.
Qed.

Lemma delete_while_slots k i : ∀ fuel hp x d hp' x' d',
  delete_while fuel hp k i x d = Ok (hp', x', d') → slots_kept hp hp'.
Proof.
  induction fuel as [|fuel IH]; intros hp x d hp' x' d' Hrun; [done|].
  simpl in Hrun.
  destruct (deref hp x) as [nx| | | |]; simpl in Hrun; try done.
  destruct (next_get nx i) as [b|];
    [|injection Hrun as <- _ _; apply slots_kept_refl].
  destruct (deref hp b) as [nb| | | |]; simpl in Hrun; try done.
  destruct (node_key nb) as [kb| | | |]; simpl in Hrun; try done.
  destruct (k <? kb); [injection Hrun as <- _ _; apply slots_kept_refl|].
  destruct (kb =? k); [|by eapply IH].
  eapply slots_kept_trans; [apply slots_kept_set_next|by eapply IH].
Qed.

Lemma delete_for_slots k fuel : ∀ levels hp x d hp' d',
  delete_for fuel hp k levels x d = Ok (hp', d') → slots_kept hp hp'.
Proof.
  induction levels as [|i levels IH]; intros hp x d hp' d' Hrun.
  - injection Hrun as <- _. apply slots_kept_refl.
  - simpl in Hrun.
    destruct (delete_while fuel hp k i x d) as [[[hp1 x1] d1]| | | |] eqn:Hw;
      simpl in Hrun; try done.
    eapply slots_kept_trans; [by eapply delete_while_slots|by eapply IH].
Qed.

Lemma delete_head_spans st k st' :
  delete k st ⇓ Ok st' → head_spans st → head_spans st'.
Proof.
  intros [n Hrun] (nh & Hnh & Hslots). specialize (Hrun n (le_n n)).
  unfold delete in Hrun.
  destruct (delete_for n (mem st) k _ _ false) as [[hp' d']| | | |] eqn:Hfor;
    simpl in Hrun; try done.
  injection Hrun as <-. unfold head_spans. simpl.
  destruct (delete_for_slots _ _ _ _ _ _ _ _ Hfor _ _ Hnh) as (nh' & Hnh' & Hkept).
  exists nh'. split; [done|]. intros i Hi. auto.
Qed.

Lemma insert_head_spans st h k v st' :
  wf st → insert h k v st ⇓ Ok st' →
  head_spans st ∨ level (self st) ≤ h →
  head_spans st'.
Proof.
  intros [ch Hwf] Hrun Hspans.
  destruct (insert_spec st ch h k v Hwf) as (st0 & Hrun0 & Hwf' & Hself & Ht & _).
  pose proof (evals_det _ _ _ Hrun0 Hrun) as [= ->].
  assert (head (self st) ≠ alloc (mem st)) as Hne.
  { intros Heq. pose proof (alloc_fresh (mem st)) as Hfresh.
    rewrite <- Heq in Hfresh.
    destruct (path_in_heap _ _ _ _ (head (self st)) (wf_path _ _ Hwf 0 ltac:(done)))
      as [? ?]; [set_solver|congruence]. }
  assert (∃ nh0, mem st !! head (self st) = Some nh0) as [nh0 Hnh0].
  { destruct (path_in_heap _ _ _ _ (head (self st)) (wf_path _ _ Hwf 0 ltac:(done)))
      as [? ?]; [set_solver|eauto]. }
  pose proof (Ht (head (self st))) as Hhd.
  rewrite lookup_insert_ne, Hnh0 in Hhd by done.
  destruct (mem st' !! head (self st)) as [nh'|] eqn:Hnh'; [|done].
  destruct Hhd as [_ Hout].
  unfold head_spans. rewrite Hself. simpl. exists nh'. split; [done|].
  intros i Hi. destruct (decide (i ≤ h)) as [Hih|Hih].
  - pose proof (wf_path _ _ Hwf' i ltac:(lia)) as Hp. cbv beta in Hp.
    rewrite decide_True in Hp by lia. rewrite Hself in Hp. simpl in Hp.
    assert (∃ c l, splice (key_at (mem st)) k (alloc (mem st)) (ch i) = c :: l)
      as (c & l & Hsp).
    { unfold splice. destruct (below _ k (ch i)); simpl; eauto. }
    rewrite Hsp in Hp. destruct Hp as [Hlink _].
    unfold link in Hlink. rewrite Hnh' in Hlink. simpl in Hlink.
    injection Hlink as Hlink. unfold next_get in Hlink.
    destruct (next nh' !! i); [by eexists|done].
  - rewrite Hout by lia.
    destruct Hspans as [(nh & Hnh & Hslots)|Hle]; [|lia].
    rewrite Hnh0 in Hnh. injection Hnh as <-. apply Hslots. lia.
Qed.

Lemma delete_level st k st' :
  wf st → delete k st ⇓ Ok st' → level (self st') = level (self st).
Proof.
  intros [ch Hwf] Hrun.
  destruct (delete_spec st ch k Hwf) as (st0 & Hrun0 & _ & Hself & _).
  pose proof (evals_det _ _ _ Hrun0 Hrun) as [= ->]. by rewrite Hself.
Qed.

Lemma apply_op_head_spans o st M st' :
  wf st → fresh_inserts M [o] → apply_op o st ⇓ Ok st' →
  (head_spans st → head_spans st')
  ∧ (head_spans st ∨ level (self st) ≤ 0 →
     head_spans st' ∨ level (self st') ≤ 0)
  ∧ (head_spans st ∨ level (self st) ≤ 0 →
     (∃ h k v, o = Insert h k v) → head_spans st').
Proof.
  intros Hwf [Hfresh _] Hrun. destruct o as [h k v|k]; simpl in Hrun.
  - destruct Hfresh as [Hh _].
    assert (head_spans st ∨ level (self st) ≤ 0 → head_spans st') as Hins.
    { intros Hi. eapply insert_head_spans; [done|done|].
      destruct Hi; [by left|right; lia]. }
    split_and!; [auto|auto|auto].
  - pose proof (delete_head_spans st k st' Hrun) as Hdel.
    pose proof (delete_level st k st' Hwf Hrun) as Hlevel.
    split_and!; [done| |by intros _ (? & ? & ? & ?)].
    intros [?|?]; [left; auto|right; lia].
Qed.

Lemma run_head_spans ops : ∀ st M st',
  wf st → ordered st → contents st M → fresh_inserts M ops →
  run ops st ⇓ Ok st' →
  (head_spans st → head_spans st')
  ∧ (head_spans st ∨ level (self st) ≤ 0 →
     (∃ h k v, Insert h k v ∈ ops) → head_spans st').
Proof.
  induction ops as [|o ops IH]; intros st M st' Hwf Hord Hcon Hfresh Hrun.
  - pose proof (evals_det _ _ _ Hrun (ex_intro _ 0%nat (λ _ _, eq_refl)))
      as [= ->].
    split; [done|]. intros _ (h & k & v & Hin). by apply elem_of_nil in Hin.
  - destruct Hfresh as [Ho Hfresh].
    destruct (apply_op_refines o st M) as (st1 & Hrun1 & Hwf1 & Hord1 & Hcon1 & _);
      [done|done|done|by split|].
    destruct (apply_op_head_spans o st M st1) as (Hkeep & Hinv & Hins);
      [done|by split|done|].
    destruct (IH st1 (model_op M o) st') as [Hkeep' Hins'];
      [done|done|done|done|by eapply run_cons_inv|].
    split; [auto|].
    intros Hi (h & k & v & Hin). apply elem_of_cons in Hin as [<-|Hin].
    + apply Hkeep', Hins; eauto.
    + apply Hins'; eauto.
Qed.

Lemma delete_empty k fuel : delete k empty_list (S fuel) = Ok empty_list.
Proof. reflexivity. Qed.

Lemma run_deletes_empty ops fuel :
  (∀ o, o ∈ ops → ∃ k, o = Delete k) → run ops empty_list (S fuel) = Ok empty_list.
Proof.
  induction ops as [|o ops IH]; intros Hdel; [done|].
  destruct (Hdel o) as [k ->]; [by left|].
  cbn [run apply_op]. rewrite delete_empty. simpl. apply IH.
  intros o Ho. apply Hdel. by right.
Qed.

(** [__str__] on a list built from the empty list by [insert]s of keys
    that are new when inserted (at levels from 0 up) and by [delete]s: once
    an [insert] was made, it returns a string; while none was made, the head
    has no entry for level 0 and it raises [KeyError(0)]. *)
Theorem SkipList_str_built ops :
  fresh_inserts ∅ ops →
  ∃ st, run ops empty_list ⇓ Ok st
    ∧ ((∃ h k v, Insert h k v ∈ ops) →
       ∃ s n, ∀ fuel, (n ≤ fuel)%nat → SkipList_str st fuel = Str s)
    ∧ ((∀ o, o ∈ ops → ∃ k, o = Delete k) →
       ∀ fuel, SkipList_str st fuel = StrKeyError 0).
Proof.
  intros Hfresh.
  destruct (run_refines ops empty_list ∅)
    as (st & Hrun & Hwf & Hord & _ & Hacc);
    [apply wf_empty|apply ordered_empty|apply contents_empty|done|].
  exists st. split_and!; [done| |].
  - intros Hins.
    destruct (run_head_spans ops empty_list ∅ st) as [_ Hspans];
      [apply wf_empty|apply ordered_empty|apply contents_empty|done|done|].
    destruct (str_grid_rows st) as (rows & max_len & [n Hstr] & _);
      [done|done|apply Hacc, size_accurate_empty|apply Hspans; [by right|done]|].
    eexists _, n. intros fuel Hfuel. unfold SkipList_str.
    by rewrite (Hstr fuel Hfuel).
  - intros Hdel fuel.
    assert (st = empty_list) as ->.
    { destruct Hrun as [n Hrun].
      pose proof (Hrun (S n) ltac:(lia)) as Hrun'.
      rewrite run_deletes_empty in Hrun' by done. congruence. }
    reflexivity.
Qed.

Lemma SkipList_str_built_witness :
  ∃ st, run [Insert 1 5 (PyStr "a"); Delete 7; Insert 0 3 PyNone; Delete 5]
          empty_list ⇓ Ok st
    ∧ ((∃ h k v, Insert h k v
                 ∈ [Insert 1 5 (PyStr "a"); Delete 7; Insert 0 3 PyNone;
                    Delete 5]) →
       ∃ s n, ∀ fuel, (n ≤ fuel)%nat → SkipList_str st fuel = Str s)
    ∧ ((∀ o, o ∈ [Insert 1 5 (PyStr "a"); Delete 7; Insert 0 3 PyNone;
                  Delete 5] → ∃ k, o = Delete k) →
       ∀ fuel, SkipList_str st fuel = StrKeyError 0).
Proof.
  apply (SkipList_str_built
           [Insert 1 5 (PyStr "a"); Delete 7; Insert 0 3 PyNone; Delete 5]).
  simpl. split_and!; try done; by vm_compute.
Defined.

(** ** Deleting twice *)

(** [delete] is idempotent: on a well-formed list a second [delete] of the
    same key returns the very list the first one left, its size included,
    however many nodes had the key. *)
Theorem delete_twice st k :
  wf st →
  ∃ st', delete k st ⇓ Ok st' ∧ wf st' ∧ delete k st' ⇓ Ok st'
    ∧ getitem k st' ⇓ KeyError k.
Proof.
  intros [ch Hwf].
  destruct (delete_spec st ch k Hwf) as (st' & Hrun & Hwf' & _ & Ht & _).
  assert (equal (key_at (mem st')) k (without (key_at (mem st)) k (ch 0)) = [])
    as Hnone.
  { apply filter_none. intros a Ha.
    rewrite (touched_only_key_at _ _ _ a Ht).
    unfold without in Ha. by apply list_elem_of_filter in Ha as [Hne _]. }
  destruct (delete_spec st' _ k Hwf') as (st'' & Hrun' & _ & _ & _ & Hnoop).
  rewrite (Hnoop Hnone) in Hrun'.
  exists st'. split_and!; [done|by eexists|done|].
  destruct (getitem_outcome st' k ltac:(by eexists)) as [[_ Hget]|[v [Hent _]]];
    [done|].
  exfalso. destruct Hent as (l & a & Hl & Ha & Hk & _).
  apply (wf_level_nodes _ _ 0 l Hwf' ltac:(done)) in Hl as ->.
  assert (a ∈ equal (key_at (mem st')) k (without (key_at (mem st)) k (ch 0)))
    as Hin.
  { apply list_elem_of_filter. split; [|done]. unfold key_at. by rewrite Hk. }
  rewrite Hnone in Hin. by apply elem_of_nil in Hin.
Qed.

Lemma delete_twice_witness :
  ∃ st', delete 5 dup_list ⇓ Ok st' ∧ wf st' ∧ delete 5 st' ⇓ Ok st'
    ∧ getitem 5 st' ⇓ KeyError 5.
Proof.
  apply (delete_twice dup_list 5).
  apply (reachable_wf empty_list); [apply wf_empty|apply reachable_dup_list].
Defined.
